(** * Hero galaxy subsystem: tier policy, orbit interaction store, star field

    A shallow embedding of the TypeScript sources of the portfolio's Hero
    section (device capability evaluation, quality tiers, the orbit
    interaction store with its inertial physics, and the seeded star-field
    generator), followed by the properties established about them.

    Numbers.  A JavaScript [number] is modelled by [JSNumber.num]: a real
    number, or one of the three special values NaN, +Infinity, -Infinity.
    Arithmetic on finite values is exact real arithmetic (rounding, overflow
    and the sign of zero are not modelled); the special values follow the
    ECMAScript rules ([0/0 = NaN], comparisons with NaN are false,
    [Math.max]/[Math.min] propagate NaN, ...).

    Binary64.  Where a property turns on rounding, overflow or the absorption
    of a small term by a large one, module [Binary64] repeats the functions
    concerned on IEEE 754 binary64 numbers, and the properties stated over
    the reals are restricted to arguments on which the two readings agree. *)

From Stdlib Require Import Reals Lra Lia ZArith List Bool String Ascii.
From Stdlib Require Floats.
Import ListNotations.

Local Open Scope R_scope.

(** ** JavaScript numbers *)

Module JSNumber.

Inductive num : Type :=
| Fin (r : R)
| PInf
| NInf
| NaN.

Definition Rltb (a b : R) : bool := if Rlt_dec a b then true else false.
Definition Rleb (a b : R) : bool := if Rle_dec a b then true else false.
Definition Reqb (a b : R) : bool := if Req_dec_T a b then true else false.

(** [a < b], [a <= b], [a > b], [a >= b] *)
Definition lt (a b : num) : bool :=
  match a, b with
  | Fin x, Fin y => Rltb x y
  | Fin _, PInf => true
  | NInf, Fin _ => true
  | NInf, PInf => true
  | _, _ => false
  end.

Definition le (a b : num) : bool :=
  match a, b with
  | Fin x, Fin y => Rleb x y
  | Fin _, PInf => true
  | NInf, Fin _ => true
  | NInf, PInf => true
  | PInf, PInf => true
  | NInf, NInf => true
  | _, _ => false
  end.

Definition gt (a b : num) : bool := lt b a.
Definition ge (a b : num) : bool := le b a.

(** unary minus *)
Definition neg (a : num) : num :=
  match a with
  | Fin x => Fin (- x)
  | PInf => NInf
  | NInf => PInf
  | NaN => NaN
  end.

Definition add (a b : num) : num :=
  match a, b with
  | NaN, _ | _, NaN => NaN
  | Fin x, Fin y => Fin (x + y)
  | PInf, NInf | NInf, PInf => NaN
  | PInf, _ | _, PInf => PInf
  | NInf, _ | _, NInf => NInf
  end.

Definition sub (a b : num) : num := add a (neg b).

(** the infinity with the sign of [x], NaN when [x] is zero *)
Definition inf_times (x : R) : num :=
  if Rlt_dec 0 x then PInf else if Rlt_dec x 0 then NInf else NaN.

Definition mul (a b : num) : num :=
  match a, b with
  | NaN, _ | _, NaN => NaN
  | Fin x, Fin y => Fin (x * y)
  | PInf, Fin y | Fin y, PInf => inf_times y
  | NInf, Fin y | Fin y, NInf => inf_times (- y)
  | PInf, PInf | NInf, NInf => PInf
  | PInf, NInf | NInf, PInf => NaN
  end.

Definition div (a b : num) : num :=
  match a, b with
  | NaN, _ | _, NaN => NaN
  | Fin x, Fin y => if Req_dec_T y 0 then inf_times x else Fin (x / y)
  | Fin _, PInf | Fin _, NInf => Fin 0
  | PInf, Fin y => if Rlt_dec y 0 then NInf else PInf
  | NInf, Fin y => if Rlt_dec y 0 then PInf else NInf
  | _, _ => NaN
  end.

(** [Math.abs], [Math.max], [Math.min] *)
Definition abs (a : num) : num :=
  match a with
  | Fin x => Fin (Rabs x)
  | PInf | NInf => PInf
  | NaN => NaN
  end.

Definition max (a b : num) : num :=
  match a, b with
  | NaN, _ | _, NaN => NaN
  | _, _ => if lt a b then b else a
  end.

Definition min (a b : num) : num :=
  match a, b with
  | NaN, _ | _, NaN => NaN
  | _, _ => if lt b a then b else a
  end.

(** integers among the reals *)
Definition trunc (r : R) : Z :=
  if Rle_dec 0 r then Int_part r else (- Int_part (- r))%Z.

Definition is_int (r : R) : bool := Reqb r (IZR (trunc r)).

Definition is_odd_int (r : R) : bool := is_int r && Z.odd (trunc r).

(** [Math.pow] *)
Definition pow (b e : num) : num :=
  match e with
  | NaN => NaN
  | Fin y =>
      if Req_dec_T y 0 then Fin 1 else
      match b with
      | NaN => NaN
      | Fin x =>
          if Rlt_dec 0 x then Fin (Rpower x y)
          else if Req_dec_T x 0 then (if Rlt_dec 0 y then Fin 0 else PInf)
          else if is_int y then Fin (powerRZ x (trunc y))
          else NaN
      | PInf => if Rlt_dec 0 y then PInf else Fin 0
      | NInf =>
          if Rlt_dec 0 y then (if is_odd_int y then NInf else PInf)
          else Fin 0
      end
  | PInf =>
      match b with
      | NaN => NaN
      | Fin x =>
          if Rlt_dec 1 (Rabs x) then PInf
          else if Rlt_dec (Rabs x) 1 then Fin 0 else NaN
      | PInf | NInf => PInf
      end
  | NInf =>
      match b with
      | NaN => NaN
      | Fin x =>
          if Rlt_dec 1 (Rabs x) then Fin 0
          else if Rlt_dec (Rabs x) 1 then PInf else NaN
      | PInf | NInf => Fin 0
      end
  end.

(** [Math.sqrt], [Math.log], [Math.cbrt] *)
Definition sqrt (a : num) : num :=
  match a with
  | Fin x => if Rlt_dec x 0 then NaN else Fin (R_sqrt.sqrt x)
  | PInf => PInf
  | NInf | NaN => NaN
  end.

Definition log (a : num) : num :=
  match a with
  | Fin x =>
      if Rlt_dec x 0 then NaN
      else if Req_dec_T x 0 then NInf else Fin (ln x)
  | PInf => PInf
  | NInf | NaN => NaN
  end.

Definition Rcbrt (x : R) : R :=
  if Rlt_dec 0 x then Rpower x (1 / 3)
  else if Rlt_dec x 0 then - Rpower (- x) (1 / 3) else 0.

Definition cbrt (a : num) : num :=
  match a with
  | Fin x => Fin (Rcbrt x)
  | other => other
  end.

(** the remainder operator [a % b]: the result takes the sign of [a] *)
Definition rem (a b : num) : num :=
  match a, b with
  | Fin x, Fin y =>
      if Req_dec_T y 0 then NaN else Fin (x - y * IZR (trunc (x / y)))
  | Fin x, PInf | Fin x, NInf => Fin x
  | _, _ => NaN
  end.

(** [Math.round]: the nearest integer, ties towards +Infinity *)
Definition round (a : num) : num :=
  match a with
  | Fin x => Fin (IZR (Int_part (x + 1 / 2)))
  | other => other
  end.

(** [Math.PI] *)
Definition Math_PI : num := Fin PI.

(** [while (cond(w)) w = body(w)]: [None] when the fuel runs out before the
    condition turns false *)
Fixpoint while (fuel : nat) (cond : num -> bool) (body : num -> num) (w : num)
  : option num :=
  match fuel with
  | O => None
  | S fuel' => if cond w then while fuel' cond body (body w) else Some w
  end.

(** [Math.exp], [Math.cos], [Math.sin] *)
Definition Math_exp (a : num) : num :=
  match a with
  | Fin x => Fin (exp x)
  | PInf => PInf
  | NInf => Fin 0
  | NaN => NaN
  end.

Definition Math_cos (a : num) : num :=
  match a with
  | Fin x => Fin (cos x)
  | _ => NaN
  end.

Definition Math_sin (a : num) : num :=
  match a with
  | Fin x => Fin (sin x)
  | _ => NaN
  end.

(** [a === b] on numbers *)
Definition strictEq (a b : num) : bool :=
  match a, b with
  | Fin x, Fin y => Reqb x y
  | PInf, PInf => true
  | NInf, NInf => true
  | _, _ => false
  end.

(** the mathematical order on numbers, as propositions *)
Definition Lt (a b : num) : Prop := lt a b = true.
Definition Le (a b : num) : Prop := le a b = true.

End JSNumber.

Import JSNumber.
Coercion Fin : R >-> num.

Declare Scope js_scope.
Delimit Scope js_scope with js.
Bind Scope js_scope with num.
Infix "+" := add : js_scope.
Infix "-" := sub : js_scope.
Infix "*" := mul : js_scope.
Infix "/" := div : js_scope.
Notation "- x" := (neg x) : js_scope.
Infix "<?" := lt (at level 70) : js_scope.
Infix "<=?" := le (at level 70) : js_scope.
Infix ">?" := gt (at level 70) : js_scope.
Infix ">=?" := ge (at level 70) : js_scope.
Infix "%%" := rem (at level 40, left associativity) : js_scope.

(** ** utils/qualityTiers.ts *)

Module QualityTiers.

Inductive QualityTier : Type := LOW | MEDIUM | HIGH.

Record QualityConfig : Type := mkQualityConfig {
  particles : num;
  renderScale : num;
  dprCapMobile : num;
  dprCapDesktop : num;
  targetFpsMid : num;
  targetFpsLow : num
}.

Definition QUALITY_CONFIG (tier : QualityTier) : QualityConfig :=
  match tier with
  | LOW => mkQualityConfig 5000 0.8 1.5 2.0 45 30
  | MEDIUM => mkQualityConfig 20000 0.9 1.5 2.0 45 30
  | HIGH => mkQualityConfig 50000 1.0 1.5 2.0 45 30
  end.

Definition getQualityConfig (tier : QualityTier) : QualityConfig :=
  QUALITY_CONFIG tier.

Definition clampDpr (dpr : num) (isMobile : bool) : num :=
  let maxDpr :=
    if isMobile then dprCapMobile (QUALITY_CONFIG LOW)
    else dprCapDesktop (QUALITY_CONFIG LOW) in
  min dpr maxDpr.

End QualityTiers.

(** ** utils/deviceCaps.ts

    The host environment is what the evaluator observes of it: whether
    [window] and [window.document] exist, the user-agent string, the device
    pixel ratio, what [canvas.getContext] answers for each context name, and
    the frame rate the benchmark measures. *)

Module Host.

(** a value caught by [catch (error)] *)
Inductive Thrown : Type :=
| ErrorObject (message : string)
| OtherValue.

(** the outcome of [canvas.getContext(name)] on a fresh canvas *)
Inductive Probe : Type :=
| Context
| Null
| Throws (e : Thrown).

Record Browser : Type := mkBrowser {
  userAgent : string;
  devicePixelRatio : num;
  getContext : string -> Probe;
  measuredFps : num
}.

Inductive Env : Type :=
| NoWindow
| NoDocument
| Window (b : Browser).

(** how a call (or the promise it returns) completes *)
Inductive Completion (A : Type) : Type :=
| Returns (a : A)
| Rejects (e : Thrown).

Arguments Returns {A} a.
Arguments Rejects {A} e.

End Host.

Module DeviceCapsCommon.
Import QualityTiers Host.

Inductive WebGLVersion : Type := V0 | V1 | V2.

Record DeviceCaps : Type := mkDeviceCaps {
  isWebGLAvailable : bool;
  webglVersion : WebGLVersion;
  reason : option string;
  isMobile : bool;
  dpr : num;
  clampedDpr : num;
  fpsEstimate : option num;
  tier : QualityTier;
  config : QualityConfig
}.

(** [typeof window !== 'undefined' && typeof window.document !== 'undefined'] *)
Definition isBrowser (env : Env) : bool :=
  match env with
  | Window _ => true
  | NoWindow | NoDocument => false
  end.

Definition lowerAscii (c : ascii) : ascii :=
  let n := nat_of_ascii c in
  if (65 <=? n)%nat && (n <=? 90)%nat then ascii_of_nat (n + 32) else c.

Fixpoint toLowerCase (s : string) : string :=
  match s with
  | EmptyString => EmptyString
  | String c rest => String (lowerAscii c) (toLowerCase rest)
  end.

Fixpoint includes (s keyword : string) : bool :=
  String.prefix keyword s ||
  match s with
  | EmptyString => false
  | String _ rest => includes rest keyword
  end.

Definition mobileKeywords : list string :=
  ["mobile"; "android"; "iphone"; "ipod"]%string.

Definition isMobileUA (env : Env) : bool :=
  match env with
  | Window b =>
      let ua := toLowerCase (userAgent b) in
      existsb (fun keyword => includes ua keyword) mobileKeywords &&
      negb (includes ua "tablet") &&
      negb (includes ua "ipad")
  | _ => false
  end.

Record WebGLResult : Type := mkWebGLResult {
  available : bool;
  version : WebGLVersion;
  failure : option string
}.

Definition detectionFailed (e : Thrown) : string :=
  ("WebGL detection failed: " ++
   match e with
   | ErrorObject message => message
   | OtherValue => "Unknown error"
   end)%string.

Definition detectWebGLVersion (env : Env) : WebGLResult :=
  match env with
  | Window b =>
      match getContext b "webgl2" with
      | Context => mkWebGLResult true V2 None
      | Throws e => mkWebGLResult false V0 (Some (detectionFailed e))
      | Null =>
          match getContext b "webgl" with
          | Context => mkWebGLResult true V1 None
          | Throws e => mkWebGLResult false V0 (Some (detectionFailed e))
          | Null =>
              match getContext b "experimental-webgl" with
              | Context => mkWebGLResult true V1 None
              | Throws e => mkWebGLResult false V0 (Some (detectionFailed e))
              | Null => mkWebGLResult false V0 (Some "WebGL not supported"%string)
              end
          end
      end
  | _ => mkWebGLResult false V0 (Some "SSR environment"%string)
  end.

(** [x || fallback] on a number and on an optional string *)
Definition numOr (x fallback : num) : num :=
  match x with
  | NaN => fallback
  | Fin r => if Req_dec_T r 0 then fallback else x
  | _ => x
  end.

Definition stringOr (x : option string) (fallback : string) : string :=
  match x with
  | Some EmptyString | None => fallback
  | Some s => s
  end.

Section Evaluate.

(** the two revisions of the file share [evaluateDeviceCaps] word for word
    and differ in the [decideTier] and [benchmarkFps] it calls *)
Variable decideTier : num -> bool -> QualityTier.
Variable benchmarkFps : Env -> Completion num.

Definition evaluateDeviceCaps (env : Env) : Completion DeviceCaps :=
  match env with
  | Window b =>
      let isMobile := isMobileUA env in
      let dpr := numOr (devicePixelRatio b) 1 in
      let clampedDpr := clampDpr dpr isMobile in
      let webglResult := detectWebGLVersion env in
      if negb (available webglResult) then
        Returns
          (mkDeviceCaps false (version webglResult)
             (Some (stringOr (failure webglResult) "WebGL detection failed"))
             isMobile dpr clampedDpr (Some (Fin 0)) LOW (getQualityConfig LOW))
      else
        match benchmarkFps env with
        | Rejects e => Rejects e
        | Returns fpsEstimate =>
            let tier := decideTier fpsEstimate isMobile in
            let config := getQualityConfig tier in
            Returns
              (mkDeviceCaps true (version webglResult) None
                 isMobile dpr clampedDpr (Some fpsEstimate) tier config)
        end
  | _ =>
      Returns
        (mkDeviceCaps false V0 (Some "Server-side rendering environment"%string)
           false 1 1 (Some (Fin 0)) LOW (getQualityConfig LOW))
  end.

End Evaluate.

End DeviceCapsCommon.

(** the revision under [utils/deviceCaps.ts] *)
Module DeviceCaps.
Import QualityTiers Host.
Export DeviceCapsCommon.

Definition benchmarkFps (env : Env) : Completion num :=
  match env with
  | Window b => Returns (round (measuredFps b))
  | _ => Returns (Fin 30)
  end.

Definition decideTier (fps : num) (isMobile : bool) : QualityTier :=
  if isMobile then
    if (fps >=? 50)%js then MEDIUM
    else if (fps >=? 35)%js then MEDIUM
    else LOW
  else
    if (fps >=? 55)%js then HIGH
    else if (fps >=? 40)%js then MEDIUM
    else LOW.

Definition evaluateDeviceCaps : Env -> Completion DeviceCaps :=
  DeviceCapsCommon.evaluateDeviceCaps decideTier benchmarkFps.

End DeviceCaps.

(** the other revision of [utils/deviceCaps.ts] (probe contexts are released,
    the benchmark renders off screen and caps its result at 120) *)
Module DeviceCapsRev.
Import QualityTiers Host.
Export DeviceCapsCommon.

Definition benchmarkFps (env : Env) : Completion num :=
  match env with
  | Window b =>
      match getContext b "webgl" with
      | Throws e => Rejects e
      | Context => Returns (min (round (measuredFps b)) 120)
      | Null =>
          match getContext b "experimental-webgl" with
          | Throws e => Rejects e
          | Context => Returns (min (round (measuredFps b)) 120)
          | Null => Returns (Fin 15)
          end
      end
  | _ => Returns (Fin 30)
  end.

Definition decideTier (fps : num) (isMobile : bool) : QualityTier :=
  if isMobile then
    if (fps >=? 50)%js then MEDIUM else LOW
  else
    if (fps >=? 55)%js then HIGH
    else if (fps >=? 40)%js then MEDIUM
    else LOW.

Definition evaluateDeviceCaps : Env -> Completion DeviceCaps :=
  DeviceCapsCommon.evaluateDeviceCaps decideTier benchmarkFps.

End DeviceCapsRev.

(** ** utils/physics.ts *)

Module Physics.

Record Spherical : Type := mkSpherical { theta : num; phi : num }.
Record AngularVel : Type := mkAngularVel { dTheta : num; dPhi : num }.
Record Constraints : Type := mkConstraints { minPhi : num; maxPhi : num }.

Definition degToRad (deg : num) : num := (deg * Math_PI / 180)%js.

Definition clamp (v lo hi : num) : num := min (max v lo) hi.

Definition wrapThetaWithin (fuel : nat) (theta : num) : option num :=
  match while fuel (fun w => w >? Math_PI)%js (fun w => w - 2 * Math_PI)%js theta with
  | Some wrapped =>
      while fuel (fun w => w <=? - Math_PI)%js (fun w => w + 2 * Math_PI)%js wrapped
  | None => None
  end.

(** iterations that suffice for the two loops of [wrapTheta] on a finite
    angle; on an infinite angle no number of iterations does *)
Definition wrapFuel (theta : num) : nat :=
  match theta with
  | Fin r => S (Z.to_nat (up (Rabs r / (2 * PI))))
  | _ => 1%nat
  end.

Definition wrapTheta (theta : num) : option num :=
  wrapThetaWithin (wrapFuel theta) theta.

Definition isNearZero (v eps : num) : bool := (abs v <? eps)%js.

Definition dampingFactorPerDt (dampingPerFrame dtMs : num) : num :=
  pow dampingPerFrame (dtMs / 16.6667)%js.

Definition applyDamping (v : AngularVel) (dampingPerFrame dtMs eps : num)
  : AngularVel :=
  let factor := dampingFactorPerDt dampingPerFrame dtMs in
  let dTheta' := (dTheta v * factor)%js in
  let dPhi' := (dPhi v * factor)%js in
  mkAngularVel (if isNearZero dTheta' eps then Fin 0 else dTheta')
               (if isNearZero dPhi' eps then Fin 0 else dPhi').

Definition integrateSpherical (current : Spherical) (vel : AngularVel)
    (dtMs : num) (constraints : Constraints) : option Spherical :=
  let dtSec := (dtMs / 1000)%js in
  match wrapTheta (theta current + dTheta vel * dtSec)%js with
  | Some newTheta =>
      let newPhi :=
        clamp (phi current + dPhi vel * dtSec)%js
              (minPhi constraints) (maxPhi constraints) in
      Some (mkSpherical newTheta newPhi)
  | None => None
  end.

Definition easeExp (current target lambdaPerSec dtMs : num) : num :=
  let factor := (1 - Math_exp (- lambdaPerSec * (dtMs / 1000)))%js in
  (current + (target - current) * factor)%js.

End Physics.

(** ** state/interactionStore.ts *)

Module InteractionStore.

Inductive InteractionState : Type := IDLE | DRAGGING | INERTIA.

(** [CameraSpherical]; the store's [velocity] has the same shape
    [{ theta: number; phi: number }] *)
Record CameraSpherical : Type := mkSpherical { theta : num; phi : num }.

Record InteractionConfig : Type := mkConfig {
  dragSensitivity : num;
  damping : num;
  minZoom : num;
  maxZoom : num;
  minElevationDeg : num;
  maxElevationDeg : num
}.

Record Store : Type := mkStore {
  state : InteractionState;
  current : CameraSpherical;
  target : CameraSpherical;
  zoom : num;
  targetZoom : num;
  velocity : CameraSpherical;
  lastTs : option num;
  isPointerCaptured : bool;
  isKeyboardFocused : bool;
  config : InteractionConfig
}.

Definition DEFAULT_CONFIG : InteractionConfig :=
  mkConfig 0.5 0.95 2 10 (-60) 60.

Definition DRAG_SENSITIVITY_TO_RAD_PER_PX : num := 0.005.
Definition VELOCITY_EPSILON : num := 1e-4.
Definition KEYBOARD_NUDGE_SPEED : num := 1.0.

Definition degToRad (deg : num) : num := (deg * Math_PI / 180)%js.

Definition clamp (value lo hi : num) : num := min (max value lo) hi.

Definition wrapThetaWithin (fuel : nat) (theta : num) : option num :=
  match while fuel (fun w => w >? Math_PI)%js (fun w => w - 2 * Math_PI)%js theta with
  | Some wrapped =>
      while fuel (fun w => w <? - Math_PI)%js (fun w => w + 2 * Math_PI)%js wrapped
  | None => None
  end.

Definition wrapTheta (theta : num) : option num :=
  wrapThetaWithin (Physics.wrapFuel theta) theta.

Definition isNearZero (velocity : CameraSpherical) : bool :=
  (abs (theta velocity) <? VELOCITY_EPSILON)%js &&
  (abs (phi velocity) <? VELOCITY_EPSILON)%js.

Record ElevationLimits : Type := mkLimits { minPhi : num; maxPhi : num }.

Definition getElevationLimits (config : InteractionConfig) : ElevationLimits :=
  mkLimits (degToRad (minElevationDeg config))
           (degToRad (maxElevationDeg config)).

Definition initialState : Store :=
  mkStore IDLE (mkSpherical 0 0) (mkSpherical 0 0) 4 4 (mkSpherical 0 0)
          None false false DEFAULT_CONFIG.

(** [set({...})]: the fields an action writes *)
Definition withState (st : InteractionState) (s : Store) : Store :=
  mkStore st (current s) (target s) (zoom s) (targetZoom s) (velocity s)
          (lastTs s) (isPointerCaptured s) (isKeyboardFocused s) (config s).
Definition withTarget (t : CameraSpherical) (s : Store) : Store :=
  mkStore (state s) (current s) t (zoom s) (targetZoom s) (velocity s)
          (lastTs s) (isPointerCaptured s) (isKeyboardFocused s) (config s).
Definition withVelocity (v : CameraSpherical) (s : Store) : Store :=
  mkStore (state s) (current s) (target s) (zoom s) (targetZoom s) v
          (lastTs s) (isPointerCaptured s) (isKeyboardFocused s) (config s).
Definition withLastTs (ts : option num) (s : Store) : Store :=
  mkStore (state s) (current s) (target s) (zoom s) (targetZoom s) (velocity s)
          ts (isPointerCaptured s) (isKeyboardFocused s) (config s).

Definition beginDrag (ts : num) (s : Store) : Store :=
  withVelocity (mkSpherical 0 0) (withLastTs (Some ts) (withState DRAGGING s)).

(** [const dtSec = Math.max(dtMs / 1000, 1e-6)] in [updateDrag] *)
Definition dragDtSec (dtMs : num) : num := max (dtMs / 1000)%js 1e-6.

(** an action that calls [wrapTheta] answers [None] when that call does not
    return *)
Definition updateDrag (dxPx dyPx dtMs : num) (s : Store) : option Store :=
  let config := config s in
  let limits := getElevationLimits config in
  let radPerPx := (dragSensitivity config * DRAG_SENSITIVITY_TO_RAD_PER_PX)%js in
  let dTheta := (- dxPx * radPerPx)%js in
  let dPhi := (dyPx * radPerPx)%js in
  match wrapTheta (theta (target s) + dTheta)%js with
  | None => None
  | Some newTheta =>
      let newTarget :=
        mkSpherical newTheta
          (clamp (phi (target s) + dPhi)%js (minPhi limits) (maxPhi limits)) in
      let dtSec := dragDtSec dtMs in
      let velocity := mkSpherical (dTheta / dtSec)%js (dPhi / dtSec)%js in
      Some (withVelocity velocity (withTarget newTarget s))
  end.

Definition endDrag (ts : num) (s : Store) : Store :=
  if isNearZero (velocity s) then withState IDLE s
  else withLastTs (Some ts) (withState INERTIA s).

Definition tickInertia (dtMs : num) (s : Store) : option Store :=
  match state s with
  | INERTIA =>
      let config := config s in
      let limits := getElevationLimits config in
      let dtSec := (dtMs / 1000)%js in
      let dampingFactor := pow (damping config) (dtMs / 16.67)%js in
      let newVelocity :=
        mkSpherical (theta (velocity s) * dampingFactor)%js
                    (phi (velocity s) * dampingFactor)%js in
      match wrapTheta (theta (target s) + theta newVelocity * dtSec)%js with
      | None => None
      | Some newTheta =>
          let newTarget :=
            mkSpherical newTheta
              (clamp (phi (target s) + phi newVelocity * dtSec)%js
                     (minPhi limits) (maxPhi limits)) in
          if isNearZero newVelocity then
            Some (withVelocity (mkSpherical 0 0)
                    (withTarget newTarget (withState IDLE s)))
          else
            Some (withVelocity newVelocity (withTarget newTarget s))
      end
  | _ => Some s
  end.

(** a key direction, [-1 | 0 | 1] *)
Inductive Dir : Type := Minus | Zero | Plus.

Definition dirNum (d : Dir) : num :=
  match d with Minus => Fin (-1) | Zero => Fin 0 | Plus => Fin 1 end.

Definition isZero (d : Dir) : bool :=
  match d with Zero => true | _ => false end.

Definition nudgeOrbitFromKeys (xDir yDir : Dir) (dtMs : num) (s : Store)
  : option Store :=
  if isZero xDir && isZero yDir then Some s else
  let config := config s in
  let limits := getElevationLimits config in
  let dtSec := (dtMs / 1000)%js in
  let speed := (KEYBOARD_NUDGE_SPEED * dragSensitivity config)%js in
  let dTheta := (- dirNum xDir * speed * dtSec)%js in
  let dPhi := (dirNum yDir * speed * dtSec)%js in
  match wrapTheta (theta (target s) + dTheta)%js with
  | None => None
  | Some newTheta =>
      let newTarget :=
        mkSpherical newTheta
          (clamp (phi (target s) + dPhi)%js (minPhi limits) (maxPhi limits)) in
      let newVelocity := mkSpherical (dTheta / dtSec)%js (dPhi / dtSec)%js in
      Some (withState (match state s with IDLE => INERTIA | st => st end)
              (withVelocity newVelocity (withTarget newTarget s)))
  end.

(** calls on the store, and runs of them *)
Inductive Action : Type :=
| BeginDrag (ts : num)
| UpdateDrag (dxPx dyPx dtMs : num)
| EndDrag (ts : num)
| TickInertia (dtMs : num)
| NudgeOrbitFromKeys (xDir yDir : Dir) (dtMs : num).

Definition dispatch (a : Action) (s : Store) : option Store :=
  match a with
  | BeginDrag ts => Some (beginDrag ts s)
  | UpdateDrag dxPx dyPx dtMs => updateDrag dxPx dyPx dtMs s
  | EndDrag ts => Some (endDrag ts s)
  | TickInertia dtMs => tickInertia dtMs s
  | NudgeOrbitFromKeys xDir yDir dtMs => nudgeOrbitFromKeys xDir yDir dtMs s
  end.

Fixpoint run (actions : list Action) (s : Store) : option Store :=
  match actions with
  | [] => Some s
  | a :: rest =>
      match dispatch a s with
      | Some s' => run rest s'
      | None => None
      end
  end.

(** the elevation clamp: [target.phi] within the limits the configuration
    gives in degrees *)
Definition elevationClamped (s : Store) : Prop :=
  let limits := getElevationLimits (config s) in
  Le (minPhi limits) (phi (target s)) /\ Le (phi (target s)) (maxPhi limits).

(** a configuration of finite numbers with a positive damping constant and
    ordered elevation limits *)
Definition finiteConfig (c : InteractionConfig) : Prop :=
  exists sens d lo hi : R,
    dragSensitivity c = Fin sens /\ damping c = Fin d /\
    minElevationDeg c = Fin lo /\ maxElevationDeg c = Fin hi /\
    0 < d /\ lo <= hi.

(** finite target angles and a finite velocity *)
Definition finiteMotion (s : Store) : Prop :=
  exists th ph vt vp : R,
    target s = mkSpherical (Fin th) (Fin ph) /\
    velocity s = mkSpherical (Fin vt) (Fin vp).

(** a call with finite arguments; for a key nudge the frame moreover has a
    length other than zero *)
Definition finiteAction (a : Action) : Prop :=
  match a with
  | BeginDrag _ | EndDrag _ => True
  | UpdateDrag dxPx dyPx dtMs =>
      exists dx dy dt : R, dxPx = Fin dx /\ dyPx = Fin dy /\ dtMs = Fin dt
  | TickInertia dtMs => exists dt : R, dtMs = Fin dt
  | NudgeOrbitFromKeys _ _ dtMs => exists dt : R, dtMs = Fin dt /\ dt <> 0
  end.

(** [n] successive frames of [tickInertia(dtMs)] *)
Fixpoint ticks (n : nat) (dtMs : num) (s : Store) : option Store :=
  match n with
  | O => Some s
  | S n' =>
      match tickInertia dtMs s with
      | Some s' => ticks n' dtMs s'
      | None => None
      end
  end.

(** *** configuration, zoom, focus and reset *)

Definition WHEEL_ZOOM_SENSITIVITY : num := 0.1.
Definition ZOOM_EASE_LAMBDA : num := 4.0.

Definition easeExp (current target lambdaPerSec dtMs : num) : num :=
  let factor := (1 - Math_exp (- lambdaPerSec * (dtMs / 1000)))%js in
  (current + (target - current) * factor)%js.

Definition withZoom (z : num) (s : Store) : Store :=
  mkStore (state s) (current s) (target s) z (targetZoom s) (velocity s)
          (lastTs s) (isPointerCaptured s) (isKeyboardFocused s) (config s).
Definition withTargetZoom (z : num) (s : Store) : Store :=
  mkStore (state s) (current s) (target s) (zoom s) z (velocity s)
          (lastTs s) (isPointerCaptured s) (isKeyboardFocused s) (config s).
Definition withKeyboardFocus (focused : bool) (s : Store) : Store :=
  mkStore (state s) (current s) (target s) (zoom s) (targetZoom s) (velocity s)
          (lastTs s) (isPointerCaptured s) focused (config s).
Definition withConfig (c : InteractionConfig) (s : Store) : Store :=
  mkStore (state s) (current s) (target s) (zoom s) (targetZoom s) (velocity s)
          (lastTs s) (isPointerCaptured s) (isKeyboardFocused s) c.

(** [Partial<InteractionConfig>]: each key is either absent or a number *)
Record PartialConfig : Type := mkPartial {
  dragSensitivity' : option num;
  damping' : option num;
  minZoom' : option num;
  maxZoom' : option num;
  minElevationDeg' : option num;
  maxElevationDeg' : option num
}.

Definition orKeep (o : option num) (kept : num) : num :=
  match o with Some v => v | None => kept end.

(** [{ ...state.config, ...partial }] *)
Definition setConfig (partial : PartialConfig) (s : Store) : Store :=
  let c := config s in
  withConfig
    (mkConfig (orKeep (dragSensitivity' partial) (dragSensitivity c))
              (orKeep (damping' partial) (damping c))
              (orKeep (minZoom' partial) (minZoom c))
              (orKeep (maxZoom' partial) (maxZoom c))
              (orKeep (minElevationDeg' partial) (minElevationDeg c))
              (orKeep (maxElevationDeg' partial) (maxElevationDeg c)))
    s.

Definition setZoomTarget (z : num) (s : Store) : Store :=
  withTargetZoom (clamp z (minZoom (config s)) (maxZoom (config s))) s.

Definition applyWheelZoom (deltaY : num) (s : Store) : Store :=
  let zoomDelta := (deltaY * WHEEL_ZOOM_SENSITIVITY)%js in
  let newTargetZoom := (targetZoom s + zoomDelta)%js in
  setZoomTarget newTargetZoom s.

Definition applyPinchZoom (scale : num) (s : Store) : Store :=
  let newTargetZoom := (targetZoom s * scale)%js in
  setZoomTarget newTargetZoom s.

Definition commitZoom (dtMs : num) (s : Store) : Store :=
  let newZoom := easeExp (zoom s) (targetZoom s) ZOOM_EASE_LAMBDA dtMs in
  withZoom newZoom s.

Definition setKeyboardFocus (focused : bool) (s : Store) : Store :=
  withKeyboardFocus focused s.

Definition reset (s : Store) : Store := initialState.

(** every call of the store's interface *)
Inductive Call : Type :=
| Orbit (a : Action)
| SetConfig (partial : PartialConfig)
| SetZoomTarget (z : num)
| ApplyWheelZoom (deltaY : num)
| ApplyPinchZoom (scale : num)
| CommitZoom (dtMs : num)
| SetKeyboardFocus (focused : bool)
| Reset.

Definition perform (c : Call) (s : Store) : option Store :=
  match c with
  | Orbit a => dispatch a s
  | SetConfig partial => Some (setConfig partial s)
  | SetZoomTarget z => Some (setZoomTarget z s)
  | ApplyWheelZoom deltaY => Some (applyWheelZoom deltaY s)
  | ApplyPinchZoom scale => Some (applyPinchZoom scale s)
  | CommitZoom dtMs => Some (commitZoom dtMs s)
  | SetKeyboardFocus focused => Some (setKeyboardFocus focused s)
  | Reset => Some (reset s)
  end.

Fixpoint performAll (calls : list Call) (s : Store) : option Store :=
  match calls with
  | [] => Some s
  | c :: rest =>
      match perform c s with
      | Some s' => performAll rest s'
      | None => None
      end
  end.

(** the zoom clamp: [zoom] and [targetZoom] finite and within the limits of
    the configuration *)
Definition zoomClamped (s : Store) : Prop :=
  exists lo hi z t : R,
    minZoom (config s) = Fin lo /\ maxZoom (config s) = Fin hi /\
    zoom s = Fin z /\ targetZoom s = Fin t /\
    lo <= z <= hi /\ lo <= t <= hi.

(** the calls that only concern the zoom *)
Definition isZoomCall (c : Call) : bool :=
  match c with
  | SetZoomTarget _ | ApplyWheelZoom _ | ApplyPinchZoom _ | CommitZoom _ => true
  | _ => false
  end.

(** a call with finite arguments that leaves the configuration alone; a
    frame of [commitZoom] moreover has a length that is not negative *)
Definition finiteCall (c : Call) : Prop :=
  match c with
  | Orbit a => finiteAction a
  | SetConfig _ => False
  | SetZoomTarget z => exists r : R, z = Fin r
  | ApplyWheelZoom deltaY => exists r : R, deltaY = Fin r
  | ApplyPinchZoom scale => exists r : R, scale = Fin r
  | CommitZoom dtMs => exists r : R, dtMs = Fin r /\ 0 <= r
  | SetKeyboardFocus _ | Reset => True
  end.

(** [target.theta] is NaN or an angle within [-PI, PI] *)
Definition azimuthWrapped (s : Store) : Prop :=
  theta (target s) = NaN \/
  exists r : R, theta (target s) = Fin r /\ - PI <= r <= PI.

(** [targetZoom] is finite and within the zoom limits of the configuration *)
Definition zoomTargetClamped (s : Store) : Prop :=
  exists lo hi t : R,
    minZoom (config s) = Fin lo /\ maxZoom (config s) = Fin hi /\
    targetZoom s = Fin t /\ lo <= t <= hi.

(** a call that leaves the configuration alone and, where it sets the zoom
    target, does so from a finite argument *)
Definition keepsZoomLimits (c : Call) : Prop :=
  match c with
  | SetConfig _ => False
  | SetZoomTarget z => exists r : R, z = Fin r
  | ApplyWheelZoom deltaY => exists r : R, deltaY = Fin r
  | ApplyPinchZoom scale => exists r : R, scale = Fin r
  | _ => True
  end.

(** a call that runs no [wrapTheta] loop *)
Definition isOrbitCall (c : Call) : bool :=
  match c with
  | Orbit _ => true
  | _ => false
  end.

End InteractionStore.

(** ** Starfield.tsx *)

Module Starfield.

(** [THREE.Vector3] *)
Record Vector3 : Type := mkVector3 { x : num; y : num; z : num }.

(** the closure returned by [createSeededRandom] is its captured [state];
    calling it yields a value and the advanced closure *)
Definition Random : Type := num.

Definition createSeededRandom (seed : num) : Random :=
  let state := (seed %% 2147483647)%js in
  if (state <=? 0)%js then (state + 2147483646)%js else state.

Definition call (random : Random) : num * Random :=
  let state := (random * 16807 %% 2147483647)%js in
  ((state - 1) / 2147483646, state)%js.

(** the [do ... while (w >= 1.0)] loop of Marsaglia's method; it answers the
    accepted [x1], [x2], [w] and the advanced generator *)
Fixpoint marsaglia (fuel : nat) (random : Random)
  : option (num * num * num * Random) :=
  match fuel with
  | O => None
  | S fuel' =>
      let (u1, random1) := call random in
      let x1 := (2.0 * u1 - 1.0)%js in
      let (u2, random2) := call random1 in
      let x2 := (2.0 * u2 - 1.0)%js in
      let w := (x1 * x1 + x2 * x2)%js in
      if (w >=? 1.0)%js then marsaglia fuel' random2
      else Some (x1, x2, w, random2)
  end.

(** the [for (let i = 0; i < count; i++)] loop from index [i] on *)
Fixpoint starLoop (fuel : nat) (i count radius : num) (random : Random)
    (positions : list Vector3) : option (list Vector3 * Random) :=
  match fuel with
  | O => None
  | S fuel' =>
      if (i <? count)%js then
        match marsaglia fuel' random with
        | None => None
        | Some (x1, x2, w, random2) =>
            let sqrtW := sqrt (-2.0 * log w / w)%js in
            let y := (x1 * sqrtW)%js in
            let z := (x2 * sqrtW)%js in
            let (u3, random3) := call random2 in
            let x := (2.0 * u3 - 1.0)%js in
            let length := sqrt (x * x + y * y + z * z)%js in
            let (u4, random4) := call random3 in
            let r := (radius * cbrt u4)%js in
            starLoop fuel' (i + 1)%js count radius random4
              (positions ++
               [mkVector3 (x / length * r) (y / length * r) (z / length * r)])%js
        end
      else Some (positions, random)
  end.

Definition generateStarPositions (fuel : nat) (count radius : num)
    (random : Random) : option (list Vector3 * Random) :=
  starLoop fuel 0 count radius random [].

(** the [useMemo] body of the component: a fresh generator, then the
    positions *)
Definition starPositions (fuel : nat) (particles radius seed : num)
  : option (list Vector3) :=
  let random := createSeededRandom seed in
  option_map fst (generateStarPositions fuel particles radius random).

End Starfield.

(** ** Starfield.tsx, with the generators as objects

    The closure [createSeededRandom] returns owns a variable [state] that
    every call updates.  Here the variables live in a heap, a generator is
    the index of its variable, and the functions of the component act on the
    heap as the code does: [createSeededRandom] allocates a variable, a call
    of the generator reads and writes it. *)

Module StarfieldHeap.
Import Starfield.

Definition Heap : Type := list num.
Definition Generator : Type := nat.

(** [state = v] in the closure [g] *)
Fixpoint assign (g : Generator) (v : num) (h : Heap) : Heap :=
  match h, g with
  | [], _ => []
  | _ :: rest, O => v :: rest
  | w :: rest, S g' => w :: assign g' v rest
  end.

Definition createSeededRandom (seed : num) (h : Heap) : Generator * Heap :=
  let state := (seed %% 2147483647)%js in
  let state := if (state <=? 0)%js then (state + 2147483646)%js else state in
  (List.length h, h ++ [state]).

(** [random()]: [None] when [random] is no generator of the heap *)
Definition call (random : Generator) (h : Heap) : option (num * Heap) :=
  match nth_error h random with
  | Some state0 =>
      let state := (state0 * 16807 %% 2147483647)%js in
      Some ((state - 1) / 2147483646, assign random state h)%js
  | None => None
  end.

Fixpoint marsaglia (fuel : nat) (random : Generator) (h : Heap)
  : option (num * num * num * Heap) :=
  match fuel with
  | O => None
  | S fuel' =>
      match call random h with
      | None => None
      | Some (u1, h1) =>
          let x1 := (2.0 * u1 - 1.0)%js in
          match call random h1 with
          | None => None
          | Some (u2, h2) =>
              let x2 := (2.0 * u2 - 1.0)%js in
              let w := (x1 * x1 + x2 * x2)%js in
              if (w >=? 1.0)%js then marsaglia fuel' random h2
              else Some (x1, x2, w, h2)
          end
      end
  end.

Fixpoint starLoop (fuel : nat) (i count radius : num) (random : Generator)
    (positions : list Vector3) (h : Heap) : option (list Vector3 * Heap) :=
  match fuel with
  | O => None
  | S fuel' =>
      if (i <? count)%js then
        match marsaglia fuel' random h with
        | None => None
        | Some (x1, x2, w, h2) =>
            let sqrtW := sqrt (-2.0 * log w / w)%js in
            let y := (x1 * sqrtW)%js in
            let z := (x2 * sqrtW)%js in
            match call random h2 with
            | None => None
            | Some (u3, h3) =>
                let x := (2.0 * u3 - 1.0)%js in
                let length := sqrt (x * x + y * y + z * z)%js in
                match call random h3 with
                | None => None
                | Some (u4, h4) =>
                    let r := (radius * cbrt u4)%js in
                    starLoop fuel' (i + 1)%js count radius random
                      (positions ++
                       [mkVector3 (x / length * r) (y / length * r)
                                  (z / length * r)])%js
                      h4
                end
            end
        end
      else Some (positions, h)
  end.

Definition generateStarPositions (fuel : nat) (count radius : num)
    (random : Generator) (h : Heap) : option (list Vector3 * Heap) :=
  starLoop fuel 0 count radius random [] h.

(** the [useMemo] body of the component, run in the heap [h]: a fresh
    generator, then the positions *)
Definition starPositions (fuel : nat) (particles radius seed : num) (h : Heap)
  : option (list Vector3 * Heap) :=
  let (random, h1) := createSeededRandom seed h in
  generateStarPositions fuel particles radius random h1.

End StarfieldHeap.

(** ** state/heroStore.ts *)

Module HeroStore.
Import QualityTiers.

Record HeroState : Type := mkHeroState {
  isLoaded : bool;
  isWebGLAvailable : bool;
  webglVersion : DeviceCapsCommon.WebGLVersion;
  isMobile : bool;
  dpr : num;
  clampedDpr : num;
  fps : num;
  tier : QualityTier;
  config : QualityConfig;
  error : string
}.

Definition initialState : HeroState :=
  mkHeroState false false DeviceCapsCommon.V0 false 1 1 0 LOW
              (getQualityConfig LOW) "".

(** [x ?? ''] *)
Definition orEmpty (x : option string) : string :=
  match x with Some s => s | None => EmptyString end.

Definition setCaps (caps : DeviceCapsCommon.DeviceCaps) (st : HeroState)
  : HeroState :=
  mkHeroState (isLoaded st)
    (DeviceCapsCommon.isWebGLAvailable caps)
    (DeviceCapsCommon.webglVersion caps)
    (DeviceCapsCommon.isMobile caps)
    (DeviceCapsCommon.dpr caps)
    (DeviceCapsCommon.clampedDpr caps)
    (fps st)
    (DeviceCapsCommon.tier caps)
    (DeviceCapsCommon.config caps)
    (orEmpty (DeviceCapsCommon.reason caps)).

Definition setTier (t : QualityTier) (st : HeroState) : HeroState :=
  mkHeroState (isLoaded st) (isWebGLAvailable st) (webglVersion st)
    (isMobile st) (dpr st) (clampedDpr st) (fps st)
    t (getQualityConfig t) (error st).

Definition setFps (f : num) (st : HeroState) : HeroState :=
  mkHeroState (isLoaded st) (isWebGLAvailable st) (webglVersion st)
    (isMobile st) (dpr st) (clampedDpr st) f
    (tier st) (config st) (error st).

Definition setLoaded (loaded : bool) (st : HeroState) : HeroState :=
  mkHeroState loaded (isWebGLAvailable st) (webglVersion st)
    (isMobile st) (dpr st) (clampedDpr st) (fps st)
    (tier st) (config st) (error st).

Definition setError (e : option string) (st : HeroState) : HeroState :=
  mkHeroState (isLoaded st) (isWebGLAvailable st) (webglVersion st)
    (isMobile st) (dpr st) (clampedDpr st) (fps st)
    (tier st) (config st) (orEmpty e).

Definition reset (st : HeroState) : HeroState := initialState.

Inductive HeroAction : Type :=
| SetCaps (caps : DeviceCapsCommon.DeviceCaps)
| SetTier (t : QualityTier)
| SetFps (f : num)
| SetLoaded (loaded : bool)
| SetError (e : option string)
| Reset.

Definition apply (a : HeroAction) (st : HeroState) : HeroState :=
  match a with
  | SetCaps caps => setCaps caps st
  | SetTier t => setTier t st
  | SetFps f => setFps f st
  | SetLoaded loaded => setLoaded loaded st
  | SetError e => setError e st
  | Reset => reset st
  end.

Definition applyAll (actions : list HeroAction) (st : HeroState) : HeroState :=
  fold_left (fun acc a => apply a acc) actions st.

End HeroStore.

(** ** HeroCanvas.tsx: capability detection on mount, context loss and
    restore *)

Module HeroCanvas.
Import Host HeroStore.

Section Initialize.

(** the [evaluateDeviceCaps] the component imports *)
Variable evaluateDeviceCaps : Env -> Completion DeviceCapsCommon.DeviceCaps.

Definition initializeCapabilities (env : Env) (st : HeroState) : HeroState :=
  match evaluateDeviceCaps env with
  | Returns caps =>
      let st1 := setCaps caps st in
      if negb (DeviceCapsCommon.isWebGLAvailable caps) then
        setError (Some "WebGL unavailable"%string) st1
      else setLoaded true st1
  | Rejects e =>
      let message :=
        match e with
        | ErrorObject m => m
        | OtherValue => "Unknown initialization error"%string
        end in
      setError (Some ("Initialization failed: " ++ message)%string) st
  end.

End Initialize.

Definition handleContextLost (st : HeroState) : HeroState :=
  setError (Some "WebGL context lost"%string) st.

Definition handleContextRestore (st : HeroState) : HeroState :=
  setLoaded true (setError None st).

End HeroCanvas.

(** ** utils/interactions.ts *)

Module Interactions.

Inductive PointerKind : Type := mouse | touch | pen | unknown.

Record Point : Type := mkPoint { x : num; y : num }.

(** an entry of [touches] or [changedTouches] *)
Record Touch : Type := mkTouch { clientX : num; clientY : num }.

(** the properties of an event object that the helpers read; a property is
    [None] when it is absent or has not the type the helper tests for *)
Record EventObject : Type := mkEvent {
  e_pointerType : option string;
  e_type : option string;
  e_clientX : option num;
  e_clientY : option num;
  e_touches : option (list Touch);
  e_changedTouches : option (list Touch);
  e_buttons : option num;
  e_isPrimary : option bool;
  e_timeStamp : option num
}.

Record NormalizedPointer : Type := mkPointer {
  pos : Point;
  delta : Point;
  buttons : num;
  kind : PointerKind;
  isPrimary : bool;
  ts : num
}.

Inductive WheelMode : Type := pixel | line | page.

Record NormalizedWheel : Type := mkWheel {
  deltaPxY : num;
  mode : WheelMode;
  zoomDelta : num
}.

Record PinchMetrics : Type := mkPinch {
  scale : num;
  deltaScale : num;
  center : Point
}.

Definition LINE_HEIGHT_PX : num := 16.
Definition PAGE_HEIGHT_PX : num := 800.
Definition ZOOM_SENSITIVITY : num := 120.

Definition clamp (v lo hi : num) : num := min (max v lo) hi.

(** [input] is [None] when it is falsy or not an object *)
Definition getPointerKind (input : option EventObject) : PointerKind :=
  match input with
  | None => unknown
  | Some event =>
      match e_pointerType event with
      | Some pointerType =>
          let lowered := DeviceCapsCommon.toLowerCase pointerType in
          if String.eqb lowered "mouse" then mouse
          else if String.eqb lowered "touch" then touch
          else if String.eqb lowered "pen" then pen
          else unknown
      | None =>
          match e_type event with
          | Some type =>
              if String.prefix "mouse" type then mouse
              else if String.prefix "touch" type then touch
              else unknown
          | None => unknown
          end
      end
  end.

Definition getClientXY (event : EventObject) : option Point :=
  match e_clientX event, e_clientY event with
  | Some cx, Some cy => Some (mkPoint cx cy)
  | _, _ =>
      let touches :=
        match e_touches event with
        | Some list => Some list
        | None => e_changedTouches event
        end in
      match touches with
      | Some (first :: _) => Some (mkPoint (clientX first) (clientY first))
      | _ => None
      end
  end.

Definition normalizePointer (e : EventObject) (prev : option Point)
  : option NormalizedPointer :=
  match getClientXY e with
  | None => None
  | Some pos =>
      let delta :=
        match prev with
        | Some p => mkPoint (x pos - x p)%js (y pos - y p)%js
        | None => mkPoint 0 0
        end in
      Some (mkPointer pos delta
              (match e_buttons e with Some b => b | None => Fin 0 end)
              (getPointerKind (Some e))
              (match e_isPrimary e with Some b => b | None => true end)
              (match e_timeStamp e with Some t => t | None => Fin 0 end))
  end.

Record WheelObject : Type := mkWheelObject {
  w_deltaY : option num;
  w_deltaMode : option num
}.

Definition normalizeWheel (e : WheelObject) : NormalizedWheel :=
  let deltaY := match w_deltaY e with Some d => d | None => Fin 0 end in
  let deltaMode := match w_deltaMode e with Some m => m | None => Fin 0 end in
  let (deltaPxY, mode) :=
    if strictEq deltaMode 1 then ((deltaY * LINE_HEIGHT_PX)%js, line)
    else if strictEq deltaMode 2 then ((deltaY * PAGE_HEIGHT_PX)%js, page)
    else (deltaY, pixel) in
  let zoomDelta := clamp (- deltaPxY / ZOOM_SENSITIVITY)%js (-1) 1 in
  mkWheel deltaPxY mode zoomDelta.

(** [prev] is the [distance] of the previous gesture state, if any; the
    answer carries the metrics and the [distance] for the next call *)
Definition computePinch (touches : list Touch) (prev : option num)
  : option (PinchMetrics * num) :=
  match touches with
  | touch1 :: touch2 :: _ =>
      let dx := (clientX touch2 - clientX touch1)%js in
      let dy := (clientY touch2 - clientY touch1)%js in
      let distance := sqrt (dx * dx + dy * dy)%js in
      let prevDistance := match prev with Some d => d | None => distance end in
      let scale := (distance / prevDistance)%js in
      let deltaScale :=
        (scale - match prev with Some _ => 1 | None => 0 end)%js in
      let center :=
        mkPoint ((clientX touch1 + clientX touch2) / 2)%js
                ((clientY touch1 + clientY touch2) / 2)%js in
      Some (mkPinch scale deltaScale center, distance)
  | _ => None
  end.

Definition shouldPreventDefaultForGesture (kind : PointerKind)
    (isPinching : bool) : bool :=
  match kind with touch => isPinching | _ => false end.

End Interactions.

(** ** hooks/useCamera.ts *)

Module UseCamera.

Record Vec3 : Type := mkVec3 { vx : num; vy : num; vz : num }.

Record UseCameraOptions : Type := mkOptions {
  target : Vec3;
  baseRadius : num;
  angularEase : num
}.

Definition defaultOptions : UseCameraOptions :=
  mkOptions (mkVec3 0 0 0) 10 12.

(** what the hook selects from the interaction store *)
Record StoreData : Type := mkStoreData {
  targetTheta : num;
  targetPhi : num;
  zoom : num
}.

Definition selectStoreData (s : InteractionStore.Store) : StoreData :=
  mkStoreData (InteractionStore.theta (InteractionStore.target s))
              (InteractionStore.phi (InteractionStore.target s))
              (InteractionStore.zoom s).

(** the camera as the hook writes it: [position.set] and [lookAt] *)
Record PerspectiveCamera : Type := mkCamera {
  position : Vec3;
  lookingAt : Vec3
}.

(** the hook's refs *)
Record Refs : Type := mkRefs {
  cameraRef : option PerspectiveCamera;
  smoothTheta : num;
  smoothPhi : num
}.

Definition initialRefs : Refs := mkRefs None 0 0.

Definition bind (storeData : StoreData) (cam : option PerspectiveCamera)
    (refs : Refs) : Refs :=
  match cam with
  | Some _ => mkRefs cam (targetTheta storeData) (targetPhi storeData)
  | None => mkRefs None (smoothTheta refs) (smoothPhi refs)
  end.

Definition getRadius (opts : UseCameraOptions) (storeData : StoreData) : num :=
  (baseRadius opts / Physics.clamp (zoom storeData) 2 10)%js.

Definition onFrame (opts : UseCameraOptions) (storeData : StoreData)
    (dtMs : num) (refs : Refs) : Refs :=
  match cameraRef refs with
  | None => refs
  | Some camera =>
      let theta :=
        Physics.easeExp (smoothTheta refs) (targetTheta storeData)
                        (angularEase opts) dtMs in
      let phi :=
        Physics.easeExp (smoothPhi refs) (targetPhi storeData)
                        (angularEase opts) dtMs in
      let radius := getRadius opts storeData in
      let px := (vx (target opts) + radius * Math_cos phi * Math_cos theta)%js in
      let py := (vy (target opts) + radius * Math_sin phi)%js in
      let pz := (vz (target opts) + radius * Math_cos phi * Math_sin theta)%js in
      mkRefs (Some (mkCamera (mkVec3 px py pz) (target opts))) theta phi
  end.

Definition getSpherical (refs : Refs) : num * num :=
  (smoothTheta refs, smoothPhi refs).

End UseCamera.

(** ** hooks/useInertia.ts

    [requestAnimationFrame] hands out handles from a counter; the loop keeps
    the handle of the frame it has requested. *)

Module UseInertia.

Record Loop : Type := mkLoop {
  rafId : option nat;
  lastTs : num;
  isRunning : bool;
  nextHandle : nat
}.

Definition initialLoop : Loop := mkLoop None 0 false 0.

(** [rafIdRef.current = requestAnimationFrame(tick)] *)
Definition request (l : Loop) : Loop :=
  mkLoop (Some (nextHandle l)) (lastTs l) (isRunning l) (S (nextHandle l)).

(** [const dtMs = Math.min(now - lastTs, maxDtMs)] *)
Definition frameDt (maxDtMs now last : num) : num := min (now - last)%js maxDtMs.

(** the frame callback: the loop and the interaction store after it *)
Definition tick (maxDtMs now : num) (l : Loop) (s : InteractionStore.Store)
  : option (Loop * InteractionStore.Store) :=
  if strictEq (lastTs l) 0 then
    Some (request (mkLoop (rafId l) now (isRunning l) (nextHandle l)), s)
  else
    let dtMs := frameDt maxDtMs now (lastTs l) in
    match InteractionStore.tickInertia dtMs s with
    | None => None
    | Some s1 =>
        let s2 := InteractionStore.commitZoom dtMs s1 in
        Some (request (mkLoop (rafId l) now (isRunning l) (nextHandle l)), s2)
    end.

(** [hasRaf]: [window] exists and has [requestAnimationFrame] *)
Definition start (hasRaf : bool) (l : Loop) : Loop :=
  if negb hasRaf then l
  else
    match rafId l with
    | Some _ => l
    | None => request (mkLoop None 0 true (nextHandle l))
    end.

Definition stop (l : Loop) : Loop :=
  mkLoop None (lastTs l) false (nextHandle l).

End UseInertia.

(** ** metrics/FpsMonitor.tsx: the frame callback of [useFpsMonitor] *)

Module FpsMonitor.

Record Refs : Type := mkRefs {
  rafId : option nat;
  lastTime : num;
  emaFps : num;
  lastReport : num;
  nextHandle : nat
}.

Definition initialRefs : Refs := mkRefs None 0 60 0 0.

(** the refs after the frame's bookkeeping, with the next frame requested *)
Definition rescheduled (time ema report : num) (refs : Refs) : Refs :=
  mkRefs (Some (nextHandle refs)) time ema report (S (nextHandle refs)).

(** the frame callback; [onChange] is the caller's and is left out *)
Definition tick (smoothing reportIntervalMs currentTime : num)
    (refs : Refs) (store : HeroStore.HeroState)
  : Refs * HeroStore.HeroState :=
  let alpha := (1 - smoothing)%js in
  if strictEq (lastTime refs) 0 then
    (rescheduled currentTime (emaFps refs) (lastReport refs) refs, store)
  else
    let delta := (currentTime - lastTime refs)%js in
    let ema :=
      if (delta >? 0)%js then
        let instantFps := (1000 / delta)%js in
        (alpha * instantFps + (1 - alpha) * emaFps refs)%js
      else emaFps refs in
    if (currentTime - lastReport refs >=? reportIntervalMs)%js then
      let roundedFps := round ema in
      (rescheduled currentTime ema currentTime refs,
       HeroStore.setFps roundedFps store)
    else
      (rescheduled currentTime ema (lastReport refs) refs, store).

End FpsMonitor.


(** ** The arithmetic in binary64

    The functions whose properties turn on rounding, overflow or absorption,
    once more over the numbers the code computes with: a [number] here is a
    primitive binary64 float, with the IEEE 754 operations ECMAScript
    prescribes for [+], [-], [*], [/] and the comparisons. *)

Module Binary64.
Import PrimFloat.
Local Open Scope float_scope.
Set Warnings "-inexact-float".

(** [Math.PI] *)
Definition Math_PI : float := 3.141592653589793.

Definition isNegativeZero (x : float) : bool :=
  match classify x with
  | FloatClass.NZero => true
  | _ => false
  end.

(** [Math.max], [Math.min]: NaN when an argument is NaN; [+0] counts as
    larger than [-0] *)
Definition Math_max (a b : float) : float :=
  if is_nan a || is_nan b then nan
  else if a <? b then b
  else if b <? a then a
  else if isNegativeZero a then b else a.

Definition Math_min (a b : float) : float :=
  if is_nan a || is_nan b then nan
  else if b <? a then b
  else if a <? b then a
  else if isNegativeZero b then b else a.

(** [Math.pow(base, exponent)]: the first three steps of
    Number::exponentiate; [approx] is the engine's answer in the remaining
    cases (infinite or zero operands and the implementation-approximated
    power) *)
Definition Math_pow (approx : float -> float -> float)
    (base exponent : float) : float :=
  if is_nan exponent then nan
  else if is_zero exponent then 1
  else if is_nan base then nan
  else approx base exponent.

(** [while (cond(w)) w = body(w)]: [None] when the iterations allowed run
    out before the condition turns false *)
Fixpoint while (fuel : nat) (cond : float -> bool) (body : float -> float)
    (w : float) : option float :=
  match fuel with
  | O => None
  | S fuel' => if cond w then while fuel' cond body (body w) else Some w
  end.

(** *** utils/physics.ts *)

Definition clamp (v lo hi : float) : float := Math_min (Math_max v lo) hi.

Definition degToRad (deg : float) : float := deg * Math_PI / 180.

Definition physics_wrapTheta (fuel : nat) (theta : float) : option float :=
  match while fuel (fun w => Math_PI <? w) (fun w => w - 2 * Math_PI) theta with
  | Some wrapped =>
      while fuel (fun w => w <=? - Math_PI) (fun w => w + 2 * Math_PI) wrapped
  | None => None
  end.

(** *** the interaction store of state/heroStore.ts *)

Definition wrapTheta (fuel : nat) (theta : float) : option float :=
  match while fuel (fun w => Math_PI <? w) (fun w => w - 2 * Math_PI) theta with
  | Some wrapped =>
      while fuel (fun w => w <? - Math_PI) (fun w => w + 2 * Math_PI) wrapped
  | None => None
  end.

Record CameraSpherical : Type := mkSpherical { theta : float; phi : float }.

Record InteractionConfig : Type := mkConfig {
  dragSensitivity : float;
  damping : float;
  minZoom : float;
  maxZoom : float;
  minElevationDeg : float;
  maxElevationDeg : float
}.

Record Store : Type := mkStore {
  state : InteractionStore.InteractionState;
  current : CameraSpherical;
  target : CameraSpherical;
  zoom : float;
  targetZoom : float;
  velocity : CameraSpherical;
  lastTs : option float;
  isPointerCaptured : bool;
  isKeyboardFocused : bool;
  config : InteractionConfig
}.

Definition DEFAULT_CONFIG : InteractionConfig :=
  mkConfig 0.5 0.95 2 10 (-60) 60.

Definition DRAG_SENSITIVITY_TO_RAD_PER_PX : float := 0.005.
Definition VELOCITY_EPSILON : float := 1e-4.

Definition initialState : Store :=
  mkStore InteractionStore.IDLE (mkSpherical 0 0) (mkSpherical 0 0) 4 4
          (mkSpherical 0 0) None false false DEFAULT_CONFIG.

Definition isNearZero (v : CameraSpherical) : bool :=
  (abs (theta v) <? VELOCITY_EPSILON) && (abs (phi v) <? VELOCITY_EPSILON).

(** [const dtSec = Math.max(dtMs / 1000, 1e-6)] in [updateDrag] *)
Definition dragDtSec (dtMs : float) : float := Math_max (dtMs / 1000) 1e-6.

Definition updateDrag (fuel : nat) (dxPx dyPx dtMs : float) (s : Store)
  : option Store :=
  let minPhi := degToRad (minElevationDeg (config s)) in
  let maxPhi := degToRad (maxElevationDeg (config s)) in
  let radPerPx := dragSensitivity (config s) * DRAG_SENSITIVITY_TO_RAD_PER_PX in
  let dTheta := - dxPx * radPerPx in
  let dPhi := dyPx * radPerPx in
  match wrapTheta fuel (theta (target s) + dTheta) with
  | None => None
  | Some newTheta =>
      let newTarget :=
        mkSpherical newTheta (clamp (phi (target s) + dPhi) minPhi maxPhi) in
      let dtSec := dragDtSec dtMs in
      let newVelocity := mkSpherical (dTheta / dtSec) (dPhi / dtSec) in
      Some (mkStore (state s) (current s) newTarget (zoom s) (targetZoom s)
              newVelocity (lastTs s) (isPointerCaptured s)
              (isKeyboardFocused s) (config s))
  end.

(** a camera coasting at azimuthal velocity [vTheta] toward [target], under
    the default configuration with damping constant [d] *)
Definition coasting (d vTheta : float) (target : CameraSpherical) : Store :=
  mkStore InteractionStore.INERTIA (mkSpherical 0 0) target 4 4
          (mkSpherical vTheta 0) None false false
          (mkConfig 0.5 d 2 10 (-60) 60).

Section Inertia.

(** the engine's [Math.pow] beyond the cases ECMAScript fixes *)
Variable approx : float -> float -> float.

Definition tickInertia (fuel : nat) (dtMs : float) (s : Store) : option Store :=
  match state s with
  | InteractionStore.INERTIA =>
      let minPhi := degToRad (minElevationDeg (config s)) in
      let maxPhi := degToRad (maxElevationDeg (config s)) in
      let dtSec := dtMs / 1000 in
      let dampingFactor := Math_pow approx (damping (config s)) (dtMs / 16.67) in
      let newVelocity :=
        mkSpherical (theta (velocity s) * dampingFactor)
                    (phi (velocity s) * dampingFactor) in
      match wrapTheta fuel (theta (target s) + theta newVelocity * dtSec) with
      | None => None
      | Some newTheta =>
          let newTarget :=
            mkSpherical newTheta
              (clamp (phi (target s) + phi newVelocity * dtSec) minPhi maxPhi) in
          if isNearZero newVelocity then
            Some (mkStore InteractionStore.IDLE (current s) newTarget (zoom s)
                    (targetZoom s) (mkSpherical 0 0) (lastTs s)
                    (isPointerCaptured s) (isKeyboardFocused s) (config s))
          else
            Some (mkStore (state s) (current s) newTarget (zoom s)
                    (targetZoom s) newVelocity (lastTs s)
                    (isPointerCaptured s) (isKeyboardFocused s) (config s))
      end
  | _ => Some s
  end.

(** [n] successive frames of [tickInertia(dtMs)] *)
Fixpoint ticks (fuel n : nat) (dtMs : float) (s : Store) : option Store :=
  match n with
  | O => Some s
  | S n' =>
      match tickInertia fuel dtMs s with
      | Some s' => ticks fuel n' dtMs s'
      | None => None
      end
  end.

End Inertia.

End Binary64.

(** * Properties *)

(** ** Comparisons of finite numbers *)

Section FiniteOrder.

Variables a b : R.

Lemma Rltb_true : Rltb a b = true <-> a < b.
Proof. unfold Rltb; destruct (Rlt_dec a b); split; intros; try lra; discriminate. Qed.

Lemma Rltb_false : Rltb a b = false <-> b <= a.
Proof. unfold Rltb; destruct (Rlt_dec a b); split; intros; try lra; discriminate. Qed.

Lemma Rleb_true : Rleb a b = true <-> a <= b.
Proof. unfold Rleb; destruct (Rle_dec a b); split; intros; try lra; discriminate. Qed.

Lemma Rleb_false : Rleb a b = false <-> b < a.
Proof. unfold Rleb; destruct (Rle_dec a b); split; intros; try lra; discriminate. Qed.

End FiniteOrder.

Lemma ge_Fin_true (a b : R) : (Fin a >=? Fin b)%js = true <-> b <= a.
Proof. apply Rleb_true. Qed.

Lemma ge_Fin_false (a b : R) : (Fin a >=? Fin b)%js = false <-> a < b.
Proof. apply Rleb_false. Qed.

Lemma gt_Fin_true (a b : R) : (Fin a >? Fin b)%js = true <-> b < a.
Proof. apply Rltb_true. Qed.

Lemma gt_Fin_false (a b : R) : (Fin a >? Fin b)%js = false <-> a <= b.
Proof. apply Rltb_false. Qed.

Lemma lt_Fin_true (a b : R) : (Fin a <? Fin b)%js = true <-> a < b.
Proof. apply Rltb_true. Qed.

Lemma lt_Fin_false (a b : R) : (Fin a <? Fin b)%js = false <-> b <= a.
Proof. apply Rltb_false. Qed.

Lemma le_Fin_true (a b : R) : (Fin a <=? Fin b)%js = true <-> a <= b.
Proof. apply Rleb_true. Qed.

Lemma le_Fin_false (a b : R) : (Fin a <=? Fin b)%js = false <-> b < a.
Proof. apply Rleb_false. Qed.

(** decide the comparisons of reals a goal branches on, keeping the facts *)
Ltac split_cmp :=
  repeat match goal with
  | |- context [Rlt_dec ?u ?v] => destruct (Rlt_dec u v)
  | |- context [Rle_dec ?u ?v] => destruct (Rle_dec u v)
  | |- context [Req_dec_T ?u ?v] => destruct (Req_dec_T u v)
  end.

Ltac js_unfold :=
  cbv beta iota delta [Math_PI ge gt lt le max min abs add sub mul neg
                       Rltb Rleb Reqb].

(** ** Tier decision *)

Section TierDecision.
Import QualityTiers.

Variable fps : R.

Lemma decideTier_mobile :
  (DeviceCaps.decideTier fps true = MEDIUM <-> 35 <= fps) /\
  (DeviceCaps.decideTier fps true = LOW <-> fps < 35).
Proof.
  unfold DeviceCaps.decideTier; js_unfold; split_cmp;
    (split; split; intros; try lra; try discriminate; reflexivity).
Qed.

Lemma decideTier_rev_mobile :
  (DeviceCapsRev.decideTier fps true = MEDIUM <-> 50 <= fps) /\
  (DeviceCapsRev.decideTier fps true = LOW <-> fps < 50).
Proof.
  unfold DeviceCapsRev.decideTier; js_unfold; split_cmp;
    (split; split; intros; try lra; try discriminate; reflexivity).
Qed.

Lemma decideTier_desktop :
  (DeviceCaps.decideTier fps false = HIGH <-> 55 <= fps) /\
  (DeviceCaps.decideTier fps false = MEDIUM <-> 40 <= fps < 55) /\
  (DeviceCaps.decideTier fps false = LOW <-> fps < 40).
Proof.
  unfold DeviceCaps.decideTier; js_unfold; split_cmp;
    (repeat split; intros; try lra; try discriminate).
Qed.

Lemma decideTier_rev_desktop :
  (DeviceCapsRev.decideTier fps false = HIGH <-> 55 <= fps) /\
  (DeviceCapsRev.decideTier fps false = MEDIUM <-> 40 <= fps < 55) /\
  (DeviceCapsRev.decideTier fps false = LOW <-> fps < 40).
Proof.
  unfold DeviceCapsRev.decideTier; js_unfold; split_cmp;
    (repeat split; intros; try lra; try discriminate).
Qed.

End TierDecision.

(** on a mobile device no number at all, NaN and the infinities included,
    is given the HIGH tier *)
Lemma decideTier_mobile_never_high (fps : num) :
  DeviceCaps.decideTier fps true <> QualityTiers.HIGH /\
  DeviceCapsRev.decideTier fps true <> QualityTiers.HIGH.
Proof.
  unfold DeviceCaps.decideTier, DeviceCapsRev.decideTier.
  destruct (fps >=? 50)%js, (fps >=? 35)%js; split; discriminate.
Qed.

(** C1, as amended.  With [isMobile = true] neither revision of [decideTier]
    ever answers HIGH.  The revision that caps the benchmark answers MEDIUM
    exactly when [fps >= 50] and LOW exactly when [fps < 50]; the revision
    under [utils/deviceCaps.ts] splits MEDIUM from LOW at 35 instead: MEDIUM
    exactly when [fps >= 35], LOW exactly when [fps < 35]. *)
Theorem C1_mobile_tier_policy (fps : R) :
  DeviceCaps.decideTier fps true <> QualityTiers.HIGH /\
  (DeviceCaps.decideTier fps true = QualityTiers.MEDIUM <-> 35 <= fps) /\
  (DeviceCaps.decideTier fps true = QualityTiers.LOW <-> fps < 35) /\
  DeviceCapsRev.decideTier fps true <> QualityTiers.HIGH /\
  (DeviceCapsRev.decideTier fps true = QualityTiers.MEDIUM <-> 50 <= fps) /\
  (DeviceCapsRev.decideTier fps true = QualityTiers.LOW <-> fps < 50).
Proof.
  pose proof (decideTier_mobile_never_high fps) as [H1 H2].
  pose proof (decideTier_mobile fps) as [H3 H4].
  pose proof (decideTier_rev_mobile fps) as [H5 H6].
  repeat split; try assumption; try tauto.
Qed.

(** C1, as stated, fails at [fps = 40] for the revision under
    [utils/deviceCaps.ts]: it answers MEDIUM although [40 < 50]. *)
Lemma C1_mobile_40_is_medium :
  DeviceCaps.decideTier 40 true = QualityTiers.MEDIUM /\
  ~ (DeviceCaps.decideTier 40 true = QualityTiers.MEDIUM <-> 50 <= 40) /\
  ~ (DeviceCaps.decideTier 40 true = QualityTiers.LOW <-> 40 < 50).
Proof.
  assert (H : DeviceCaps.decideTier 40 true = QualityTiers.MEDIUM).
  { apply (decideTier_mobile 40). lra. }
  rewrite H. repeat split.
  - intros [Hc _]. specialize (Hc eq_refl). lra.
  - intros [_ Hc]. assert (H40 : 40 < 50) by lra.
    specialize (Hc H40). discriminate.
Qed.

(** C7.  With [isMobile = false] both revisions of [decideTier] answer HIGH
    exactly when [fps >= 55], MEDIUM exactly when [40 <= fps < 55] and LOW
    exactly when [fps < 40]; at the boundaries, 55 gives HIGH and 40 gives
    MEDIUM. *)
Theorem C7_desktop_tier_policy (fps : R) :
  ((DeviceCaps.decideTier fps false = QualityTiers.HIGH <-> 55 <= fps) /\
   (DeviceCaps.decideTier fps false = QualityTiers.MEDIUM <-> 40 <= fps < 55) /\
   (DeviceCaps.decideTier fps false = QualityTiers.LOW <-> fps < 40)) /\
  ((DeviceCapsRev.decideTier fps false = QualityTiers.HIGH <-> 55 <= fps) /\
   (DeviceCapsRev.decideTier fps false = QualityTiers.MEDIUM <-> 40 <= fps < 55) /\
   (DeviceCapsRev.decideTier fps false = QualityTiers.LOW <-> fps < 40)) /\
  (DeviceCaps.decideTier 55 false = QualityTiers.HIGH /\
   DeviceCaps.decideTier 40 false = QualityTiers.MEDIUM) /\
  (DeviceCapsRev.decideTier 55 false = QualityTiers.HIGH /\
   DeviceCapsRev.decideTier 40 false = QualityTiers.MEDIUM).
Proof.
  split; [apply decideTier_desktop|].
  split; [apply decideTier_rev_desktop|].
  split; split.
  - apply (decideTier_desktop 55). lra.
  - apply (decideTier_desktop 40). lra.
  - apply (decideTier_rev_desktop 55). lra.
  - apply (decideTier_rev_desktop 40). lra.
Qed.

(** ** Order and NaN on binary64 *)

Section FloatOrder.
Import PrimFloat FloatOps FloatAxioms SpecFloat.
Local Open Scope float_scope.

Lemma SFcompare_antisym (x y : spec_float) :
  SFcompare y x = option_map CompOpp (SFcompare x y).
Proof.
  destruct x as [sx|sx| |sx mx ex], y as [sy|sy| |sy my ey];
    try reflexivity;
    try (destruct sx; reflexivity);
    try (destruct sy; reflexivity);
    try (destruct sx, sy; reflexivity).
  destruct sx, sy; cbn [SFcompare option_map]; try reflexivity;
    rewrite (Z.compare_antisym ex ey);
    destruct (Z.compare ex ey) eqn:He; cbn [CompOpp]; try reflexivity;
    rewrite (Pos.compare_cont_antisym mx my Eq); reflexivity.
Qed.

Lemma SFcompare_nan (x y : spec_float) :
  SFcompare x y = None <-> x = S754_nan \/ y = S754_nan.
Proof.
  destruct x as [sx|sx| |sx mx ex], y as [sy|sy| |sy my ey]; cbn;
    split; intros H; try discriminate; try (left; reflexivity);
    try (right; reflexivity); try reflexivity;
    destruct H as [H|H]; discriminate.
Qed.

Lemma SFcompare_refl (x : spec_float) :
  x <> S754_nan -> SFcompare x x = Some Eq.
Proof.
  destruct x as [sx|sx| |sx mx ex]; intros Hx; cbn.
  - reflexivity.
  - destruct sx; reflexivity.
  - contradiction.
  - destruct sx; rewrite Z.compare_refl, Pos.compare_cont_refl; reflexivity.
Qed.

Lemma is_nan_spec (x : float) : is_nan x = true <-> Prim2SF x = S754_nan.
Proof.
  unfold is_nan. rewrite eqb_spec. unfold SFeqb. split.
  - intros H. destruct (Prim2SF x) as [s|s| |s m e] eqn:E; [| |reflexivity|];
      rewrite SFcompare_refl in H by discriminate; discriminate.
  - intros ->. reflexivity.
Qed.

Lemma is_nan_false (x : float) : is_nan x = false <-> Prim2SF x <> S754_nan.
Proof.
  rewrite <- is_nan_spec. destruct (is_nan x); split; intros; congruence.
Qed.

(** the comparisons are false on NaN *)
Lemma ltb_nan (x y : float) :
  is_nan x = true \/ is_nan y = true -> (x <? y) = false /\ (x <=? y) = false.
Proof.
  intros H. rewrite ltb_spec, leb_spec. unfold SFltb, SFleb.
  assert (Hc : SFcompare (Prim2SF x) (Prim2SF y) = None).
  { apply SFcompare_nan. destruct H as [H|H]; apply is_nan_spec in H; tauto. }
  rewrite Hc. split; reflexivity.
Qed.

(** on numbers that are not NaN the order is total *)
Lemma not_ltb_leb (x y : float) :
  is_nan x = false -> is_nan y = false -> (x <? y) = false -> (y <=? x) = true.
Proof.
  intros Hx Hy. rewrite ltb_spec, leb_spec. unfold SFltb, SFleb.
  rewrite (SFcompare_antisym (Prim2SF x) (Prim2SF y)).
  apply is_nan_false in Hx, Hy.
  destruct (SFcompare (Prim2SF x) (Prim2SF y)) as [[| |]|] eqn:Hc;
    cbn; try reflexivity; try discriminate.
  apply SFcompare_nan in Hc. tauto.
Qed.

Lemma leb_not_ltb (x y : float) : (x <=? y) = true -> (y <? x) = false.
Proof.
  rewrite ltb_spec, leb_spec. unfold SFltb, SFleb.
  rewrite (SFcompare_antisym (Prim2SF x) (Prim2SF y)).
  destruct (SFcompare (Prim2SF x) (Prim2SF y)) as [[| |]|];
    cbn; intros; try reflexivity; discriminate.
Qed.

Lemma ltb_not_leb (x y : float) :
  (x <? y) = true -> (y <=? x) = false /\ (y <? x) = false.
Proof.
  rewrite !ltb_spec, leb_spec. unfold SFltb, SFleb.
  rewrite (SFcompare_antisym (Prim2SF x) (Prim2SF y)).
  destruct (SFcompare (Prim2SF x) (Prim2SF y)) as [[| |]|];
    cbn; intros; try discriminate; split; reflexivity.
Qed.

Lemma leb_not_nan (x y : float) :
  (x <=? y) = true -> is_nan x = false /\ is_nan y = false.
Proof.
  intros H. destruct (is_nan x) eqn:Hx.
  - destruct (ltb_nan x y (or_introl Hx)). congruence.
  - destruct (is_nan y) eqn:Hy; [|split; reflexivity].
    destruct (ltb_nan x y (or_intror Hy)). congruence.
Qed.

Lemma ltb_not_nan (x y : float) :
  (x <? y) = true -> is_nan x = false /\ is_nan y = false.
Proof.
  intros H. destruct (is_nan x) eqn:Hx.
  - destruct (ltb_nan x y (or_introl Hx)). congruence.
  - destruct (is_nan y) eqn:Hy; [|split; reflexivity].
    destruct (ltb_nan x y (or_intror Hy)). congruence.
Qed.

End FloatOrder.

Section FloatDivision.
Import PrimFloat FloatOps FloatAxioms SpecFloat.
Local Open Scope float_scope.

Lemma shr_1_nonneg (r : shr_record) :
  (0 <= shr_m r)%Z -> (0 <= shr_m (shr_1 r))%Z.
Proof.
  destruct r as [m r s]. cbn [shr_m]. intros Hm.
  destruct m as [|[p|p|]|p]; cbn; lia.
Qed.

Lemma iter_shr_1_nonneg (p : positive) :
  forall r : shr_record,
    (0 <= shr_m r)%Z -> (0 <= shr_m (iter_pos shr_1 p r))%Z.
Proof.
  induction p as [p IH|p IH|]; intros r Hr; cbn [iter_pos].
  - apply IH, IH, shr_1_nonneg, Hr.
  - apply IH, IH, Hr.
  - apply shr_1_nonneg, Hr.
Qed.

Lemma shr_fexp_nonneg (prec emax m e : Z) (l : location) :
  (0 <= m)%Z -> (0 <= shr_m (fst (shr_fexp prec emax m e l)))%Z.
Proof.
  intros Hm. unfold shr_fexp, shr.
  assert (H0 : (0 <= shr_m (shr_record_of_loc m l))%Z).
  { destruct l as [|[| |]]; exact Hm. }
  destruct (_ - e)%Z as [|p|p]; cbn [fst]; try exact H0.
  apply iter_shr_1_nonneg, H0.
Qed.

(** rounding a mantissa that is not negative never gives NaN *)
Lemma binary_round_aux_not_nan (prec emax : Z) (sx : bool) (mx ex : Z)
    (lx : location) :
  (0 <= mx)%Z -> binary_round_aux prec emax sx mx ex lx <> S754_nan.
Proof.
  intros Hm. unfold binary_round_aux.
  pose proof (shr_fexp_nonneg prec emax mx ex lx Hm) as H1.
  destruct (shr_fexp prec emax mx ex lx) as [mrs' e']. cbn [fst] in H1.
  assert (H2 : (0 <= round_nearest_even (shr_m mrs') (loc_of_shr_record mrs'))%Z).
  { unfold round_nearest_even.
    destruct (loc_of_shr_record mrs') as [|[| |]]; try lia.
    destruct (Z.even (shr_m mrs')); lia. }
  pose proof (shr_fexp_nonneg prec emax _ e' loc_Exact H2) as H3.
  destruct (shr_fexp prec emax _ e' loc_Exact) as [mrs'' e'']. cbn [fst] in H3.
  destruct (shr_m mrs'') as [|m|m]; [discriminate| |lia].
  destruct (Z.leb e'' (emax - prec)); discriminate.
Qed.

(** a number that is not NaN, divided by a finite number other than zero, is
    not NaN *)
Lemma div_finite_not_nan (x y : float) (sy : bool) (my : positive) (ey : Z) :
  Prim2SF y = S754_finite sy my ey ->
  is_nan x = false -> is_nan (x / y) = false.
Proof.
  intros Hy Hx. apply is_nan_false. apply is_nan_false in Hx.
  rewrite div_spec, Hy. unfold SF64div, SFdiv.
  destruct (Prim2SF x) as [sx|sx| |sx mx ex]; try discriminate;
    [contradiction|].
  destruct (SFdiv_core_binary prec emax (Zpos mx) ex (Zpos my) ey)
    as [[mz ez] lz] eqn:Hcore.
  apply binary_round_aux_not_nan.
  unfold SFdiv_core_binary in Hcore.
  set (m' := match (_ - _ - _)%Z with Zpos _ => _ | Z0 => _ | Zneg _ => _ end)
    in Hcore.
  assert (Hm' : (0 <= m')%Z).
  { unfold m'. destruct (_ - _ - _)%Z; try lia.
    apply Z.shiftl_nonneg. lia. }
  pose proof (Z.div_pos m' (Zpos my) Hm' ltac:(lia)) as Hq.
  unfold Z.div in Hq. destruct (Z.div_eucl m' (Zpos my)) as [q r].
  injection Hcore as <- _ _. exact Hq.
Qed.

End FloatDivision.

(** ** The store and the wrap in binary64 *)

Section Binary64Facts.
Import PrimFloat FloatOps FloatAxioms SpecFloat.
Import Binary64.
Local Open Scope float_scope.
Set Warnings "-inexact-float".

Lemma b64_while_continue (cond : float -> bool) (body : float -> float)
    (n : nat) (w : float) :
  cond w = true ->
  Binary64.while (S n) cond body w = Binary64.while n cond body (body w).
Proof. intros H. cbn [Binary64.while]. rewrite H. reflexivity. Qed.

Lemma b64_while_exit (cond : float -> bool) (body : float -> float)
    (n : nat) (w : float) :
  cond w = false -> Binary64.while (S n) cond body w = Some w.
Proof. intros H. cbn [Binary64.while]. rewrite H. reflexivity. Qed.

(** a loop whose body leaves the value as it is, while the condition holds,
    never exits *)
Lemma b64_while_stuck (cond : float -> bool) (body : float -> float) (w : float) :
  cond w = true -> body w = w ->
  forall n : nat, Binary64.while n cond body w = None.
Proof.
  intros Hc Hb. induction n as [|n IH]; [reflexivity|].
  rewrite b64_while_continue by assumption. rewrite Hb. exact IH.
Qed.

(** an angle the two loops leave alone is returned as it is *)
Lemma b64_wrapTheta_fixed (fuel : nat) (theta : float) :
  (Math_PI <? theta) = false -> (theta <? - Math_PI) = false ->
  Binary64.wrapTheta (S fuel) theta = Some theta.
Proof.
  intros H1 H2. unfold Binary64.wrapTheta.
  rewrite b64_while_exit by exact H1.
  rewrite b64_while_exit by exact H2. reflexivity.
Qed.

Lemma b64_physics_wrapTheta_fixed (fuel : nat) (theta : float) :
  (Math_PI <? theta) = false -> (theta <=? - Math_PI) = false ->
  Binary64.physics_wrapTheta (S fuel) theta = Some theta.
Proof.
  intros H1 H2. unfold Binary64.physics_wrapTheta.
  rewrite b64_while_exit by exact H1.
  rewrite b64_while_exit by exact H2. reflexivity.
Qed.

Lemma ltb_leb (x y : float) : (x <? y) = true -> (x <=? y) = true.
Proof.
  rewrite ltb_spec, leb_spec. unfold SFltb, SFleb.
  destruct (SFcompare (Prim2SF x) (Prim2SF y)) as [[| |]|];
    intros H; try discriminate; reflexivity.
Qed.

Lemma leb_refl (x : float) : is_nan x = false -> (x <=? x) = true.
Proof.
  intros Hx. apply is_nan_false in Hx. rewrite leb_spec. unfold SFleb.
  rewrite SFcompare_refl by exact Hx. reflexivity.
Qed.

Lemma Math_max_not_nan (a b : float) :
  is_nan a = false -> is_nan b = false ->
  Math_max a b = a \/ Math_max a b = b.
Proof.
  intros Ha Hb. unfold Math_max. rewrite Ha, Hb. cbn [orb].
  destruct (a <? b); [right; reflexivity|].
  destruct (b <? a); [left; reflexivity|].
  destruct (isNegativeZero a); [right|left]; reflexivity.
Qed.

Lemma Math_max_lower (a b : float) :
  is_nan a = false -> is_nan b = false ->
  (a <=? Math_max a b) = true /\ (b <=? Math_max a b) = true.
Proof.
  intros Ha Hb. unfold Math_max. rewrite Ha, Hb. cbn [orb].
  assert (Raa : (a <=? a) = true) by (apply leb_refl; assumption).
  assert (Rbb : (b <=? b) = true) by (apply leb_refl; assumption).
  destruct (a <? b) eqn:Hab.
  - split; [apply ltb_leb; exact Hab | exact Rbb].
  - destruct (b <? a) eqn:Hba.
    + split; [exact Raa | apply ltb_leb; exact Hba].
    + destruct (isNegativeZero a).
      * split; [apply not_ltb_leb; assumption | exact Rbb].
      * split; [exact Raa | apply not_ltb_leb; assumption].
Qed.

Lemma Math_min_upper (a b : float) :
  is_nan a = false -> is_nan b = false ->
  (Math_min a b <=? a) = true /\ (Math_min a b <=? b) = true.
Proof.
  intros Ha Hb. unfold Math_min. rewrite Ha, Hb. cbn [orb].
  assert (Raa : (a <=? a) = true) by (apply leb_refl; assumption).
  assert (Rbb : (b <=? b) = true) by (apply leb_refl; assumption).
  destruct (b <? a) eqn:Hba.
  - split; [apply ltb_leb; exact Hba | exact Rbb].
  - destruct (a <? b) eqn:Hab.
    + split; [exact Raa | apply ltb_leb; exact Hab].
    + destruct (isNegativeZero b).
      * split; [apply not_ltb_leb; assumption | exact Rbb].
      * split; [exact Raa | apply not_ltb_leb; assumption].
Qed.

Lemma Math_min_not_nan (a b : float) :
  is_nan a = false -> is_nan b = false ->
  Math_min a b = a \/ Math_min a b = b.
Proof.
  intros Ha Hb. unfold Math_min. rewrite Ha, Hb. cbn [orb].
  destruct (b <? a); [right; reflexivity|].
  destruct (a <? b); [left; reflexivity|].
  destruct (isNegativeZero b); [right|left]; reflexivity.
Qed.

End Binary64Facts.

Section Binary64Store.
Import PrimFloat FloatOps FloatAxioms SpecFloat.
Import Binary64.
Local Open Scope float_scope.
Set Warnings "-inexact-float".

(** an angle so large that a turn is absorbed by the rounding is wrapped for
    ever *)
Lemma b64_wrapTheta_stuck (theta : float) :
  (Math_PI <? theta) = true -> theta - 2 * Math_PI = theta ->
  forall fuel : nat,
    Binary64.physics_wrapTheta fuel theta = None /\
    Binary64.wrapTheta fuel theta = None.
Proof.
  intros Hc Hb fuel.
  unfold Binary64.physics_wrapTheta, Binary64.wrapTheta.
  rewrite (b64_while_stuck (fun w => Math_PI <? w) (fun w => w - 2 * Math_PI)
             theta Hc Hb fuel).
  split; reflexivity.
Qed.




(** [Math.pow] where ECMAScript leaves the value to the engine *)
Lemma Math_pow_approx (approx : float -> float -> float) (b e : float) :
  is_nan e = false -> is_zero e = false -> is_nan b = false ->
  Math_pow approx b e = approx b e.
Proof. intros H1 H2 H3. unfold Math_pow. rewrite H1, H2, H3. reflexivity. Qed.

(** a drag of 1e306 pixels in a frame of no duration: the divisor is 1e-6 and
    the quotient overflows *)
Lemma b64_updateDrag_overflow :
  Binary64.updateDrag 1 0 1e306 0 Binary64.initialState
  = Some (Binary64.mkStore InteractionStore.IDLE
            (Binary64.mkSpherical 0 0)
            (Binary64.mkSpherical 0 (Binary64.degToRad 60))
            4 4 (Binary64.mkSpherical (-0) infinity) None false false
            Binary64.DEFAULT_CONFIG).
Proof. reflexivity. Qed.

(** a frame so short that [dtMs / 16.67] rounds to zero: the damping factor
    is [Math.pow(damping, 0) = 1] and the frame changes nothing *)
Lemma b64_ticks_stall_short_frame (approx : float -> float -> float)
    (fuel n : nat) :
  Binary64.ticks approx (S fuel) n 5e-324
    (Binary64.coasting 0.95 1 (Binary64.mkSpherical 0 0))
  = Some (Binary64.coasting 0.95 1 (Binary64.mkSpherical 0 0)).
Proof.
  induction n as [|n IH]; [reflexivity|].
  cbn [Binary64.ticks].
  replace (Binary64.tickInertia approx (S fuel) 5e-324
             (Binary64.coasting 0.95 1 (Binary64.mkSpherical 0 0)))
    with (Some (Binary64.coasting 0.95 1 (Binary64.mkSpherical 0 0))).
  - exact IH.
  - symmetry. unfold Binary64.tickInertia, coasting.
    cbn [Binary64.state Binary64.config Binary64.velocity Binary64.target
         Binary64.theta Binary64.phi Binary64.damping
         Binary64.minElevationDeg Binary64.maxElevationDeg
         Binary64.current Binary64.zoom Binary64.targetZoom Binary64.lastTs
         Binary64.isPointerCaptured Binary64.isKeyboardFocused].
    replace (Math_pow approx 0.95 (5e-324 / 16.67)) with 1 by reflexivity.
    rewrite b64_wrapTheta_fixed by reflexivity.
    reflexivity.
Qed.

(** a damping constant so close to 1 that the factor of a frame rounds to 1:
    the velocity is the same after every frame *)
Lemma b64_ticks_stall_weak_damping (approx : float -> float -> float) :
  approx 0.9999999999999999 (1 / 16.67) = 1 ->
  forall (fuel n : nat) (target : Binary64.CameraSpherical) (s' : Binary64.Store),
    Binary64.ticks approx fuel n 1 (Binary64.coasting 0.9999999999999999 1 target)
    = Some s' ->
    exists target' : Binary64.CameraSpherical,
      s' = coasting 0.9999999999999999 1 target'.
Proof.
  intros Hpow fuel n. induction n as [|n IH]; intros target s' Hrun.
  - injection Hrun as <-. exists target. reflexivity.
  - cbn [Binary64.ticks] in Hrun.
    destruct (Binary64.tickInertia approx fuel 1
                (Binary64.coasting 0.9999999999999999 1 target)) as [s1|] eqn:Htick;
      [|discriminate].
    unfold Binary64.tickInertia, coasting in Htick.
    cbn [Binary64.state Binary64.config Binary64.velocity Binary64.target
         Binary64.theta Binary64.phi Binary64.damping
         Binary64.minElevationDeg Binary64.maxElevationDeg
         Binary64.current Binary64.zoom Binary64.targetZoom Binary64.lastTs
         Binary64.isPointerCaptured Binary64.isKeyboardFocused] in Htick.
    rewrite Math_pow_approx in Htick by reflexivity.
    rewrite Hpow in Htick.
    replace (1 * 1) with 1 in Htick by reflexivity.
    replace (0 * 1) with 0 in Htick by reflexivity.
    destruct (Binary64.wrapTheta fuel _) as [newTheta|]; [|discriminate].
    replace (Binary64.isNearZero (Binary64.mkSpherical 1 0)) with false
      in Htick by reflexivity.
    injection Htick as <-.
    eapply IH. exact Hrun.
Qed.

(** a velocity so large that the angle of one frame absorbs a turn: the frame
    never returns; [f] ranges over the doubles next to 0.95^(16/16.67) *)
Lemma b64_tick_hangs (approx : float -> float -> float) :
  approx 0.95 (16 / 16.67) = 0.9519605194003988 \/
  approx 0.95 (16 / 16.67) = 0.9519605194003989 \/
  approx 0.95 (16 / 16.67) = 0.951960519400399 ->
  forall fuel : nat,
    Binary64.tickInertia approx fuel 16
      (Binary64.coasting 0.95 1e20 (Binary64.mkSpherical 0 0)) = None.
Proof.
  intros Hpow fuel. unfold Binary64.tickInertia, coasting.
  cbn [Binary64.state Binary64.config Binary64.velocity Binary64.target
       Binary64.theta Binary64.phi Binary64.damping
       Binary64.minElevationDeg Binary64.maxElevationDeg
       Binary64.current Binary64.zoom Binary64.targetZoom Binary64.lastTs
       Binary64.isPointerCaptured Binary64.isKeyboardFocused].
  rewrite Math_pow_approx by reflexivity.
  destruct Hpow as [-> | [-> | ->]];
    match goal with
    | |- context [Binary64.wrapTheta fuel ?t] =>
        destruct (b64_wrapTheta_stuck t eq_refl eq_refl fuel) as [_ ->]
    end; reflexivity.
Qed.

(** an azimuth so large that it absorbs the step of a frame and the turn
    [wrapTheta] subtracts: the frame never returns *)
Lemma b64_tick_hangs_far_azimuth (approx : float -> float -> float) :
  approx 0.95 (16 / 16.67) = 0.9519605194003988 \/
  approx 0.95 (16 / 16.67) = 0.9519605194003989 \/
  approx 0.95 (16 / 16.67) = 0.951960519400399 ->
  forall fuel : nat,
    Binary64.tickInertia approx fuel 16
      (Binary64.coasting 0.95 1 (Binary64.mkSpherical 1e17 0)) = None.
Proof.
  intros Hpow fuel. unfold Binary64.tickInertia, Binary64.coasting.
  cbn [Binary64.state Binary64.config Binary64.velocity Binary64.target
       Binary64.theta Binary64.phi Binary64.damping
       Binary64.minElevationDeg Binary64.maxElevationDeg
       Binary64.current Binary64.zoom Binary64.targetZoom Binary64.lastTs
       Binary64.isPointerCaptured Binary64.isKeyboardFocused].
  rewrite Math_pow_approx by reflexivity.
  destruct Hpow as [-> | [-> | ->]];
    match goal with
    | |- context [Binary64.wrapTheta fuel ?t] =>
        destruct (b64_wrapTheta_stuck t eq_refl eq_refl fuel) as [_ ->]
    end; reflexivity.
Qed.

(** C4, as stated, fails in binary64 on each of its three quantifiers, and
    for a store whose azimuth is large.  With [dtMs = 5e-324 > 0] the
    exponent [dtMs / 16.67] rounds to zero, the factor is
    [Math.pow(0.95, 0) = 1], and a camera coasting at velocity 1 is the same
    store after any number of frames.  With the damping constant
    0.9999999999999999 and [dtMs = 1] the factor rounds to 1 and the velocity
    is 1 after every frame.  With velocity 1e20 and [dtMs = 16] the angle of
    the first frame absorbs the turn [wrapTheta] subtracts, and the frame
    never returns; so it is with velocity 1 from the azimuth 1e17.  (Where
    ECMAScript leaves [Math.pow] to the engine, the engine's value is a
    hypothesis: 1 for the power of 0.9999999999999999, and one of the three
    doubles nearest to the exact power of 0.95.) *)
Lemma C4_inertia_never_rests :
  (0 <? 5e-324) = true /\
  (0 <? 0.9999999999999999) = true /\ (0.9999999999999999 <? 1) = true /\
  is_finite 1e20 = true /\
  Binary64.state (Binary64.coasting 0.95 1 (Binary64.mkSpherical 0 0))
    = InteractionStore.INERTIA /\
  (forall (approx : float -> float -> float) (fuel n : nat),
     Binary64.ticks approx (S fuel) n 5e-324
       (Binary64.coasting 0.95 1 (Binary64.mkSpherical 0 0))
     = Some (Binary64.coasting 0.95 1 (Binary64.mkSpherical 0 0))) /\
  (forall approx : float -> float -> float,
     approx 0.9999999999999999 (1 / 16.67) = 1 ->
     forall (fuel n : nat) (target : Binary64.CameraSpherical)
            (s' : Binary64.Store),
       Binary64.ticks approx fuel n 1
         (Binary64.coasting 0.9999999999999999 1 target) = Some s' ->
       Binary64.state s' = InteractionStore.INERTIA /\
       Binary64.velocity s' = Binary64.mkSpherical 1 0) /\
  (forall approx : float -> float -> float,
     approx 0.95 (16 / 16.67) = 0.9519605194003988 \/
     approx 0.95 (16 / 16.67) = 0.9519605194003989 \/
     approx 0.95 (16 / 16.67) = 0.951960519400399 ->
     forall fuel : nat,
       Binary64.tickInertia approx fuel 16
         (Binary64.coasting 0.95 1e20 (Binary64.mkSpherical 0 0)) = None /\
       Binary64.tickInertia approx fuel 16
         (Binary64.coasting 0.95 1 (Binary64.mkSpherical 1e17 0)) = None).
Proof.
  split; [reflexivity|]. split; [reflexivity|]. split; [reflexivity|].
  split; [reflexivity|]. split; [reflexivity|].
  split; [|split].
  - intros approx fuel n. apply b64_ticks_stall_short_frame.
  - intros approx Hpow fuel n target s' Hrun.
    destruct (b64_ticks_stall_weak_damping approx Hpow fuel n target s' Hrun)
      as [target' ->].
    split; reflexivity.
  - intros approx Hpow fuel.
    split; [apply b64_tick_hangs | apply b64_tick_hangs_far_azimuth];
      exact Hpow.
Qed.

(** C9, as stated, fails in binary64: a drag of 1e306 pixels over a frame of
    no duration divides by the floor 1e-6, never by zero, and the quotient
    overflows; the velocity stored is infinite. *)
Lemma C9_updateDrag_velocity_overflows :
  is_finite 1e306 = true /\
  Binary64.dragDtSec 0 = 1e-6 /\
  exists s' : Binary64.Store,
    Binary64.updateDrag 1 0 1e306 0 Binary64.initialState = Some s' /\
    Binary64.phi (Binary64.velocity s') = infinity /\
    is_finite (Binary64.phi (Binary64.velocity s')) = false.
Proof.
  split; [reflexivity|]. split; [reflexivity|].
  eexists. split; [exact b64_updateDrag_overflow|].
  split; reflexivity.
Qed.

(** X31.  In binary64, the divisor [Math.max(dtMs / 1000, 1e-6)] of
    [updateDrag] is at least 1e-6 for every [dtMs] that is not NaN, zero,
    negative and infinite ones included; it is NaN exactly when [dtMs] is;
    and it is never zero. *)
Theorem X31_drag_divisor_floor_binary64 (dtMs : float) :
  (1e-6 <=? Binary64.dragDtSec dtMs) = negb (is_nan dtMs) /\
  is_nan (Binary64.dragDtSec dtMs) = is_nan dtMs /\
  is_zero (Binary64.dragDtSec dtMs) = false.
Proof.
  unfold Binary64.dragDtSec.
  destruct (is_nan dtMs) eqn:Hnan; cbn [negb].
  - assert (Hq : is_nan (dtMs / 1000) = true).
    { apply is_nan_spec. apply is_nan_spec in Hnan.
      rewrite div_spec, Hnan. reflexivity. }
    unfold Binary64.Math_max. rewrite Hq. cbn [orb].
    repeat split; reflexivity.
  - assert (Hq : is_nan (dtMs / 1000) = false).
    { apply (div_finite_not_nan dtMs 1000 false 8796093022208000 (-43));
        [reflexivity | exact Hnan]. }
    assert (Hc : is_nan 1e-6 = false) by reflexivity.
    destruct (Math_max_lower (dtMs / 1000) 1e-6 Hq Hc) as [_ Hfloor].
    destruct (Math_max_not_nan (dtMs / 1000) 1e-6 Hq Hc) as [E|E].
    + rewrite E in *. split; [exact Hfloor|]. split; [exact Hq|].
      revert Hfloor. unfold is_zero. rewrite leb_spec, eqb_spec.
      replace (Prim2SF 1e-6)
        with (S754_finite false 4722366482869645 (-72)) by reflexivity.
      replace (Prim2SF 0) with (S754_zero false) by reflexivity.
      destruct (Prim2SF (dtMs / 1000)) as [s|s| |s m e];
        try destruct s; cbn; congruence.
    + rewrite E. repeat split; reflexivity.
Qed.

(** X32.  In binary64, [clamp(v, lo, hi)] with [lo <= hi] and [v] not NaN is
    one of [v], [lo], [hi] and lies between [lo] and [hi]; a NaN value is
    passed on as NaN, which no bound holds back. *)
Theorem X32_clamp_binary64 (v lo hi : float) :
  (lo <=? hi) = true ->
  if is_nan v then is_nan (Binary64.clamp v lo hi) = true
  else
    (lo <=? Binary64.clamp v lo hi) = true /\
    (Binary64.clamp v lo hi <=? hi) = true /\
    (Binary64.clamp v lo hi = v \/ Binary64.clamp v lo hi = lo \/
     Binary64.clamp v lo hi = hi).
Proof.
  intros Hle. destruct (leb_not_nan lo hi Hle) as [Hlo Hhi].
  unfold Binary64.clamp. destruct (is_nan v) eqn:Hv.
  - unfold Binary64.Math_max, Binary64.Math_min. rewrite Hv. reflexivity.
  - destruct (Math_max_lower v lo Hv Hlo) as [_ Hm].
    assert (Hmn : is_nan (Math_max v lo) = false).
    { destruct (Math_max_not_nan v lo Hv Hlo) as [-> | ->]; assumption. }
    destruct (Math_min_upper (Math_max v lo) hi Hmn Hhi) as [_ Hup].
    split; [|split; [exact Hup|]].
    + destruct (Math_min_not_nan (Math_max v lo) hi Hmn Hhi) as [-> | ->];
        assumption.
    + destruct (Math_min_not_nan (Math_max v lo) hi Hmn Hhi) as [-> | ->];
        [|right; right; reflexivity].
      destruct (Math_max_not_nan v lo Hv Hlo) as [-> | ->];
        [left | right; left]; reflexivity.
Qed.

Lemma X32_clamp_binary64_witness :
  (Binary64.degToRad (-60) <=? Binary64.clamp infinity
     (Binary64.degToRad (-60)) (Binary64.degToRad 60)) = true /\
  Binary64.clamp infinity (Binary64.degToRad (-60)) (Binary64.degToRad 60)
  = Binary64.degToRad 60.
Proof.
  pose proof (X32_clamp_binary64 infinity (Binary64.degToRad (-60))
                (Binary64.degToRad 60) eq_refl) as H.
  cbv beta iota in H.
  change (is_nan infinity) with false in H. cbv iota in H.
  split; [exact (proj1 H) | reflexivity].
Defined.

(** whatever a loop returns has left its condition *)
Lemma b64_while_leaves (cond : float -> bool) (body : float -> float) :
  forall (fuel : nat) (w r : float),
    Binary64.while fuel cond body w = Some r -> cond r = false.
Proof.
  induction fuel as [|fuel IH]; intros w r H; [discriminate|].
  cbn [Binary64.while] in H. destruct (cond w) eqn:Hc.
  - exact (IH _ _ H).
  - injection H as <-. exact Hc.
Qed.

(** X33.  [wrapTheta] in binary64, in [utils/physics.ts] and in the
    interaction store.  An angle that neither loop condition holds of is
    returned as it is.  Whatever is returned has left the second loop: it is
    not at or below [-Math.PI] in [utils/physics.ts], and not below
    [-Math.PI] in the store.  NaN is returned as NaN; on [Infinity] and on
    [-Infinity] the call never returns, whatever the number of iterations
    allowed. *)
Theorem X33_wrapTheta_binary64 (theta : float) (fuel : nat) :
  ((Math_PI <? theta) = false /\ (theta <=? - Math_PI) = false ->
   Binary64.physics_wrapTheta (S fuel) theta = Some theta) /\
  ((Math_PI <? theta) = false /\ (theta <? - Math_PI) = false ->
   Binary64.wrapTheta (S fuel) theta = Some theta) /\
  (forall r : float,
     Binary64.physics_wrapTheta fuel theta = Some r ->
     (r <=? - Math_PI) = false) /\
  (forall r : float,
     Binary64.wrapTheta fuel theta = Some r -> (r <? - Math_PI) = false) /\
  Binary64.physics_wrapTheta (S fuel) nan = Some nan /\
  Binary64.wrapTheta (S fuel) nan = Some nan /\
  Binary64.physics_wrapTheta fuel infinity = None /\
  Binary64.wrapTheta fuel infinity = None /\
  Binary64.physics_wrapTheta fuel neg_infinity = None /\
  Binary64.wrapTheta fuel neg_infinity = None.
Proof.
  split; [intros [H1 H2]; apply b64_physics_wrapTheta_fixed; assumption|].
  split; [intros [H1 H2]; apply b64_wrapTheta_fixed; assumption|].
  split; [|split].
  - intros r. unfold Binary64.physics_wrapTheta.
    destruct (Binary64.while fuel _ _ theta) as [w|]; [|discriminate].
    apply (b64_while_leaves (fun w => w <=? - Math_PI)).
  - intros r. unfold Binary64.wrapTheta.
    destruct (Binary64.while fuel _ _ theta) as [w|]; [|discriminate].
    apply (b64_while_leaves (fun w => w <? - Math_PI)).
  - split; [apply b64_physics_wrapTheta_fixed; reflexivity|].
    split; [apply b64_wrapTheta_fixed; reflexivity|].
    split; [apply b64_wrapTheta_stuck; reflexivity|].
    split; [apply b64_wrapTheta_stuck; reflexivity|].
    destruct fuel as [|fuel]; [split; reflexivity|].
    unfold Binary64.physics_wrapTheta, Binary64.wrapTheta.
    rewrite b64_while_exit by reflexivity.
    split; apply b64_while_stuck; reflexivity.
Qed.

End Binary64Store.

(** ** Angle wrapping *)

Lemma while_more_fuel (cond : num -> bool) (body : num -> num) :
  forall (n m : nat) (w v : num),
    while n cond body w = Some v -> while (n + m) cond body w = Some v.
Proof.
  induction n as [|n IH]; intros m w v H; simpl in *.
  - discriminate.
  - destruct (cond w); [apply IH; assumption | assumption].
Qed.

Lemma while_continue (cond : num -> bool) (body : num -> num) (n : nat) (w : num) :
  cond w = true -> while (S n) cond body w = while n cond body (body w).
Proof. intros H. simpl. rewrite H. reflexivity. Qed.

Lemma while_exit (cond : num -> bool) (body : num -> num) (n : nat) (w : num) :
  cond w = false -> while (S n) cond body w = Some w.
Proof. intros H. simpl. rewrite H. reflexivity. Qed.

(** the first loop takes off whole turns until the angle is at most [PI] *)
Lemma lower_loop :
  forall (n : nat) (r : R),
    r <= PI + 2 * PI * INR n ->
    exists k : nat,
      while (S n) (fun w => w >? Math_PI)%js (fun w => w - 2 * Math_PI)%js (Fin r)
      = Some (Fin (r - 2 * PI * INR k)) /\
      r - 2 * PI * INR k <= PI /\
      (k = 0%nat \/ - PI < r - 2 * PI * INR k).
Proof.
  induction n as [|n IH]; intros r Hr.
  - exists 0%nat. simpl in Hr. rewrite while_exit by (apply gt_Fin_false; lra).
    simpl. repeat split; try lra; auto. f_equal; f_equal; lra.
  - destruct (Rlt_dec PI r) as [Hgt|Hle].
    + destruct (IH (r - 2 * PI)) as (k & Hw & Hub & Hlb).
      { rewrite S_INR in Hr. lra. }
      exists (S k). rewrite S_INR.
      replace (r - 2 * PI * (INR k + 1)) with (r - 2 * PI - 2 * PI * INR k) by lra.
      split; [|split; [lra|right]].
      * rewrite while_continue by (apply gt_Fin_true; assumption).
        exact Hw.
      * destruct Hlb as [->|Hlb]; [simpl; lra | lra].
    + exists 0%nat. rewrite while_exit by (apply gt_Fin_false; lra).
      simpl. repeat split; try lra; auto. f_equal; f_equal; lra.
Qed.

(** the second loop of [physics.ts] adds whole turns while the angle is at
    most [-PI] *)
Lemma raise_loop :
  forall (n : nat) (r : R),
    - PI - 2 * PI * INR n < r ->
    exists k : nat,
      while (S n) (fun w => w <=? - Math_PI)%js (fun w => w + 2 * Math_PI)%js (Fin r)
      = Some (Fin (r + 2 * PI * INR k)) /\
      - PI < r + 2 * PI * INR k /\
      (k = 0%nat \/ r + 2 * PI * INR k <= PI).
Proof.
  induction n as [|n IH]; intros r Hr.
  - exists 0%nat. simpl in Hr. rewrite while_exit by (apply le_Fin_false; lra).
    simpl. repeat split; try lra; auto. f_equal; f_equal; lra.
  - destruct (Rle_dec r (- PI)) as [Hle|Hgt].
    + destruct (IH (r + 2 * PI)) as (k & Hw & Hlb & Hub).
      { rewrite S_INR in Hr. lra. }
      exists (S k). rewrite S_INR.
      replace (r + 2 * PI * (INR k + 1)) with (r + 2 * PI + 2 * PI * INR k) by lra.
      split; [|split; [lra|right]].
      * rewrite while_continue by (apply le_Fin_true; assumption).
        exact Hw.
      * destruct Hub as [->|Hub]; [simpl; lra | lra].
    + exists 0%nat. rewrite while_exit by (apply le_Fin_false; lra).
      simpl. repeat split; try lra; auto. f_equal; f_equal; lra.
Qed.

(** the second loop of the store's copy adds whole turns only while the
    angle is strictly below [-PI] *)
Lemma raise_loop_strict :
  forall (n : nat) (r : R),
    - PI - 2 * PI * INR n < r ->
    exists k : nat,
      while (S n) (fun w => w <? - Math_PI)%js (fun w => w + 2 * Math_PI)%js (Fin r)
      = Some (Fin (r + 2 * PI * INR k)) /\
      - PI <= r + 2 * PI * INR k /\
      (k = 0%nat \/ r + 2 * PI * INR k < PI).
Proof.
  induction n as [|n IH]; intros r Hr.
  - exists 0%nat. simpl in Hr. rewrite while_exit by (apply lt_Fin_false; lra).
    simpl. repeat split; try lra; auto. f_equal; f_equal; lra.
  - destruct (Rlt_dec r (- PI)) as [Hlt|Hge].
    + destruct (IH (r + 2 * PI)) as (k & Hw & Hlb & Hub).
      { rewrite S_INR in Hr. lra. }
      exists (S k). rewrite S_INR.
      replace (r + 2 * PI * (INR k + 1)) with (r + 2 * PI + 2 * PI * INR k) by lra.
      split; [|split; [lra|right]].
      * rewrite while_continue by (apply lt_Fin_true; assumption).
        exact Hw.
      * destruct Hub as [->|Hub]; [simpl; lra | lra].
    + exists 0%nat. rewrite while_exit by (apply lt_Fin_false; lra).
      simpl. repeat split; try lra; auto. f_equal; f_equal; lra.
Qed.

Lemma wrapFuel_enough (r : R) :
  Rabs r < 2 * PI * INR (Z.to_nat (up (Rabs r / (2 * PI)))).
Proof.
  pose proof PI_RGT_0 as Hpi.
  pose proof (Rabs_pos r) as Hr.
  destruct (archimed (Rabs r / (2 * PI))) as [Hup _].
  assert (Hq : 0 <= Rabs r / (2 * PI)).
  { apply Rmult_le_pos; [assumption|]. left. apply Rinv_0_lt_compat. lra. }
  assert (Hz : (0 <= up (Rabs r / (2 * PI)))%Z).
  { apply le_IZR. lra. }
  rewrite INR_IZR_INZ, Z2Nat.id by assumption.
  apply Rmult_lt_reg_r with (r := / (2 * PI)).
  - apply Rinv_0_lt_compat. lra.
  - replace (2 * PI * IZR (up (Rabs r / (2 * PI))) * / (2 * PI))
      with (IZR (up (Rabs r / (2 * PI)))) by (field; lra).
    exact Hup.
Qed.

(** [wrapTheta] of [physics.ts] on a finite angle: it returns, the result
    differs from the angle by whole turns and lies in (-PI, PI] *)
Lemma physics_wrapTheta_finite (r : R) :
  exists (w : R) (j : Z),
    Physics.wrapTheta (Fin r) = Some (Fin w) /\
    w = r + 2 * PI * IZR j /\ - PI < w <= PI.
Proof.
  pose proof PI_RGT_0 as Hpi.
  pose proof (wrapFuel_enough r) as Hfuel.
  set (n := Z.to_nat (up (Rabs r / (2 * PI)))) in *.
  assert (Habs : - Rabs r <= r <= Rabs r).
  { unfold Rabs; destruct (Rcase_abs r); lra. }
  destruct (lower_loop n r) as (k1 & Hw1 & Hub1 & Hlb1); [lra|].
  destruct (raise_loop n (r - 2 * PI * INR k1)) as (k2 & Hw2 & Hlb2 & Hub2).
  { destruct Hlb1 as [->|Hlb1]; simpl; lra. }
  exists (r - 2 * PI * INR k1 + 2 * PI * INR k2), (Z.of_nat k2 - Z.of_nat k1)%Z.
  split; [|split].
  - unfold Physics.wrapTheta, Physics.wrapThetaWithin, Physics.wrapFuel.
    fold n. rewrite Hw1. exact Hw2.
  - rewrite minus_IZR, <- !INR_IZR_INZ. lra.
  - split; [lra|]. destruct Hub2 as [->|Hub2]; [simpl; lra | lra].
Qed.

(** the store's copy on a finite angle: it returns, the result differs from
    the angle by whole turns and lies in [-PI, PI] *)
Lemma store_wrapTheta_finite (r : R) :
  exists (w : R) (j : Z),
    InteractionStore.wrapTheta (Fin r) = Some (Fin w) /\
    w = r + 2 * PI * IZR j /\ - PI <= w <= PI.
Proof.
  pose proof PI_RGT_0 as Hpi.
  pose proof (wrapFuel_enough r) as Hfuel.
  set (n := Z.to_nat (up (Rabs r / (2 * PI)))) in *.
  assert (Habs : - Rabs r <= r <= Rabs r).
  { unfold Rabs; destruct (Rcase_abs r); lra. }
  destruct (lower_loop n r) as (k1 & Hw1 & Hub1 & Hlb1); [lra|].
  destruct (raise_loop_strict n (r - 2 * PI * INR k1)) as (k2 & Hw2 & Hlb2 & Hub2).
  { destruct Hlb1 as [->|Hlb1]; simpl; lra. }
  exists (r - 2 * PI * INR k1 + 2 * PI * INR k2), (Z.of_nat k2 - Z.of_nat k1)%Z.
  split; [|split].
  - unfold InteractionStore.wrapTheta, InteractionStore.wrapThetaWithin,
      Physics.wrapFuel.
    fold n. rewrite Hw1. exact Hw2.
  - rewrite minus_IZR, <- !INR_IZR_INZ. lra.
  - split; [lra|]. destruct Hub2 as [->|Hub2]; [simpl; lra | lra].
Qed.

(** a loop whose body leaves the value as it is, while the condition holds,
    never exits *)
Lemma while_stuck (cond : num -> bool) (body : num -> num) (w : num) :
  cond w = true -> body w = w -> forall n : nat, while n cond body w = None.
Proof.
  intros Hc Hb. induction n as [|n IH]; [reflexivity|].
  rewrite while_continue by assumption. rewrite Hb. exact IH.
Qed.

Lemma physics_wrapThetaWithin_more_fuel (n m : nat) (theta v : num) :
  Physics.wrapThetaWithin n theta = Some v ->
  Physics.wrapThetaWithin (n + m) theta = Some v.
Proof.
  unfold Physics.wrapThetaWithin. intros H.
  destruct (while n _ _ theta) as [w|] eqn:H1; [|discriminate].
  rewrite (while_more_fuel _ _ n m _ _ H1).
  apply while_more_fuel. exact H.
Qed.

Lemma store_wrapThetaWithin_more_fuel (n m : nat) (theta v : num) :
  InteractionStore.wrapThetaWithin n theta = Some v ->
  InteractionStore.wrapThetaWithin (n + m) theta = Some v.
Proof.
  unfold InteractionStore.wrapThetaWithin. intros H.
  destruct (while n _ _ theta) as [w|] eqn:H1; [|discriminate].
  rewrite (while_more_fuel _ _ n m _ _ H1).
  apply while_more_fuel. exact H.
Qed.

(** [wrapTheta] is the result of the two loops whenever they exit: the
    iterations allowed by [wrapFuel] cut no run short, and on an infinite
    angle the loops exit for no number of iterations *)
Lemma physics_wrapTheta_adequate (theta v : num) :
  (exists fuel : nat, Physics.wrapThetaWithin fuel theta = Some v) <->
  Physics.wrapTheta theta = Some v.
Proof.
  split; [|intros H; exists (Physics.wrapFuel theta); exact H].
  intros [fuel H]. destruct theta as [r| | |].
  - destruct (physics_wrapTheta_finite r) as (w & j & Hw & _).
    rewrite Hw. unfold Physics.wrapTheta in Hw.
    apply (physics_wrapThetaWithin_more_fuel _ fuel) in Hw.
    apply (physics_wrapThetaWithin_more_fuel _ (Physics.wrapFuel (Fin r))) in H.
    rewrite Nat.add_comm in H. congruence.
  - exfalso. unfold Physics.wrapThetaWithin in H.
    rewrite while_stuck in H; [discriminate|reflexivity|reflexivity].
  - exfalso. unfold Physics.wrapThetaWithin in H.
    destruct fuel as [|fuel]; [discriminate|].
    rewrite while_exit in H by reflexivity.
    rewrite while_stuck in H; [discriminate|reflexivity|reflexivity].
  - destruct fuel as [|fuel]; [discriminate|]. rewrite <- H. reflexivity.
Qed.

Lemma store_wrapTheta_adequate (theta v : num) :
  (exists fuel : nat, InteractionStore.wrapThetaWithin fuel theta = Some v) <->
  InteractionStore.wrapTheta theta = Some v.
Proof.
  split; [|intros H; exists (Physics.wrapFuel theta); exact H].
  intros [fuel H]. destruct theta as [r| | |].
  - destruct (store_wrapTheta_finite r) as (w & j & Hw & _).
    rewrite Hw. unfold InteractionStore.wrapTheta in Hw.
    apply (store_wrapThetaWithin_more_fuel _ fuel) in Hw.
    apply (store_wrapThetaWithin_more_fuel _ (Physics.wrapFuel (Fin r))) in H.
    rewrite Nat.add_comm in H. congruence.
  - exfalso. unfold InteractionStore.wrapThetaWithin in H.
    rewrite while_stuck in H; [discriminate|reflexivity|reflexivity].
  - exfalso. unfold InteractionStore.wrapThetaWithin in H.
    destruct fuel as [|fuel]; [discriminate|].
    rewrite while_exit in H by reflexivity.
    rewrite while_stuck in H; [discriminate|reflexivity|reflexivity].
  - destruct fuel as [|fuel]; [discriminate|]. rewrite <- H. reflexivity.
Qed.

(** an angle already in [-PI, PI] is returned as it is *)
Lemma store_wrapTheta_fixed (r : R) :
  - PI <= r <= PI -> InteractionStore.wrapTheta (Fin r) = Some (Fin r).
Proof.
  intros Hr.
  unfold InteractionStore.wrapTheta, InteractionStore.wrapThetaWithin,
    Physics.wrapFuel.
  rewrite while_exit by (apply gt_Fin_false; lra).
  rewrite while_exit by (apply lt_Fin_false; lra).
  reflexivity.
Qed.




Section WrapCounterexample.
Import PrimFloat.
Set Warnings "-inexact-float".


End WrapCounterexample.

(** ** Arithmetic of finite numbers *)

Lemma div_Fin (a b : R) : b <> 0 -> (Fin a / Fin b)%js = Fin (a / b).
Proof. intros Hb. unfold div. destruct (Req_dec_T b 0); [contradiction|reflexivity]. Qed.

Lemma div_zero_by_zero : (Fin 0 / Fin 0)%js = NaN.
Proof.
  unfold div, inf_times. destruct (Req_dec_T 0 0) as [_|H]; [|lra].
  destruct (Rlt_dec 0 0); [lra|reflexivity].
Qed.

Lemma max_Fin (a b : R) : max (Fin a) (Fin b) = Fin (Rmax a b).
Proof.
  unfold max, lt, Rltb, Rmax.
  destruct (Rlt_dec a b), (Rle_dec a b); try reflexivity; try lra.
  f_equal; lra.
Qed.

Lemma min_Fin (a b : R) : min (Fin a) (Fin b) = Fin (Rmin a b).
Proof.
  unfold min, lt, Rltb, Rmin.
  destruct (Rlt_dec b a), (Rle_dec a b); try reflexivity; lra.
Qed.

Lemma Lt_abs_Fin (v e : R) : Lt (abs (Fin v)) (Fin e) <-> Rabs v < e.
Proof. apply Rltb_true. Qed.

Lemma degToRad_Fin (deg : R) :
  InteractionStore.degToRad (Fin deg) = Fin (deg * PI / 180).
Proof. unfold InteractionStore.degToRad. apply div_Fin. lra. Qed.

(** [clamp] between finite, ordered limits *)
Lemma clamp_Fin (v lo hi : R) :
  InteractionStore.clamp (Fin v) (Fin lo) (Fin hi) = Fin (Rmin (Rmax v lo) hi).
Proof. unfold InteractionStore.clamp. rewrite max_Fin, min_Fin. reflexivity. Qed.

Lemma clamp_within (v lo hi : R) :
  lo <= hi -> lo <= Rmin (Rmax v lo) hi <= hi.
Proof.
  intros H. unfold Rmin, Rmax.
  destruct (Rle_dec v lo); destruct (Rle_dec _ hi); lra.
Qed.

(** [Math.pow] of a base in (0, 1) to a positive power is again in (0, 1) *)
Lemma pow_Fin_damping (d y : R) :
  0 < d < 1 -> 0 < y ->
  pow (Fin d) (Fin y) = Fin (Rpower d y) /\ 0 < Rpower d y < 1.
Proof.
  intros [Hd0 Hd1] Hy. split.
  - unfold pow. destruct (Req_dec_T y 0); [lra|].
    destruct (Rlt_dec 0 d); [reflexivity|lra].
  - unfold Rpower. split; [apply exp_pos|].
    rewrite <- exp_0. apply exp_increasing.
    assert (Hln : ln d < 0).
    { rewrite <- ln_1. apply ln_increasing; lra. }
    replace 0 with (y * 0) by ring.
    apply Rmult_lt_compat_l; assumption.
Qed.

(** ** The interaction store *)

Section StoreFacts.
Import InteractionStore.

Lemma isNearZero_iff (v : CameraSpherical) :
  isNearZero v = true <->
  Lt (abs (theta v)) 1e-4 /\ Lt (abs (phi v)) 1e-4.
Proof. unfold isNearZero, Lt, VELOCITY_EPSILON. apply andb_true_iff. Qed.

Lemma isNearZero_Fin (vt vp : R) :
  isNearZero (mkSpherical vt vp) = true <-> Rabs vt < 1e-4 /\ Rabs vp < 1e-4.
Proof.
  rewrite isNearZero_iff. cbn [theta phi].
  split; intros [Ht Hp]; split; apply Lt_abs_Fin; assumption.
Qed.

Lemma endDrag_state (ts : num) (s : Store) :
  state (endDrag ts s) = if isNearZero (velocity s) then IDLE else INERTIA.
Proof. unfold endDrag. destruct (isNearZero (velocity s)); reflexivity. Qed.

Lemma endDrag_velocity (ts : num) (s : Store) :
  velocity (endDrag ts s) = velocity s.
Proof. unfold endDrag. destruct (isNearZero (velocity s)); reflexivity. Qed.

End StoreFacts.

(** C3.  After [endDrag(ts)], from any store state, the machine is IDLE
    exactly when both [|velocity.theta|] and [|velocity.phi|] are below
    [1e-4], and INERTIA otherwise; the velocity is kept, and the machine is
    never left DRAGGING. *)
Theorem C3_endDrag_leaves_idle_or_inertia
    (s : InteractionStore.Store) (ts : num) :
  let v := InteractionStore.velocity s in
  let s' := InteractionStore.endDrag ts s in
  let below_epsilon :=
    Lt (abs (InteractionStore.theta v)) 1e-4 /\
    Lt (abs (InteractionStore.phi v)) 1e-4 in
  (InteractionStore.state s' = InteractionStore.IDLE <-> below_epsilon) /\
  (InteractionStore.state s' = InteractionStore.INERTIA <-> ~ below_epsilon) /\
  InteractionStore.velocity s' = v /\
  InteractionStore.state s' <> InteractionStore.DRAGGING.
Proof.
  intros v s' below_epsilon. subst s' below_epsilon.
  rewrite endDrag_state, endDrag_velocity, <- isNearZero_iff. fold v.
  destruct (InteractionStore.isNearZero v); repeat split;
    intros; try discriminate; try reflexivity; try congruence.
Qed.

(** C10.  While the machine is not in INERTIA (it is IDLE or DRAGGING),
    [tickInertia(dtMs)] returns and leaves the whole store as it was, for
    every [dtMs]. *)
Theorem C10_tickInertia_only_in_inertia
    (s : InteractionStore.Store) (dtMs : num) :
  InteractionStore.state s <> InteractionStore.INERTIA ->
  InteractionStore.tickInertia dtMs s = Some s.
Proof.
  intros H. unfold InteractionStore.tickInertia.
  destruct (InteractionStore.state s); try reflexivity. contradiction.
Qed.

Lemma C10_tickInertia_only_in_inertia_witness :
  InteractionStore.state
    (InteractionStore.beginDrag 0 InteractionStore.initialState)
  <> InteractionStore.INERTIA /\
  InteractionStore.tickInertia 16
    (InteractionStore.beginDrag 0 InteractionStore.initialState)
  = Some (InteractionStore.beginDrag 0 InteractionStore.initialState).
Proof.
  assert (H : InteractionStore.state
                (InteractionStore.beginDrag 0 InteractionStore.initialState)
              <> InteractionStore.INERTIA) by (simpl; discriminate).
  split; [exact H|].
  apply (C10_tickInertia_only_in_inertia
           (InteractionStore.beginDrag 0 InteractionStore.initialState) 16 H).
Defined.

Lemma dragDtSec_Fin (dtMs : R) :
  InteractionStore.dragDtSec dtMs = Fin (Rmax (dtMs / 1000) 1e-6) /\
  1e-6 <= Rmax (dtMs / 1000) 1e-6.
Proof.
  split; [|apply Rmax_r].
  unfold InteractionStore.dragDtSec.
  rewrite div_Fin by lra. apply max_Fin.
Qed.

Lemma quotient_by_floored_divisor (a dtSec : R) :
  Rabs a <= 5e6 -> 1e-6 <= dtSec -> Rabs (a / dtSec) <= 1e13.
Proof.
  intros Ha Hdt.
  assert (Hpos : 0 < dtSec) by lra.
  assert (Hinv : 0 < / dtSec <= 1e6).
  { split; [apply Rinv_0_lt_compat; exact Hpos|].
    replace 1e6 with (/ 1e-6) by lra.
    apply Rinv_le_contravar; lra. }
  unfold Rdiv. rewrite Rabs_mult, (Rabs_pos_eq (/ dtSec)) by lra.
  pose proof (Rabs_pos a) as Ha0.
  apply Rle_trans with (r2 := 5e6 * 1e6); [|lra].
  apply Rmult_le_compat; lra.
Qed.

Lemma pixels_to_radians (px sens : R) :
  Rabs px <= 1e6 -> Rabs sens <= 1e3 -> Rabs (px * (sens * 0.005)) <= 5e6.
Proof.
  intros Hpx Hsens.
  rewrite !Rabs_mult, (Rabs_pos_eq 0.005) by lra.
  pose proof (Rabs_pos px) as H1. pose proof (Rabs_pos sens) as H2.
  apply Rle_trans with (r2 := 1e6 * (1e3 * 0.005)); [|lra].
  apply Rmult_le_compat; lra.
Qed.

(** C9, as amended.  In [updateDrag], for every pixel delta of magnitude at
    most 1e6 on each axis (with a drag sensitivity of magnitude at most 1e3
    and [target.theta] of magnitude at most 4) and for every [dtMs], zero
    and negative ones included, the divisor [dtSec] is at least [1e-6], so
    no division by zero takes place, the call returns, and both components
    of the velocity it stores are finite, of magnitude at most 1e13. *)
Theorem C9_updateDrag_velocity_finite
    (s : InteractionStore.Store) (dxPx dyPx dtMs sens th : R) :
  InteractionStore.dragSensitivity (InteractionStore.config s) = Fin sens ->
  InteractionStore.theta (InteractionStore.target s) = Fin th ->
  Rabs dxPx <= 1e6 -> Rabs dyPx <= 1e6 -> Rabs sens <= 1e3 -> Rabs th <= 4 ->
  exists (dtSec vTheta vPhi : R) (s' : InteractionStore.Store),
    InteractionStore.dragDtSec dtMs = Fin dtSec /\
    1e-6 <= dtSec /\
    InteractionStore.updateDrag dxPx dyPx dtMs s = Some s' /\
    InteractionStore.velocity s' =
      InteractionStore.mkSpherical (Fin vTheta) (Fin vPhi) /\
    Rabs vTheta <= 1e13 /\ Rabs vPhi <= 1e13.
Proof.
  intros Hsens Hth Hdx Hdy Hs _.
  destruct (dragDtSec_Fin dtMs) as [Hdt Hge].
  set (dtSec := Rmax (dtMs / 1000) 1e-6) in *.
  destruct (store_wrapTheta_finite (th + - dxPx * (sens * 0.005)))
    as (w & j & Hw & _ & _).
  exists dtSec, (- dxPx * (sens * 0.005) / dtSec),
    (dyPx * (sens * 0.005) / dtSec).
  unfold InteractionStore.updateDrag.
  rewrite Hsens, Hth, Hdt.
  unfold InteractionStore.DRAG_SENSITIVITY_TO_RAD_PER_PX.
  cbn [neg mul add]. rewrite Hw.
  rewrite !div_Fin by lra.
  eexists. split; [reflexivity|]. split; [assumption|].
  split; [reflexivity|]. split; [reflexivity|].
  split; apply quotient_by_floored_divisor; try assumption;
    apply pixels_to_radians; try assumption.
  rewrite Rabs_Ropp. assumption.
Qed.

Lemma C9_updateDrag_velocity_finite_witness :
  exists (dtSec vTheta vPhi : R) (s' : InteractionStore.Store),
    InteractionStore.dragDtSec 0 = Fin dtSec /\
    1e-6 <= dtSec /\
    InteractionStore.updateDrag 100 (-40) 0 InteractionStore.initialState
      = Some s' /\
    InteractionStore.velocity s' =
      InteractionStore.mkSpherical (Fin vTheta) (Fin vPhi) /\
    Rabs vTheta <= 1e13 /\ Rabs vPhi <= 1e13.
Proof.
  apply (C9_updateDrag_velocity_finite
           InteractionStore.initialState 100 (-40) 0 0.5 0 eq_refl eq_refl).
  - rewrite Rabs_pos_eq; lra.
  - rewrite Rabs_left; lra.
  - rewrite Rabs_pos_eq; lra.
  - rewrite Rabs_R0; lra.
Defined.

(** ** Inertial decay *)

Section Damping.
Import InteractionStore.

Variables d dt : R.
Hypothesis damping_range : 0 < d < 1.
Hypothesis dt_positive : 0 < dt.

Lemma damping_factor_range : 0 < Rpower d (dt / 16.67) < 1.
Proof.
  apply pow_Fin_damping; [assumption|].
  apply Rmult_lt_0_compat; [assumption|]. apply Rinv_0_lt_compat. lra.
Qed.

(** one frame of inertia on a store whose angles and velocity are finite:
    the velocity is scaled by the damping factor, and the machine stops
    exactly when the scaled velocity is below the threshold on both axes *)
Lemma tickInertia_frame (s : Store) (vt vp th : R) :
  state s = INERTIA ->
  velocity s = mkSpherical vt vp ->
  theta (target s) = Fin th ->
  damping (config s) = Fin d ->
  exists (s' : Store) (th' : R),
    tickInertia dt s = Some s' /\
    theta (target s') = Fin th' /\
    config s' = config s /\
    ((Rabs (vt * Rpower d (dt / 16.67)) < 1e-4 /\
      Rabs (vp * Rpower d (dt / 16.67)) < 1e-4 /\
      state s' = IDLE /\ velocity s' = mkSpherical 0 0) \/
     (~ (Rabs (vt * Rpower d (dt / 16.67)) < 1e-4 /\
         Rabs (vp * Rpower d (dt / 16.67)) < 1e-4) /\
      state s' = INERTIA /\
      velocity s' =
        mkSpherical (Fin (vt * Rpower d (dt / 16.67)))
                    (Fin (vp * Rpower d (dt / 16.67))))).
Proof.
  intros Hst Hv Hth Hd.
  pose proof damping_factor_range as Hf.
  set (f := Rpower d (dt / 16.67)) in *.
  assert (Hpow : pow (Fin d) (Fin dt / Fin 16.67)%js = Fin f).
  { rewrite div_Fin by lra. apply pow_Fin_damping; [assumption|].
    apply Rmult_lt_0_compat; [assumption|]. apply Rinv_0_lt_compat. lra. }
  destruct (store_wrapTheta_finite (th + vt * f * (dt / 1000)))
    as (w & j & Hw & _ & _).
  unfold tickInertia. rewrite Hst, Hv, Hth, Hd, Hpow.
  cbn [theta phi]. rewrite div_Fin by lra. cbn [mul add]. rewrite Hw.
  destruct (isNearZero (mkSpherical (Fin (vt * f)) (Fin (vp * f)))) eqn:Hnear.
  - apply isNearZero_Fin in Hnear. destruct Hnear as [Ht Hp].
    eexists. exists w. split; [reflexivity|].
    split; [reflexivity|]. split; [reflexivity|].
    left. repeat split; assumption.
  - eexists. exists w. split; [reflexivity|].
    split; [reflexivity|]. split; [reflexivity|].
    right. split; [|split; [assumption|reflexivity]].
    intros Hboth. apply isNearZero_Fin in Hboth. congruence.
Qed.

(** frames enough to bring both components below the threshold stop the
    machine *)
Lemma ticks_reach_idle :
  forall (N : nat) (s : Store) (vt vp th : R),
    state s = INERTIA ->
    velocity s = mkSpherical vt vp ->
    theta (target s) = Fin th ->
    damping (config s) = Fin d ->
    Rabs (vt * Rpower d (dt / 16.67) ^ N) < 1e-4 ->
    Rabs (vp * Rpower d (dt / 16.67) ^ N) < 1e-4 ->
    exists (n : nat) (s' : Store),
      ticks n dt s = Some s' /\
      velocity s' = mkSpherical 0 0 /\ state s' = IDLE.
Proof.
  pose proof damping_factor_range as Hf.
  set (f := Rpower d (dt / 16.67)) in *.
  assert (Hshrink : forall v : R, Rabs (v * f) <= Rabs v).
  { intros v. rewrite Rabs_mult, (Rabs_pos_eq f) by lra.
    pose proof (Rabs_pos v). nra. }
  induction N as [|N IH]; intros s vt vp th Hst Hv Hth Hd Ht Hp;
    destruct (tickInertia_frame s vt vp th Hst Hv Hth Hd)
      as (s1 & th1 & Htick & Hth1 & Hcfg & Hcase);
    fold f in Hcase.
  - exists 1%nat, s1. simpl. rewrite Htick.
    simpl in Ht, Hp. rewrite Rmult_1_r in Ht, Hp.
    destruct Hcase as [(_ & _ & Hidle & Hzero)|(Hfar & _)].
    + repeat split; assumption.
    + exfalso. apply Hfar.
      pose proof (Hshrink vt). pose proof (Hshrink vp). lra.
  - destruct Hcase as [(_ & _ & Hidle & Hzero)|(_ & Hinertia & Hvel)].
    + exists 1%nat, s1. simpl. rewrite Htick. repeat split; assumption.
    + destruct (IH s1 (vt * f) (vp * f) th1 Hinertia Hvel Hth1)
        as (n & s' & Hrun & Hzero & Hidle).
      * rewrite Hcfg. assumption.
      * simpl in Ht. replace (vt * f * f ^ N) with (vt * (f * f ^ N)) by ring.
        assumption.
      * simpl in Hp. replace (vp * f * f ^ N) with (vp * (f * f ^ N)) by ring.
        assumption.
      * exists (S n), s'. simpl. rewrite Htick. repeat split; assumption.
Qed.

End Damping.

(** over the reals every finite velocity decays below the threshold in
    finitely many frames *)
Lemma decay_reaches_idle
    (s : InteractionStore.Store) (vt vp th d dt : R) :
  InteractionStore.state s = InteractionStore.INERTIA ->
  InteractionStore.velocity s = InteractionStore.mkSpherical (Fin vt) (Fin vp) ->
  InteractionStore.theta (InteractionStore.target s) = Fin th ->
  InteractionStore.damping (InteractionStore.config s) = Fin d ->
  0 < d < 1 ->
  0 < dt ->
  exists (n : nat) (s' : InteractionStore.Store),
    InteractionStore.ticks n dt s = Some s' /\
    InteractionStore.velocity s' = InteractionStore.mkSpherical (Fin 0) (Fin 0) /\
    InteractionStore.state s' = InteractionStore.IDLE.
Proof.
  intros Hst Hv Hth Hd Hrange Hdt.
  pose proof (damping_factor_range d dt Hrange Hdt) as Hf.
  set (f := Rpower d (dt / 16.67)) in *.
  set (M := Rabs vt + Rabs vp + 1).
  pose proof (Rabs_pos vt) as Hvt. pose proof (Rabs_pos vp) as Hvp.
  assert (HM : 0 < M) by (unfold M; lra).
  assert (Hy : 0 < 1e-4 / M).
  { apply Rmult_lt_0_compat; [lra|]. apply Rinv_0_lt_compat. assumption. }
  destruct (pow_lt_1_zero f) with (y := 1e-4 / M) as [N HN].
  { rewrite Rabs_pos_eq; lra. }
  { assumption. }
  specialize (HN N (Nat.le_refl N)).
  assert (Hbound : forall v : R, Rabs v < M -> Rabs (v * f ^ N) < 1e-4).
  { intros v Hv'. rewrite Rabs_mult.
    pose proof (Rabs_pos v) as Hv0. pose proof (Rabs_pos (f ^ N)) as Hp0.
    apply Rle_lt_trans with (r2 := Rabs v * (1e-4 / M)).
    - apply Rmult_le_compat_l; lra.
    - apply Rlt_le_trans with (r2 := M * (1e-4 / M)).
      + apply Rmult_lt_compat_r; assumption.
      + right. field. lra. }
  apply (ticks_reach_idle d dt Hrange Hdt N s vt vp th Hst Hv Hth Hd).
  - apply Hbound. unfold M. lra.
  - apply Hbound. unfold M. lra.
Qed.

(** C4, as amended.  For every starting angular velocity of magnitude at
    most 1e6 on each axis, every damping constant in (0, 0.99] and every
    fixed [dtMs >= 1] (with [target.theta] of magnitude at most 4),
    repeatedly applying [tickInertia] from state INERTIA reaches, after
    finitely many iterations, a state with velocity exactly (0, 0) and
    machine state IDLE.  (Over the reals the bounds on the velocity and the
    angle play no part, and any damping below 1 and frame above 0 would do;
    they keep the statement to frames whose damping factor is below 1, and
    whose angle is wrapped, in binary64 as well.) *)
Theorem C4_inertia_comes_to_rest
    (s : InteractionStore.Store) (vt vp th d dt : R) :
  InteractionStore.state s = InteractionStore.INERTIA ->
  InteractionStore.velocity s = InteractionStore.mkSpherical (Fin vt) (Fin vp) ->
  InteractionStore.theta (InteractionStore.target s) = Fin th ->
  InteractionStore.damping (InteractionStore.config s) = Fin d ->
  Rabs vt <= 1e6 -> Rabs vp <= 1e6 -> Rabs th <= 4 ->
  0 < d <= 0.99 ->
  1 <= dt ->
  exists (n : nat) (s' : InteractionStore.Store),
    InteractionStore.ticks n dt s = Some s' /\
    InteractionStore.velocity s' = InteractionStore.mkSpherical (Fin 0) (Fin 0) /\
    InteractionStore.state s' = InteractionStore.IDLE.
Proof.
  intros Hst Hv Hth Hd _ _ _ Hrange Hdt.
  apply (decay_reaches_idle s vt vp th d dt Hst Hv Hth Hd); lra.
Qed.

Lemma C4_inertia_comes_to_rest_witness :
  exists (n : nat) (s' : InteractionStore.Store),
    InteractionStore.ticks n 16
      (InteractionStore.withVelocity
         (InteractionStore.mkSpherical (Fin (-15.625)) (Fin 2))
         (InteractionStore.withState InteractionStore.INERTIA
            InteractionStore.initialState))
    = Some s' /\
    InteractionStore.velocity s' = InteractionStore.mkSpherical (Fin 0) (Fin 0) /\
    InteractionStore.state s' = InteractionStore.IDLE.
Proof.
  apply (C4_inertia_comes_to_rest
           (InteractionStore.withVelocity
              (InteractionStore.mkSpherical (Fin (-15.625)) (Fin 2))
              (InteractionStore.withState InteractionStore.INERTIA
                 InteractionStore.initialState))
           (-15.625) 2 0 0.95 16 eq_refl eq_refl eq_refl eq_refl).
  - rewrite Rabs_left; lra.
  - rewrite Rabs_pos_eq; lra.
  - rewrite Rabs_R0; lra.
  - lra.
  - lra.
Defined.

(** ** The elevation clamp *)

Lemma add_NaN_r (a : num) : (a + NaN)%js = NaN.
Proof. destruct a; reflexivity. Qed.

Lemma store_wrapTheta_NaN : InteractionStore.wrapTheta NaN = Some NaN.
Proof. reflexivity. Qed.

Lemma clamp_NaN (lo hi : num) : InteractionStore.clamp NaN lo hi = NaN.
Proof. reflexivity. Qed.

Lemma isNearZero_NaN :
  InteractionStore.isNearZero (InteractionStore.mkSpherical NaN NaN) = false.
Proof. reflexivity. Qed.

Section ZeroFrameNudge.
Import InteractionStore.

(** a key nudge over a zero-length frame divides zero by zero on both axes:
    with [dtMs = 0] the angular deltas and [dtSec] are all zero, and the
    velocity stored is (NaN, NaN) *)
Lemma nudge_zero_dt_stores_NaN (s : Store) (xDir yDir : Dir) (sens th : R) :
  isZero xDir && isZero yDir = false ->
  dragSensitivity (config s) = Fin sens ->
  theta (target s) = Fin th ->
  exists s' : Store,
    nudgeOrbitFromKeys xDir yDir 0 s = Some s' /\
    velocity s' = mkSpherical NaN NaN /\
    config s' = config s /\
    state s' = match state s with IDLE => INERTIA | st => st end.
Proof.
  intros Hdir Hsens Hth.
  unfold nudgeOrbitFromKeys. rewrite Hdir, Hsens, Hth.
  unfold KEYBOARD_NUDGE_SPEED. rewrite div_Fin by lra.
  assert (Hx : (- dirNum xDir * (Fin 1.0 * Fin sens) * Fin (0 / 1000))%js = Fin 0).
  { destruct xDir; cbn [dirNum neg mul]; f_equal; lra. }
  assert (Hy : (dirNum yDir * (Fin 1.0 * Fin sens) * Fin (0 / 1000))%js = Fin 0).
  { destruct yDir; cbn [dirNum neg mul]; f_equal; lra. }
  rewrite Hx, Hy. cbn [add].
  destruct (store_wrapTheta_finite (th + 0)) as (w & j & Hw & _ & _).
  rewrite Hw.
  replace (Fin (0 / 1000)) with (Fin 0) by (f_equal; lra).
  rewrite div_zero_by_zero.
  eexists. split; [reflexivity|]. repeat split.
Qed.

(** once the velocity is NaN, a frame of inertia writes NaN into both
    angles of the target and the machine never comes to rest *)
Lemma tickInertia_NaN_velocity (s : Store) (dtMs : num) :
  state s = INERTIA ->
  velocity s = mkSpherical NaN NaN ->
  exists s' : Store,
    tickInertia dtMs s = Some s' /\
    target s' = mkSpherical NaN NaN /\
    config s' = config s /\
    velocity s' = mkSpherical NaN NaN /\
    state s' = INERTIA.
Proof.
  intros Hst Hv. unfold tickInertia. rewrite Hst, Hv.
  cbn [theta phi mul]. rewrite !add_NaN_r, store_wrapTheta_NaN, clamp_NaN.
  rewrite isNearZero_NaN.
  eexists. split; [reflexivity|]. cbn. rewrite Hst. repeat split.
Qed.

End ZeroFrameNudge.

(** C2, where the code breaks it.  From the initial store, under the default
    configuration, [nudgeOrbitFromKeys(1, 0, 0)] followed by one
    [tickInertia(16)] returns a store whose [target.phi] is NaN: it is neither
    at least [minPhi] nor at most [maxPhi].  [updateDrag] floors its divisor
    at [1e-6]; [nudgeOrbitFromKeys] divides by [dtMs / 1000] as it comes. *)
Theorem C2_zero_frame_nudge_escapes_clamp :
  exists s' : InteractionStore.Store,
    InteractionStore.run
      [InteractionStore.NudgeOrbitFromKeys
         InteractionStore.Plus InteractionStore.Zero 0;
       InteractionStore.TickInertia 16]
      InteractionStore.initialState = Some s' /\
    InteractionStore.config s' = InteractionStore.DEFAULT_CONFIG /\
    InteractionStore.phi (InteractionStore.target s') = NaN /\
    ~ InteractionStore.elevationClamped s'.
Proof.
  destruct (nudge_zero_dt_stores_NaN InteractionStore.initialState
              InteractionStore.Plus InteractionStore.Zero 0.5 0
              eq_refl eq_refl eq_refl)
    as (s1 & Hnudge & Hv1 & Hcfg1 & Hst1).
  destruct (tickInertia_NaN_velocity s1 16 Hst1 Hv1)
    as (s2 & Htick & Htarget & Hcfg2 & _ & _).
  exists s2. unfold InteractionStore.run, InteractionStore.dispatch.
  rewrite Hnudge, Htick. split; [reflexivity|].
  split; [rewrite Hcfg2; exact Hcfg1|].
  split; [rewrite Htarget; reflexivity|].
  unfold InteractionStore.elevationClamped. rewrite Htarget.
  intros [_ Hle]. discriminate Hle.
Qed.

Section ClampInvariant.
Import InteractionStore.

Lemma elevationLimits_Fin (c : InteractionConfig) (lo hi : R) :
  minElevationDeg c = Fin lo ->
  maxElevationDeg c = Fin hi ->
  getElevationLimits c = mkLimits (Fin (lo * PI / 180)) (Fin (hi * PI / 180)).
Proof.
  intros Hlo Hhi. unfold getElevationLimits.
  rewrite Hlo, Hhi, !degToRad_Fin. reflexivity.
Qed.

(** a store whose [target.phi] was just clamped is within the limits *)
Lemma clamped_after_update (s' : Store) (lo hi w x : R) :
  minElevationDeg (config s') = Fin lo ->
  maxElevationDeg (config s') = Fin hi ->
  lo <= hi ->
  target s' =
    mkSpherical (Fin w)
      (clamp (Fin x) (Fin (lo * PI / 180)) (Fin (hi * PI / 180))) ->
  elevationClamped s' /\
  exists ph : R, target s' = mkSpherical (Fin w) (Fin ph).
Proof.
  intros Hlo Hhi Hle Ht.
  pose proof PI_RGT_0 as Hpi.
  assert (Hlim : lo * PI / 180 <= hi * PI / 180) by nra.
  pose proof (clamp_within x _ _ Hlim) as [Hl Hh].
  rewrite clamp_Fin in Ht.
  split; [|eexists; exact Ht].
  unfold elevationClamped.
  rewrite (elevationLimits_Fin _ lo hi Hlo Hhi), Ht.
  cbn [minPhi maxPhi phi]. split; apply le_Fin_true; assumption.
Qed.

(** every call with finite arguments, key nudges over a zero-length frame
    excepted, returns and keeps the configuration, the finiteness of the
    motion and the elevation clamp *)
Lemma dispatch_keeps_clamp (a : Action) (s : Store) :
  finiteConfig (config s) ->
  finiteMotion s ->
  elevationClamped s ->
  finiteAction a ->
  exists s' : Store,
    dispatch a s = Some s' /\
    config s' = config s /\ finiteMotion s' /\ elevationClamped s'.
Proof.
  intros (sens & d & lo & hi & Hsens & Hd & Hlo & Hhi & Hdpos & Hle)
         (th & ph & vt & vp & Ht & Hv) Hclamp Hact.
  pose proof (elevationLimits_Fin _ lo hi Hlo Hhi) as Hlim.
  destruct a as [ts|dxPx dyPx dtMs|ts|dtMs|xDir yDir dtMs]; cbn [dispatch].
  - (* beginDrag *)
    eexists. split; [reflexivity|]. split; [reflexivity|]. split.
    + exists th, ph, 0, 0. split; [exact Ht|reflexivity].
    + exact Hclamp.
  - (* updateDrag *)
    destruct Hact as (dx & dy & dt & -> & -> & ->).
    destruct (dragDtSec_Fin dt) as [Hdt Hge].
    destruct (store_wrapTheta_finite (th + - dx * (sens * 0.005)))
      as (w & j & Hw & _ & _).
    unfold updateDrag. rewrite Hsens, Hlim, Ht, Hdt.
    unfold DRAG_SENSITIVITY_TO_RAD_PER_PX.
    cbn [neg mul add theta phi minPhi maxPhi]. rewrite Hw.
    rewrite !div_Fin by lra.
    eexists. split; [reflexivity|]. split; [reflexivity|].
    destruct (clamped_after_update
                (withVelocity
                   (mkSpherical
                      (Fin (- dx * (sens * 0.005) / Rmax (dt / 1000) 1e-6))
                      (Fin (dy * (sens * 0.005) / Rmax (dt / 1000) 1e-6)))
                   (withTarget
                      (mkSpherical (Fin w)
                         (clamp (Fin (ph + dy * (sens * 0.005)))
                            (Fin (lo * PI / 180)) (Fin (hi * PI / 180))))
                      s))
                lo hi w (ph + dy * (sens * 0.005)) Hlo Hhi Hle eq_refl)
      as [Hc (ph' & Ht')].
    split; [|exact Hc].
    exists w, ph'. eexists. eexists. split; [exact Ht'|reflexivity].
  - (* endDrag *)
    eexists. split; [reflexivity|].
    unfold endDrag. destruct (isNearZero (velocity s)).
    + split; [reflexivity|]. split; [|exact Hclamp].
      exists th, ph, vt, vp. split; assumption.
    + split; [reflexivity|]. split; [|exact Hclamp].
      exists th, ph, vt, vp. split; assumption.
  - (* tickInertia *)
    destruct Hact as (dt & ->).
    unfold tickInertia. destruct (state s) eqn:Hst.
    + eexists. split; [reflexivity|]. split; [reflexivity|].
      split; [exists th, ph, vt, vp; split; assumption|exact Hclamp].
    + eexists. split; [reflexivity|]. split; [reflexivity|].
      split; [exists th, ph, vt, vp; split; assumption|exact Hclamp].
    + assert (Hpow : exists f : R, pow (Fin d) (Fin dt / Fin 16.67)%js = Fin f).
      { rewrite div_Fin by lra. unfold pow.
        destruct (Req_dec_T (dt / 16.67) 0); [eexists; reflexivity|].
        destruct (Rlt_dec 0 d); [eexists; reflexivity|lra]. }
      destruct Hpow as [f Hpow].
      destruct (store_wrapTheta_finite (th + vt * f * (dt / 1000)))
        as (w & j & Hw & _ & _).
      rewrite Hd, Hpow, Hlim, Ht, Hv.
      cbn [theta phi minPhi maxPhi]. rewrite div_Fin by lra.
      cbn [mul add]. rewrite Hw.
      destruct (isNearZero _).
      * eexists. split; [reflexivity|]. split; [reflexivity|].
        destruct (clamped_after_update
                    (withVelocity (mkSpherical (Fin 0) (Fin 0))
                       (withTarget
                          (mkSpherical (Fin w)
                             (clamp (Fin (ph + vp * f * (dt / 1000)))
                                (Fin (lo * PI / 180)) (Fin (hi * PI / 180))))
                          (withState IDLE s)))
                    lo hi w (ph + vp * f * (dt / 1000)) Hlo Hhi Hle eq_refl)
          as [Hc (ph' & Ht')].
        split; [|exact Hc].
        exists w, ph'. eexists. eexists. split; [exact Ht'|reflexivity].
      * eexists. split; [reflexivity|]. split; [reflexivity|].
        destruct (clamped_after_update
                    (withVelocity (mkSpherical (Fin (vt * f)) (Fin (vp * f)))
                       (withTarget
                          (mkSpherical (Fin w)
                             (clamp (Fin (ph + vp * f * (dt / 1000)))
                                (Fin (lo * PI / 180)) (Fin (hi * PI / 180))))
                          s))
                    lo hi w (ph + vp * f * (dt / 1000)) Hlo Hhi Hle eq_refl)
          as [Hc (ph' & Ht')].
        split; [|exact Hc].
        exists w, ph'. eexists. eexists. split; [exact Ht'|reflexivity].
  - (* nudgeOrbitFromKeys *)
    destruct Hact as (dt & -> & Hdt).
    unfold nudgeOrbitFromKeys. destruct (isZero xDir && isZero yDir).
    + eexists. split; [reflexivity|]. split; [reflexivity|].
      split; [exists th, ph, vt, vp; split; assumption|exact Hclamp].
    + assert (Hx : exists kx : R, dirNum xDir = Fin kx)
        by (destruct xDir; eexists; reflexivity).
      assert (Hy : exists ky : R, dirNum yDir = Fin ky)
        by (destruct yDir; eexists; reflexivity).
      destruct Hx as [kx Hx]. destruct Hy as [ky Hy].
      destruct (store_wrapTheta_finite (th + - kx * (1.0 * sens) * (dt / 1000)))
        as (w & j & Hw & _ & _).
      rewrite Hsens, Hlim, Ht, Hx, Hy. unfold KEYBOARD_NUDGE_SPEED.
      rewrite div_Fin by lra.
      cbn [neg mul add theta phi minPhi maxPhi]. rewrite Hw.
      rewrite !div_Fin by lra.
      eexists. split; [reflexivity|]. split; [reflexivity|].
      destruct (clamped_after_update
                  (withState (match state s with IDLE => INERTIA | st => st end)
                     (withVelocity
                        (mkSpherical
                           (Fin (- kx * (1.0 * sens) * (dt / 1000) / (dt / 1000)))
                           (Fin (ky * (1.0 * sens) * (dt / 1000) / (dt / 1000))))
                        (withTarget
                           (mkSpherical (Fin w)
                              (clamp
                                 (Fin (ph + ky * (1.0 * sens) * (dt / 1000)))
                                 (Fin (lo * PI / 180)) (Fin (hi * PI / 180))))
                           s)))
                  lo hi w (ph + ky * (1.0 * sens) * (dt / 1000))
                  Hlo Hhi Hle eq_refl)
        as [Hc (ph' & Ht')].
      split; [|exact Hc].
      exists w, ph'. eexists. eexists. split; [exact Ht'|reflexivity].
Qed.

End ClampInvariant.

(** along every run of calls with finite arguments in which no key nudge
    has [dtMs = 0], from a store with finite motion and a finite
    configuration whose limits are ordered, [target.phi] stays within
    [minPhi, maxPhi] *)
Lemma elevation_clamp_along_runs :
  forall (actions : list InteractionStore.Action) (s : InteractionStore.Store),
    InteractionStore.finiteConfig (InteractionStore.config s) ->
    InteractionStore.finiteMotion s ->
    InteractionStore.elevationClamped s ->
    Forall InteractionStore.finiteAction actions ->
    exists s' : InteractionStore.Store,
      InteractionStore.run actions s = Some s' /\
      InteractionStore.config s' = InteractionStore.config s /\
      InteractionStore.elevationClamped s'.
Proof.
  induction actions as [|a rest IH]; intros s Hcfg Hmotion Hclamp Hacts.
  - exists s. split; [reflexivity|]. split; [reflexivity|assumption].
  - inversion Hacts as [|? ? Ha Hrest]; subst.
    destruct (dispatch_keeps_clamp a s Hcfg Hmotion Hclamp Ha)
      as (s1 & Hstep & Hcfg1 & Hmotion1 & Hclamp1).
    destruct (IH s1) as (s' & Hrun & Hcfg' & Hclamp'); try assumption.
    { rewrite Hcfg1. assumption. }
    exists s'. cbn [InteractionStore.run]. rewrite Hstep.
    split; [assumption|]. split; [|assumption].
    rewrite Hcfg'. assumption.
Qed.

(** in particular from the initial store, under the default configuration *)
Lemma elevation_clamp_from_initial_state
    (actions : list InteractionStore.Action) :
  Forall InteractionStore.finiteAction actions ->
  exists s' : InteractionStore.Store,
    InteractionStore.run actions InteractionStore.initialState = Some s' /\
    InteractionStore.elevationClamped s'.
Proof.
  intros Hacts. pose proof PI_RGT_0 as Hpi.
  destruct (elevation_clamp_along_runs actions InteractionStore.initialState)
    as (s' & Hrun & _ & Hclamp); try assumption.
  - exists 0.5, 0.95, (-60), 60. repeat split; try reflexivity; lra.
  - exists 0, 0, 0, 0. split; reflexivity.
  - unfold InteractionStore.elevationClamped, InteractionStore.initialState.
    cbn [InteractionStore.config InteractionStore.target InteractionStore.phi].
    rewrite (elevationLimits_Fin InteractionStore.DEFAULT_CONFIG (-60) 60
               eq_refl eq_refl).
    split; apply le_Fin_true; lra.
  - exists s'. split; assumption.
Qed.

(** ** Evaluation outside a browser *)

(** C8, as amended.  Where [window] or [window.document] is missing, both
    revisions of [evaluateDeviceCaps] return, without throwing, the capabilities
    [isWebGLAvailable = false], [webglVersion = 0], [isMobile = false],
    [dpr = 1], [clampedDpr = 1], [fpsEstimate = 0], [tier = LOW] with the LOW
    configuration, and the reason "Server-side rendering environment". *)
Theorem C8_evaluate_outside_browser (env : Host.Env) :
  DeviceCapsCommon.isBrowser env = false ->
  let fallback :=
    DeviceCapsCommon.mkDeviceCaps
      false DeviceCapsCommon.V0 (Some "Server-side rendering environment"%string)
      false 1 1 (Some (Fin 0)) QualityTiers.LOW
      (QualityTiers.getQualityConfig QualityTiers.LOW) in
  DeviceCaps.evaluateDeviceCaps env = Host.Returns fallback /\
  DeviceCapsRev.evaluateDeviceCaps env = Host.Returns fallback.
Proof.
  intros Hssr. destruct env; try discriminate; split; reflexivity.
Qed.

Lemma C8_evaluate_outside_browser_witness :
  DeviceCapsCommon.isBrowser Host.NoWindow = false /\
  DeviceCaps.evaluateDeviceCaps Host.NoWindow =
    Host.Returns
      (DeviceCapsCommon.mkDeviceCaps
         false DeviceCapsCommon.V0
         (Some "Server-side rendering environment"%string)
         false 1 1 (Some (Fin 0)) QualityTiers.LOW
         (QualityTiers.getQualityConfig QualityTiers.LOW)).
Proof.
  split; [reflexivity|].
  exact (proj1 (C8_evaluate_outside_browser Host.NoWindow eq_refl)).
Defined.

(** C8, as stated, fails on the reason: outside a browser the reason
    returned is "Server-side rendering environment", not
    "non-interactive environment". *)
Lemma C8_reason_outside_browser :
  exists caps : DeviceCapsCommon.DeviceCaps,
    DeviceCaps.evaluateDeviceCaps Host.NoWindow = Host.Returns caps /\
    DeviceCapsRev.evaluateDeviceCaps Host.NoWindow = Host.Returns caps /\
    DeviceCapsCommon.reason caps
      = Some "Server-side rendering environment"%string /\
    DeviceCapsCommon.reason caps <> Some "non-interactive environment"%string.
Proof.
  eexists. split; [reflexivity|]. split; [reflexivity|].
  split; [reflexivity|discriminate].
Qed.

(** ** The star field *)

Section StarfieldFuel.
Import Starfield.

Lemma marsaglia_more_fuel :
  forall (n m : nat) (random : Random) (r : num * num * num * Random),
    marsaglia n random = Some r -> marsaglia (n + m) random = Some r.
Proof.
  induction n as [|n IH]; intros m random r H.
  - discriminate.
  - cbn [marsaglia Nat.add] in *.
    destruct (call random) as [u1 random1].
    destruct (call random1) as [u2 random2].
    destruct (_ >=? _)%js; [apply IH; assumption | assumption].
Qed.

Lemma starLoop_more_fuel :
  forall (n m : nat) (i count radius : num) (random : Random)
         (positions : list Vector3) (r : list Vector3 * Random),
    starLoop n i count radius random positions = Some r ->
    starLoop (n + m) i count radius random positions = Some r.
Proof.
  induction n as [|n IH]; intros m i count radius random positions r H.
  - discriminate.
  - cbn [starLoop Nat.add] in *.
    destruct (i <? count)%js; [|assumption].
    destruct (marsaglia n random) as [[[[x1 x2] w] random2]|] eqn:Hm;
      [|discriminate].
    rewrite (marsaglia_more_fuel n m random _ Hm).
    destruct (call random2) as [u3 random3].
    destruct (call random3) as [u4 random4].
    apply IH. assumption.
Qed.

(** two runs of the generator that both finish agree on the positions and
    on the generator they leave behind *)
Lemma generateStarPositions_deterministic
    (fuel1 fuel2 : nat) (count radius : num) (random : Random)
    (r1 r2 : list Vector3 * Random) :
  generateStarPositions fuel1 count radius random = Some r1 ->
  generateStarPositions fuel2 count radius random = Some r2 ->
  r1 = r2.
Proof.
  unfold generateStarPositions. intros H1 H2.
  apply (starLoop_more_fuel fuel1 fuel2) in H1.
  apply (starLoop_more_fuel fuel2 fuel1) in H2.
  rewrite Nat.add_comm in H2. congruence.
Qed.

End StarfieldFuel.

(** the generator on integer states: the default seed 1337 *)

Section LehmerSteps.
Import Starfield.

Lemma trunc_quotient (a m : Z) :
  (0 <= a)%Z -> (0 < m)%Z -> trunc (IZR a / IZR m) = (a / m)%Z.
Proof.
  intros Ha Hm.
  pose proof (Z.div_mod a m ltac:(lia)) as Hdiv.
  pose proof (Z.mod_pos_bound a m Hm) as Hmod.
  assert (HmR : 0 < IZR m) by (apply IZR_lt; assumption).
  assert (Hq : IZR a / IZR m = IZR (a / m) + IZR (a mod m) / IZR m).
  { rewrite Hdiv at 1. rewrite plus_IZR, mult_IZR. field. lra. }
  assert (Hfrac : 0 <= IZR (a mod m) / IZR m < 1).
  { split.
    - apply Rmult_le_pos; [apply IZR_le; lia|].
      left. apply Rinv_0_lt_compat. assumption.
    - apply Rmult_lt_reg_r with (r := IZR m); [assumption|].
      replace (IZR (a mod m) / IZR m * IZR m) with (IZR (a mod m))
        by (field; lra).
      rewrite Rmult_1_l. apply IZR_lt. lia. }
  assert (Hpos : (0 <= a / m)%Z) by (apply Z.div_pos; lia).
  apply IZR_le in Hpos.
  unfold trunc. destruct (Rle_dec 0 (IZR a / IZR m)) as [_|Hneg]; [|lra].
  symmetry. apply Int_part_spec. lra.
Qed.

Lemma rem_IZR (a m : Z) :
  (0 <= a)%Z -> (0 < m)%Z ->
  (Fin (IZR a) %% Fin (IZR m))%js = Fin (IZR (a mod m)).
Proof.
  intros Ha Hm. unfold rem.
  assert (HmR : 0 < IZR m) by (apply IZR_lt; assumption).
  destruct (Req_dec_T (IZR m) 0); [lra|].
  rewrite trunc_quotient by assumption. f_equal.
  pose proof (Z.div_mod a m ltac:(lia)) as Hdiv.
  rewrite Hdiv at 1. rewrite plus_IZR, mult_IZR. ring.
Qed.

Lemma call_IZR (s : Z) :
  (0 <= s)%Z ->
  call (Fin (IZR s)) =
    (Fin ((IZR ((s * 16807) mod 2147483647) - 1) / 2147483646),
     Fin (IZR ((s * 16807) mod 2147483647))).
Proof.
  intros Hs. unfold call. cbn [mul]. rewrite <- mult_IZR.
  rewrite rem_IZR by lia. cbn [sub add neg]. rewrite div_Fin by lra.
  reflexivity.
Qed.

Lemma createSeededRandom_1337 : createSeededRandom 1337 = Fin 1337.
Proof.
  unfold createSeededRandom. rewrite rem_IZR by lia.
  change (1337 mod 2147483647)%Z with 1337%Z.
  rewrite (proj2 (le_Fin_false 1337 0)) by lra. reflexivity.
Qed.

Lemma marsaglia_unfold (n : nat) (random : Random) :
  marsaglia (S n) random =
    let (u1, random1) := call random in
    let (u2, random2) := call random1 in
    let x1 := (2.0 * u1 - 1.0)%js in
    let x2 := (2.0 * u2 - 1.0)%js in
    let w := (x1 * x1 + x2 * x2)%js in
    if (w >=? 1.0)%js then marsaglia n random2 else Some (x1, x2, w, random2).
Proof. reflexivity. Qed.

(** evaluate the calls of the generator on integer states *)
Ltac lehmer_step :=
  match goal with
  | |- context [call (Fin (IZR ?s))] =>
      rewrite (call_IZR s) by lia;
      let v := eval vm_compute in ((s * 16807) mod 2147483647)%Z in
      change ((s * 16807) mod 2147483647)%Z with v;
      cbv beta iota zeta
  end.

Lemma marsaglia_1337 :
  exists x1 x2 w : num,
    marsaglia 2 (Fin 1337) = Some (x1, x2, w, Fin 462195135).
Proof.
  rewrite marsaglia_unfold. do 2 lehmer_step. cbn [mul sub add neg].
  rewrite (proj2 (ge_Fin_true _ _)) by lra.
  rewrite marsaglia_unfold. do 2 lehmer_step. cbn [mul sub add neg].
  rewrite (proj2 (ge_Fin_false _ _)) by lra.
  do 3 eexists. reflexivity.
Qed.

(** one star from the default seed: the run draws six numbers and leaves
    the generator it was given at the sixth state, so a second run on that
    same generator would not start from the seed again *)
Lemma generateStarPositions_1337 :
  exists position : Vector3,
    generateStarPositions 3 1 60 (createSeededRandom 1337)
    = Some ([position], Fin 1607245740).
Proof.
  destruct marsaglia_1337 as (x1 & x2 & w & Hm).
  rewrite createSeededRandom_1337.
  unfold generateStarPositions. cbn [starLoop].
  rewrite (proj2 (lt_Fin_true 0 1)) by lra.
  rewrite Hm. do 2 lehmer_step.
  cbn [add]. rewrite (proj2 (lt_Fin_false (0 + 1) 1)) by lra.
  eexists. reflexivity.
Qed.

End LehmerSteps.

(** * Further properties *)

(** ** Tier decision and capability evaluation *)

Lemma Le_Fin (a b : R) : Le (Fin a) (Fin b) <-> a <= b.
Proof. apply Rleb_true. Qed.

Lemma Lt_Fin (a b : R) : Lt (Fin a) (Fin b) <-> a < b.
Proof. apply Rltb_true. Qed.

(** X1.  The particle budget never shrinks when the measured frame rate
    grows: for [fps1 <= fps2] and either device class, the tier decided for
    [fps1] has at most the particles of the tier decided for [fps2], in both
    revisions of [decideTier]. *)
Theorem X1_particle_budget_monotone (fps1 fps2 : R) (isMobile : bool) :
  fps1 <= fps2 ->
  Le (QualityTiers.particles
        (QualityTiers.getQualityConfig (DeviceCaps.decideTier fps1 isMobile)))
     (QualityTiers.particles
        (QualityTiers.getQualityConfig (DeviceCaps.decideTier fps2 isMobile))) /\
  Le (QualityTiers.particles
        (QualityTiers.getQualityConfig (DeviceCapsRev.decideTier fps1 isMobile)))
     (QualityTiers.particles
        (QualityTiers.getQualityConfig (DeviceCapsRev.decideTier fps2 isMobile))).
Proof.
  intros Hle.
  unfold DeviceCaps.decideTier, DeviceCapsRev.decideTier.
  destruct isMobile; js_unfold; split_cmp; try lra;
    (split; apply Le_Fin; lra).
Qed.

Lemma X1_particle_budget_monotone_witness :
  39 <= 60 /\
  Le (QualityTiers.particles
        (QualityTiers.getQualityConfig (DeviceCaps.decideTier 39 false)))
     (QualityTiers.particles
        (QualityTiers.getQualityConfig (DeviceCaps.decideTier 60 false))).
Proof.
  assert (H : 39 <= 60) by lra.
  split; [exact H|].
  exact (proj1 (X1_particle_budget_monotone 39 60 false H)).
Defined.

(** X2.  At the same frame rate the revision that caps its benchmark never
    gives a mobile device more particles than a desktop; the revision under
    [utils/deviceCaps.ts] does, exactly for [35 <= fps < 40], where mobile is
    MEDIUM and desktop is LOW. *)
Theorem X2_mobile_against_desktop (fps : R) :
  Le (QualityTiers.particles
        (QualityTiers.getQualityConfig (DeviceCapsRev.decideTier fps true)))
     (QualityTiers.particles
        (QualityTiers.getQualityConfig (DeviceCapsRev.decideTier fps false))) /\
  (Lt (QualityTiers.particles
         (QualityTiers.getQualityConfig (DeviceCaps.decideTier fps false)))
      (QualityTiers.particles
         (QualityTiers.getQualityConfig (DeviceCaps.decideTier fps true)))
   <-> 35 <= fps < 40) /\
  (35 <= fps < 40 <->
   DeviceCaps.decideTier fps true = QualityTiers.MEDIUM /\
   DeviceCaps.decideTier fps false = QualityTiers.LOW).
Proof.
  unfold DeviceCaps.decideTier, DeviceCapsRev.decideTier.
  js_unfold; split_cmp; try lra;
    cbn [QualityTiers.particles QualityTiers.getQualityConfig
         QualityTiers.QUALITY_CONFIG];
    (split; [apply Le_Fin; lra|]);
    (split; [rewrite Lt_Fin; split; intros; lra|]);
    (split; [intros; split; (reflexivity || (exfalso; lra))
            | intros [? ?]; try discriminate; lra]).
Qed.

Section EvaluateAnyRevision.
Import QualityTiers Host DeviceCapsCommon.

Variable decideTier : num -> bool -> QualityTier.
Variable benchmarkFps : Env -> Completion num.
Hypothesis mobile_cap : forall fps : num, decideTier fps true <> HIGH.

Lemma numOr_one (x : num) : numOr x 1 <> NaN /\ numOr x 1 <> Fin 0.
Proof.
  unfold numOr. destruct x as [r| | |]; try (split; discriminate).
  - destruct (Req_dec_T r 0) as [Hz|Hnz]; split; try discriminate.
    + intros H. injection H. lra.
    + intros H. injection H. exact Hnz.
  - split; [discriminate|]. intros H. injection H. lra.
Qed.

Lemma detect_consistent (env : Env) :
  let r := detectWebGLVersion env in
  (available r = false <-> version r = V0) /\
  (available r = false <-> failure r <> None) /\
  failure r <> Some EmptyString.
Proof.
  unfold detectWebGLVersion. destruct env as [| |b]; cbn;
    try (repeat split; intros; congruence).
  destruct (getContext b "webgl2") as [| |e2]; cbn;
    try (repeat split; intros; try congruence; destruct e2; discriminate).
  destruct (getContext b "webgl") as [| |e1]; cbn;
    try (repeat split; intros; try congruence; destruct e1; discriminate).
  destruct (getContext b "experimental-webgl") as [| |e0]; cbn;
    try (repeat split; intros; try congruence; destruct e0; discriminate).
Qed.

Lemma stringOr_nonempty (x : option string) (fallback : string) :
  fallback <> EmptyString -> stringOr x fallback <> EmptyString.
Proof.
  intros Hf. unfold stringOr. destruct x as [[|c s]|]; try assumption.
  discriminate.
Qed.

Ltac caps_fields :=
  cbn [isWebGLAvailable webglVersion reason isMobile dpr clampedDpr
       fpsEstimate tier config].

Lemma evaluate_consistent (env : Env) (caps : DeviceCaps) :
  evaluateDeviceCaps decideTier benchmarkFps env = Returns caps ->
  config caps = getQualityConfig (tier caps) /\
  clampedDpr caps = clampDpr (dpr caps) (isMobile caps) /\
  (isMobile caps = true -> tier caps <> HIGH) /\
  dpr caps <> NaN /\ dpr caps <> Fin 0.
Proof.
  assert (Hssr : clampDpr 1 false = Fin 1).
  { unfold clampDpr. cbn [dprCapDesktop QUALITY_CONFIG].
    unfold min, lt, Rltb. destruct (Rlt_dec 2.0 1); [lra|reflexivity]. }
  assert (Hone : Fin 1 <> Fin 0) by (intros H; injection H; lra).
  unfold evaluateDeviceCaps. destruct env as [| |b].
  - intros H. injection H as <-. caps_fields.
    split; [reflexivity|]. split; [symmetry; exact Hssr|].
    split; [discriminate|]. split; [discriminate|exact Hone].
  - intros H. injection H as <-. caps_fields.
    split; [reflexivity|]. split; [symmetry; exact Hssr|].
    split; [discriminate|]. split; [discriminate|exact Hone].
  - destruct (numOr_one (devicePixelRatio b)) as [Hnan Hzero].
    set (r := detectWebGLVersion (Window b)).
    set (m := isMobileUA (Window b)).
    cbv zeta. destruct (available r); cbn [negb].
    + destruct (benchmarkFps (Window b)) as [fpsEstimate|e]; [|discriminate].
      intros H. injection H as <-. caps_fields.
      split; [reflexivity|]. split; [reflexivity|].
      split; [|split; assumption].
      intros Hm. rewrite Hm. apply mobile_cap.
    + intros H. injection H as <-. caps_fields.
      split; [reflexivity|]. split; [reflexivity|].
      split; [discriminate|split; assumption].
Qed.

Lemma evaluate_availability (env : Env) (caps : DeviceCaps) :
  evaluateDeviceCaps decideTier benchmarkFps env = Returns caps ->
  (isWebGLAvailable caps = false <-> webglVersion caps = V0) /\
  (isWebGLAvailable caps = false <-> reason caps <> None) /\
  reason caps <> Some EmptyString /\
  (isWebGLAvailable caps = false ->
   tier caps = LOW /\ fpsEstimate caps = Some (Fin 0)).
Proof.
  unfold evaluateDeviceCaps. destruct env as [| |b].
  - intros H. injection H as <-. caps_fields.
    split; [split; reflexivity|]. split; [split; [discriminate|reflexivity]|].
    split; [discriminate|]. intros _. split; reflexivity.
  - intros H. injection H as <-. caps_fields.
    split; [split; reflexivity|]. split; [split; [discriminate|reflexivity]|].
    split; [discriminate|]. intros _. split; reflexivity.
  - pose proof (detect_consistent (Window b)) as (Hv & Hf & Hne).
    cbv zeta in Hv, Hf, Hne.
    set (r := detectWebGLVersion (Window b)) in *.
    set (m := isMobileUA (Window b)).
    cbv zeta. destruct (available r) eqn:Hav; cbn [negb].
    + destruct (benchmarkFps (Window b)) as [fpsEstimate|e]; [|discriminate].
      intros H. injection H as <-. caps_fields.
      split; [split; [discriminate|]|].
      { intros Hz. apply Hv in Hz. discriminate. }
      split; [split; [discriminate|]|].
      { intros Hc. exfalso. apply Hc. reflexivity. }
      split; [discriminate|]. discriminate.
    + intros H. injection H as <-. caps_fields.
      split; [split; [intros _; apply Hv; reflexivity|reflexivity]|].
      split; [split; [discriminate|reflexivity]|].
      split; [|intros _; split; reflexivity].
      intros Hc. injection Hc. apply stringOr_nonempty. discriminate.
Qed.

End EvaluateAnyRevision.

(** X3.  Whatever the environment, the capabilities [evaluateDeviceCaps]
    returns (in either revision) are coherent: [config] is the configuration
    of [tier], [clampedDpr] is [clampDpr(dpr, isMobile)], a device detected as
    mobile never has the HIGH tier, and [dpr] is neither NaN nor 0 (a missing
    or zero [devicePixelRatio] is replaced by 1). *)
Theorem X3_evaluated_caps_coherent
    (env : Host.Env) (caps : DeviceCapsCommon.DeviceCaps) :
  DeviceCaps.evaluateDeviceCaps env = Host.Returns caps \/
  DeviceCapsRev.evaluateDeviceCaps env = Host.Returns caps ->
  DeviceCapsCommon.config caps
    = QualityTiers.getQualityConfig (DeviceCapsCommon.tier caps) /\
  DeviceCapsCommon.clampedDpr caps
    = QualityTiers.clampDpr (DeviceCapsCommon.dpr caps)
                            (DeviceCapsCommon.isMobile caps) /\
  (DeviceCapsCommon.isMobile caps = true ->
   DeviceCapsCommon.tier caps <> QualityTiers.HIGH) /\
  DeviceCapsCommon.dpr caps <> NaN /\
  DeviceCapsCommon.dpr caps <> Fin 0.
Proof.
  intros [H|H].
  - apply (evaluate_consistent DeviceCaps.decideTier DeviceCaps.benchmarkFps)
      with (env := env); [|exact H].
    intros fps. apply decideTier_mobile_never_high.
  - apply (evaluate_consistent DeviceCapsRev.decideTier DeviceCapsRev.benchmarkFps)
      with (env := env); [|exact H].
    intros fps. apply decideTier_mobile_never_high.
Qed.

Lemma X3_evaluated_caps_coherent_witness :
  exists caps : DeviceCapsCommon.DeviceCaps,
    DeviceCapsRev.evaluateDeviceCaps Host.NoDocument = Host.Returns caps /\
    DeviceCapsCommon.config caps
      = QualityTiers.getQualityConfig (DeviceCapsCommon.tier caps) /\
    DeviceCapsCommon.dpr caps <> Fin 0.
Proof.
  eexists. split; [reflexivity|].
  pose proof (X3_evaluated_caps_coherent Host.NoDocument _
                (or_intror eq_refl)) as (Hc & _ & _ & _ & Hz).
  split; [exact Hc|exact Hz].
Defined.

(** X4.  In the capabilities [evaluateDeviceCaps] returns (either revision),
    unavailable WebGL, version 0 and a present reason go together, and the
    reason is never the empty string; when WebGL is unavailable the tier is LOW
    and the frame-rate estimate is 0, whatever the device. *)
Theorem X4_unavailable_webgl_forces_low
    (env : Host.Env) (caps : DeviceCapsCommon.DeviceCaps) :
  DeviceCaps.evaluateDeviceCaps env = Host.Returns caps \/
  DeviceCapsRev.evaluateDeviceCaps env = Host.Returns caps ->
  (DeviceCapsCommon.isWebGLAvailable caps = false <->
   DeviceCapsCommon.webglVersion caps = DeviceCapsCommon.V0) /\
  (DeviceCapsCommon.isWebGLAvailable caps = false <->
   DeviceCapsCommon.reason caps <> None) /\
  DeviceCapsCommon.reason caps <> Some EmptyString /\
  (DeviceCapsCommon.isWebGLAvailable caps = false ->
   DeviceCapsCommon.tier caps = QualityTiers.LOW /\
   DeviceCapsCommon.fpsEstimate caps = Some (Fin 0)).
Proof.
  intros [H|H].
  - exact (evaluate_availability DeviceCaps.decideTier DeviceCaps.benchmarkFps
             env caps H).
  - exact (evaluate_availability DeviceCapsRev.decideTier
             DeviceCapsRev.benchmarkFps env caps H).
Qed.

(** a browser without any WebGL context *)
Lemma X4_unavailable_webgl_forces_low_witness :
  exists caps : DeviceCapsCommon.DeviceCaps,
    DeviceCaps.evaluateDeviceCaps
      (Host.Window (Host.mkBrowser "Mozilla/5.0 (X11; Linux x86_64)" NaN
                      (fun _ => Host.Null) 0))
    = Host.Returns caps /\
    DeviceCapsCommon.isWebGLAvailable caps = false /\
    DeviceCapsCommon.tier caps = QualityTiers.LOW.
Proof.
  assert (H : exists caps : DeviceCapsCommon.DeviceCaps,
    DeviceCaps.evaluateDeviceCaps
      (Host.Window (Host.mkBrowser "Mozilla/5.0 (X11; Linux x86_64)" NaN
                      (fun _ => Host.Null) 0))
    = Host.Returns caps /\
    DeviceCapsCommon.isWebGLAvailable caps = false).
  { eexists. split; reflexivity. }
  destruct H as (caps & Hret & Hun).
  exists caps. split; [exact Hret|]. split; [exact Hun|].
  exact (proj1 (proj2 (proj2 (proj2
           (X4_unavailable_webgl_forces_low _ caps (or_introl Hret)))) Hun)).
Defined.

(** X5.  An exception thrown by [getContext] while WebGL is probed never
    escapes [evaluateDeviceCaps]: the call returns capabilities with WebGL
    unavailable, version 0, the LOW tier and the reason
    "WebGL detection failed: " followed by the error's message
    ("Unknown error" for a thrown value that is no [Error]). *)
Theorem X5_probe_exception_is_reported
    (b : Host.Browser) (e : Host.Thrown) :
  Host.getContext b "webgl2" = Host.Throws e ->
  exists caps : DeviceCapsCommon.DeviceCaps,
    DeviceCaps.evaluateDeviceCaps (Host.Window b) = Host.Returns caps /\
    DeviceCapsRev.evaluateDeviceCaps (Host.Window b) = Host.Returns caps /\
    DeviceCapsCommon.isWebGLAvailable caps = false /\
    DeviceCapsCommon.webglVersion caps = DeviceCapsCommon.V0 /\
    DeviceCapsCommon.tier caps = QualityTiers.LOW /\
    DeviceCapsCommon.reason caps =
      Some ("WebGL detection failed: " ++
            match e with
            | Host.ErrorObject message => message
            | Host.OtherValue => "Unknown error"
            end)%string.
Proof.
  intros Hthrow.
  assert (Hdetect :
    DeviceCapsCommon.detectWebGLVersion (Host.Window b) =
    DeviceCapsCommon.mkWebGLResult false DeviceCapsCommon.V0
      (Some (DeviceCapsCommon.detectionFailed e))).
  { unfold DeviceCapsCommon.detectWebGLVersion. rewrite Hthrow. reflexivity. }
  unfold DeviceCaps.evaluateDeviceCaps, DeviceCapsRev.evaluateDeviceCaps,
    DeviceCapsCommon.evaluateDeviceCaps.
  rewrite Hdetect. cbn [DeviceCapsCommon.available negb
    DeviceCapsCommon.version DeviceCapsCommon.failure].
  eexists. split; [reflexivity|]. split; [reflexivity|].
  cbn [DeviceCapsCommon.isWebGLAvailable DeviceCapsCommon.webglVersion
       DeviceCapsCommon.tier DeviceCapsCommon.reason].
  split; [reflexivity|]. split; [reflexivity|]. split; reflexivity.
Qed.

Lemma X5_probe_exception_is_reported_witness :
  exists caps : DeviceCapsCommon.DeviceCaps,
    DeviceCaps.evaluateDeviceCaps
      (Host.Window
         (Host.mkBrowser "Mozilla/5.0" 1
            (fun _ => Host.Throws (Host.ErrorObject "context limit")) 60))
    = Host.Returns caps /\
    DeviceCapsCommon.reason caps
    = Some "WebGL detection failed: context limit"%string.
Proof.
  destruct (X5_probe_exception_is_reported
              (Host.mkBrowser "Mozilla/5.0" 1
                 (fun _ => Host.Throws (Host.ErrorObject "context limit")) 60)
              (Host.ErrorObject "context limit") eq_refl)
    as (caps & H1 & _ & _ & _ & _ & Hr).
  exists caps. split; [exact H1|exact Hr].
Defined.

(** [Math.round] reaches an integer exactly half a unit below it *)
Lemma round_reaches (x : R) (n : Z) :
  IZR n <= IZR (Int_part (x + 1 / 2)) <-> IZR n - 1 / 2 <= x.
Proof.
  destruct (base_Int_part (x + 1 / 2)) as [Hle Hgt].
  split; intros H.
  - lra.
  - apply IZR_le.
    assert (Hlt : IZR (n - 1) < IZR (Int_part (x + 1 / 2))).
    { rewrite minus_IZR. lra. }
    apply lt_IZR in Hlt. lia.
Qed.

(** X6.  In a browser that offers WebGL (a 'webgl2', 'webgl' or
    'experimental-webgl' context), the tier is decided on the rounded
    benchmark, so every threshold sits half a frame lower on the measured
    rate.  In [utils/deviceCaps.ts] the tier is HIGH exactly on a desktop
    measuring at least 54.5, and LOW exactly below 39.5 on a desktop and
    below 34.5 on a mobile.  The revision that caps the benchmark at 120
    benchmarks on a 'webgl' or 'experimental-webgl' context of its own: when
    it gets one, its thresholds are the same but for LOW on a mobile, below
    49.5 (the cap changes no tier); when it gets none, as in a browser that
    offers 'webgl2' only, it estimates 15 and the tier is LOW whatever the
    measured rate; and when asking for the context throws, the evaluation
    rejects with what was thrown. *)
Theorem X6_tier_thresholds_on_measured_rate (b : Host.Browser) (x : R) :
  DeviceCapsCommon.available
    (DeviceCapsCommon.detectWebGLVersion (Host.Window b)) = true ->
  Host.measuredFps b = Fin x ->
  (exists caps : DeviceCapsCommon.DeviceCaps,
     DeviceCaps.evaluateDeviceCaps (Host.Window b) = Host.Returns caps /\
     DeviceCapsCommon.isMobile caps
       = DeviceCapsCommon.isMobileUA (Host.Window b) /\
     (DeviceCapsCommon.tier caps = QualityTiers.HIGH <->
      DeviceCapsCommon.isMobile caps = false /\ 54.5 <= x) /\
     (DeviceCapsCommon.tier caps = QualityTiers.LOW <->
      x < if DeviceCapsCommon.isMobile caps then 34.5 else 39.5)) /\
  (Host.getContext b "webgl" = Host.Context \/
   Host.getContext b "webgl" = Host.Null /\
   Host.getContext b "experimental-webgl" = Host.Context ->
   exists capsRev : DeviceCapsCommon.DeviceCaps,
     DeviceCapsRev.evaluateDeviceCaps (Host.Window b) = Host.Returns capsRev /\
     DeviceCapsCommon.isMobile capsRev
       = DeviceCapsCommon.isMobileUA (Host.Window b) /\
     (DeviceCapsCommon.tier capsRev = QualityTiers.HIGH <->
      DeviceCapsCommon.isMobile capsRev = false /\ 54.5 <= x) /\
     (DeviceCapsCommon.tier capsRev = QualityTiers.LOW <->
      x < if DeviceCapsCommon.isMobile capsRev then 49.5 else 39.5)) /\
  (Host.getContext b "webgl" = Host.Null /\
   Host.getContext b "experimental-webgl" = Host.Null ->
   exists capsRev : DeviceCapsCommon.DeviceCaps,
     DeviceCapsRev.evaluateDeviceCaps (Host.Window b) = Host.Returns capsRev /\
     DeviceCapsCommon.fpsEstimate capsRev = Some (Fin 15) /\
     DeviceCapsCommon.tier capsRev = QualityTiers.LOW) /\
  (forall e : Host.Thrown,
     Host.getContext b "webgl" = Host.Throws e \/
     Host.getContext b "webgl" = Host.Null /\
     Host.getContext b "experimental-webgl" = Host.Throws e ->
     DeviceCapsRev.evaluateDeviceCaps (Host.Window b) = Host.Rejects e).
Proof.
  intros Havail Hfps.
  set (k := Int_part (x + 1 / 2)).
  assert (H55 : 55 <= IZR k <-> 54.5 <= x).
  { destruct (round_reaches x 55) as [T1 T2]. fold k in T1, T2.
    split; intros H; [specialize (T1 H) | apply T2]; lra. }
  assert (H40 : 40 <= IZR k <-> 39.5 <= x).
  { destruct (round_reaches x 40) as [T1 T2]. fold k in T1, T2.
    split; intros H; [specialize (T1 H) | apply T2]; lra. }
  assert (H35 : 35 <= IZR k <-> 34.5 <= x).
  { destruct (round_reaches x 35) as [T1 T2]. fold k in T1, T2.
    split; intros H; [specialize (T1 H) | apply T2]; lra. }
  assert (H50 : 50 <= IZR k <-> 49.5 <= x).
  { destruct (round_reaches x 50) as [T1 T2]. fold k in T1, T2.
    split; intros H; [specialize (T1 H) | apply T2]; lra. }
  assert (Hcap : forall t : R, t <= 120 ->
                 (t <= Rmin (IZR k) 120 <-> t <= IZR k)).
  { intros t Ht. unfold Rmin. destruct (Rle_dec (IZR k) 120); split; lra. }
  pose proof (Hcap 55 ltac:(lra)) as C55. pose proof (Hcap 40 ltac:(lra)) as C40.
  pose proof (Hcap 50 ltac:(lra)) as C50.
  unfold DeviceCaps.evaluateDeviceCaps, DeviceCapsRev.evaluateDeviceCaps,
    DeviceCapsCommon.evaluateDeviceCaps.
  rewrite Havail. cbn [negb].
  set (m := DeviceCapsCommon.isMobileUA (Host.Window b)).
  split; [|split; [|split]].
  - unfold DeviceCaps.benchmarkFps. rewrite Hfps. cbn [round]. fold k.
    eexists. split; [reflexivity|].
    cbn [DeviceCapsCommon.isMobile DeviceCapsCommon.tier].
    split; [reflexivity|].
    destruct m.
    + pose proof (decideTier_mobile_never_high (Fin (IZR k))) as [N1 _].
      pose proof (decideTier_mobile (IZR k)) as [_ L1].
      split; [split; [intros H; contradiction | intros [H _]; discriminate]|].
      rewrite L1. split; intros; lra.
    + pose proof (decideTier_desktop (IZR k)) as (D1 & _ & D3).
      split; [rewrite D1; split;
                [intros; split; [reflexivity|lra] | intros [_ ?]; lra]|].
      rewrite D3. split; intros; lra.
  - intros Hctx.
    assert (HbenchRev : DeviceCapsRev.benchmarkFps (Host.Window b)
                        = Host.Returns (Fin (Rmin (IZR k) 120))).
    { unfold DeviceCapsRev.benchmarkFps.
      destruct Hctx as [-> | [-> ->]]; rewrite Hfps; cbn [round];
        rewrite min_Fin; reflexivity. }
    rewrite HbenchRev.
    eexists. split; [reflexivity|].
    cbn [DeviceCapsCommon.isMobile DeviceCapsCommon.tier].
    split; [reflexivity|].
    destruct m.
    + pose proof (decideTier_mobile_never_high (Fin (Rmin (IZR k) 120)))
        as [_ N2].
      pose proof (decideTier_rev_mobile (Rmin (IZR k) 120)) as [_ L2].
      split; [split; [intros H; contradiction | intros [H _]; discriminate]|].
      rewrite L2. split; intros; lra.
    + pose proof (decideTier_rev_desktop (Rmin (IZR k) 120)) as (R1 & _ & R3).
      split; [rewrite R1; split;
                [intros; split; [reflexivity|lra] | intros [_ ?]; lra]|].
      rewrite R3. split; intros; lra.
  - intros [Hgl Hex]. unfold DeviceCapsRev.benchmarkFps. rewrite Hgl, Hex.
    eexists. split; [reflexivity|].
    cbn [DeviceCapsCommon.fpsEstimate DeviceCapsCommon.tier].
    split; [reflexivity|].
    destruct m.
    + apply (decideTier_rev_mobile 15). lra.
    + apply (decideTier_rev_desktop 15). lra.
  - intros e [Hgl | [Hgl Hex]]; unfold DeviceCapsRev.benchmarkFps.
    + rewrite Hgl. reflexivity.
    + rewrite Hgl, Hex. reflexivity.
Qed.

(** a desktop browser that offers 'webgl2' only and measures 60 frames a
    second: HIGH in [utils/deviceCaps.ts], LOW in the other revision *)
Lemma X6_tier_thresholds_on_measured_rate_witness :
  exists caps capsRev : DeviceCapsCommon.DeviceCaps,
    DeviceCaps.evaluateDeviceCaps
      (Host.Window
         (Host.mkBrowser "Mozilla/5.0 (X11; Linux x86_64)" 1
            (fun name => if String.eqb name "webgl2"
                         then Host.Context else Host.Null) 60))
    = Host.Returns caps /\
    DeviceCapsCommon.tier caps = QualityTiers.HIGH /\
    DeviceCapsRev.evaluateDeviceCaps
      (Host.Window
         (Host.mkBrowser "Mozilla/5.0 (X11; Linux x86_64)" 1
            (fun name => if String.eqb name "webgl2"
                         then Host.Context else Host.Null) 60))
    = Host.Returns capsRev /\
    DeviceCapsCommon.tier capsRev = QualityTiers.LOW.
Proof.
  destruct (X6_tier_thresholds_on_measured_rate
              (Host.mkBrowser "Mozilla/5.0 (X11; Linux x86_64)" 1
                 (fun name => if String.eqb name "webgl2"
                              then Host.Context else Host.Null) 60)
              60 eq_refl eq_refl)
    as ((caps & Hret & Hm & Hhigh & _) & _ & Hnone & _).
  destruct (Hnone (conj eq_refl eq_refl)) as (capsRev & HretRev & _ & Hlow).
  exists caps, capsRev. split; [exact Hret|].
  split; [apply Hhigh; split; [rewrite Hm; reflexivity|lra]|].
  split; [exact HretRev|exact Hlow].
Defined.

(** ** Mobile detection *)

Section UserAgent.
Import DeviceCapsCommon.

Lemma toLowerCase_app (a b : string) :
  toLowerCase (a ++ b) = (toLowerCase a ++ toLowerCase b)%string.
Proof.
  induction a as [|c a IH]; cbn [toLowerCase String.append].
  - reflexivity.
  - rewrite IH. reflexivity.
Qed.

Lemma prefix_app (w rest : string) : String.prefix w (w ++ rest) = true.
Proof.
  induction w as [|c w IH]; cbn [String.append].
  - destruct rest; reflexivity.
  - cbn [String.prefix].
    destruct (ascii_dec c c) as [_|Hne]; [exact IH|contradiction].
Qed.

Lemma includes_app (before w after : string) :
  includes (before ++ w ++ after) w = true.
Proof.
  induction before as [|c before IH].
  - cbn [String.append]. destruct (w ++ after)%string eqn:E;
      cbn [includes]; rewrite <- E, prefix_app; reflexivity.
  - cbn [String.append includes]. rewrite IH. apply orb_true_r.
Qed.

Lemma includes_lowered (before w after : string) :
  includes (toLowerCase (before ++ w ++ after)) (toLowerCase w) = true.
Proof. rewrite !toLowerCase_app. apply includes_app. Qed.

End UserAgent.

(** X7.  A user agent that contains "ipad" or "tablet", in any mix of upper
    and lower case, is never classified as mobile, whatever else it contains
    (the "Mobile" of an iPad's user agent included). *)
Theorem X7_tablets_are_not_mobile
    (b : Host.Browser) (before word after : string) :
  Host.userAgent b = (before ++ word ++ after)%string ->
  DeviceCapsCommon.toLowerCase word = "ipad"%string \/
  DeviceCapsCommon.toLowerCase word = "tablet"%string ->
  DeviceCapsCommon.isMobileUA (Host.Window b) = false.
Proof.
  intros Hua Hword. unfold DeviceCapsCommon.isMobileUA. rewrite Hua.
  pose proof (includes_lowered before word after) as Hin.
  destruct Hword as [Hw|Hw]; rewrite Hw in Hin; rewrite Hin;
    cbn [negb]; [apply andb_false_r|].
  rewrite andb_false_r. reflexivity.
Qed.

Lemma X7_tablets_are_not_mobile_witness :
  DeviceCapsCommon.isMobileUA
    (Host.Window
       (Host.mkBrowser
          "Mozilla/5.0 (iPad; CPU OS 16_0 like Mac OS X) Mobile/15E148"
          2 (fun _ => Host.Context) 60))
  = false.
Proof.
  apply (X7_tablets_are_not_mobile
           (Host.mkBrowser
              "Mozilla/5.0 (iPad; CPU OS 16_0 like Mac OS X) Mobile/15E148"
              2 (fun _ => Host.Context) 60)
           "Mozilla/5.0 (" "iPad" "; CPU OS 16_0 like Mac OS X) Mobile/15E148").
  - reflexivity.
  - left. reflexivity.
Defined.

(** ** Physics helpers *)

(** X8.  [clamp] (the three copies in [utils/physics.ts], the interaction
    store and [utils/interactions.ts] agree) with ordered bounds returns a
    value within them, returns a value already within them as it is, and is
    idempotent; with inverted bounds ([max < min]) it returns [max] whatever
    the value; and it does not clamp NaN. *)
Theorem X8_clamp_bounds (v lo hi : R) :
  InteractionStore.clamp v lo hi = Physics.clamp v lo hi /\
  Interactions.clamp v lo hi = Physics.clamp v lo hi /\
  (lo <= hi ->
   exists c : R,
     Physics.clamp v lo hi = Fin c /\ lo <= c <= hi /\
     (lo <= v <= hi -> c = v) /\
     Physics.clamp c lo hi = Fin c) /\
  (hi < lo -> Physics.clamp v lo hi = Fin hi) /\
  Physics.clamp NaN lo hi = NaN.
Proof.
  split; [reflexivity|]. split; [reflexivity|].
  change (Physics.clamp (Fin v) (Fin lo) (Fin hi))
    with (InteractionStore.clamp (Fin v) (Fin lo) (Fin hi)).
  rewrite clamp_Fin.
  split; [|split; [|reflexivity]].
  - intros Hle. exists (Rmin (Rmax v lo) hi).
    split; [reflexivity|]. split; [apply clamp_within; assumption|].
    split.
    + intros Hin. unfold Rmin, Rmax.
      destruct (Rle_dec v lo); destruct (Rle_dec _ hi); lra.
    + change (Physics.clamp (Fin (Rmin (Rmax v lo) hi)) (Fin lo) (Fin hi))
        with (InteractionStore.clamp (Fin (Rmin (Rmax v lo) hi)) (Fin lo) (Fin hi)).
      rewrite clamp_Fin. f_equal.
      pose proof (clamp_within v lo hi Hle) as Hin.
      generalize dependent (Rmin (Rmax v lo) hi). intros c Hin.
      unfold Rmin, Rmax.
      destruct (Rle_dec c lo); destruct (Rle_dec _ hi); lra.
  - intros Hinv. f_equal. unfold Rmin, Rmax.
    destruct (Rle_dec v lo); destruct (Rle_dec _ hi); lra.
Qed.

Lemma X8_clamp_bounds_witness :
  (exists c : R,
     Physics.clamp 12 2 10 = Fin c /\ 2 <= c <= 10 /\
     (2 <= 12 <= 10 -> c = 12) /\
     Physics.clamp c 2 10 = Fin c) /\
  Physics.clamp 4 10 2 = Fin 2.
Proof.
  split.
  - apply (X8_clamp_bounds 12 2 10). lra.
  - apply (X8_clamp_bounds 4 10 2). lra.
Defined.

Lemma pow_Fin_positive (d y : R) :
  0 < d -> pow (Fin d) (Fin y) = Fin (Rpower d y).
Proof.
  intros Hd. unfold pow. destruct (Req_dec_T y 0) as [->|Hy].
  - rewrite Rpower_O by assumption. reflexivity.
  - destruct (Rlt_dec 0 d); [reflexivity|lra].
Qed.

Lemma dampingFactor_Fin (d dt : R) :
  0 < d ->
  Physics.dampingFactorPerDt d dt = Fin (Rpower d (dt / 16.6667)).
Proof.
  intros Hd. unfold Physics.dampingFactorPerDt.
  rewrite div_Fin by lra. apply pow_Fin_positive. assumption.
Qed.


Lemma Rpower_le_one (d y : R) : 0 < d <= 1 -> 0 <= y -> 0 < Rpower d y <= 1.
Proof.
  intros [Hd0 Hd1] Hy. unfold Rpower. split; [apply exp_pos|].
  rewrite <- exp_0.
  assert (Hln : ln d <= 0).
  { rewrite <- ln_1. destruct Hd1 as [Hd1| ->]; [|lra].
    left. apply ln_increasing; lra. }
  assert (Hprod : y * ln d <= 0) by nra.
  destruct Hprod as [Hlt|Heq].
  - left. apply exp_increasing. assumption.
  - rewrite Heq. lra.
Qed.

(** one component of [applyDamping]: scaled by the factor, then snapped to
    zero inside the dead zone *)
Lemma damped_component (v f eps : R) :
  0 < f <= 1 ->
  exists r : R,
    (if Physics.isNearZero (Fin v * Fin f)%js (Fin eps) then Fin 0
     else (Fin v * Fin f)%js) = Fin r /\
    Rabs r <= Rabs v /\ (r = 0 \/ eps <= Rabs r) /\ 0 <= r * v.
Proof.
  intros Hf. unfold Physics.isNearZero. cbn [mul abs lt].
  assert (Habs : Rabs (v * f) <= Rabs v).
  { rewrite Rabs_mult, (Rabs_pos_eq f) by lra.
    pose proof (Rabs_pos v). nra. }
  destruct (Rltb (Rabs (v * f)) eps) eqn:Hnear.
  - exists 0. rewrite Rabs_R0. pose proof (Rabs_pos v).
    split; [reflexivity|]. split; [assumption|]. split; [left; reflexivity|lra].
  - exists (v * f). apply Rltb_false in Hnear.
    split; [reflexivity|]. split; [assumption|]. split; [right; assumption|].
    nra.
Qed.

(** X10.  [applyDamping] of [utils/physics.ts], for a damping constant in
    (0, 1] and a frame time that is not negative, never amplifies a velocity:
    each component keeps its sign, does not grow in magnitude, and is either
    exactly zero or at least the threshold [eps] in magnitude. *)
Theorem X10_applyDamping_never_amplifies (vt vp d dt eps : R) :
  0 < d <= 1 -> 0 <= dt ->
  exists rt rp : R,
    Physics.applyDamping (Physics.mkAngularVel vt vp) d dt eps =
      Physics.mkAngularVel rt rp /\
    Rabs rt <= Rabs vt /\ Rabs rp <= Rabs vp /\
    (rt = 0 \/ eps <= Rabs rt) /\ (rp = 0 \/ eps <= Rabs rp) /\
    0 <= rt * vt /\ 0 <= rp * vp.
Proof.
  intros Hd Hdt. unfold Physics.applyDamping.
  cbn [Physics.dTheta Physics.dPhi].
  rewrite dampingFactor_Fin by lra.
  assert (Hf : 0 < Rpower d (dt / 16.6667) <= 1).
  { apply Rpower_le_one; [assumption|].
    apply Rmult_le_pos; [assumption|]. left. apply Rinv_0_lt_compat. lra. }
  destruct (damped_component vt _ eps Hf) as (rt & Et & At & Zt & St).
  destruct (damped_component vp _ eps Hf) as (rp & Ep & Ap & Zp & Sp).
  exists rt, rp. rewrite Et, Ep.
  split; [reflexivity|]. tauto.
Qed.

Lemma X10_applyDamping_never_amplifies_witness :
  exists rt rp : R,
    Physics.applyDamping (Physics.mkAngularVel 2 (-1)) 0.95 16 0.001 =
      Physics.mkAngularVel rt rp /\
    Rabs rt <= Rabs 2 /\ Rabs rp <= Rabs (-1) /\
    (rt = 0 \/ 0.001 <= Rabs rt) /\ (rp = 0 \/ 0.001 <= Rabs rp) /\
    0 <= rt * 2 /\ 0 <= rp * (-1).
Proof.
  apply (X10_applyDamping_never_amplifies 2 (-1) 0.95 16 0.001); lra.
Defined.

(** X11.  [integrateSpherical] of [utils/physics.ts], on finite arguments
    with [minPhi <= maxPhi], an azimuth of magnitude at most 1e6 and an
    azimuthal step [dTheta * dt / 1000] of magnitude at most 1e6, returns:
    the new azimuth lies in (-PI, PI] and the new elevation lies within the
    constraints.  (Over the reals the two bounds play no part; they keep the
    statement to angles that binary64 wraps as well.) *)
Theorem X11_integrateSpherical_ranges (th ph vt vp dt lo hi : R) :
  lo <= hi ->
  Rabs th <= 1e6 -> Rabs (vt * (dt / 1000)) <= 1e6 ->
  exists th' ph' : R,
    Physics.integrateSpherical (Physics.mkSpherical th ph)
      (Physics.mkAngularVel vt vp) dt (Physics.mkConstraints lo hi) =
      Some (Physics.mkSpherical th' ph') /\
    - PI < th' <= PI /\ lo <= ph' <= hi.
Proof.
  intros Hle _ _. unfold Physics.integrateSpherical.
  cbn [Physics.theta Physics.phi Physics.dTheta Physics.dPhi
       Physics.minPhi Physics.maxPhi].
  rewrite div_Fin by lra. cbn [mul add].
  destruct (physics_wrapTheta_finite (th + vt * (dt / 1000)))
    as (w & j & Hw & Hj & Hrange).
  rewrite Hw.
  change (Physics.clamp (Fin (ph + vp * (dt / 1000))) (Fin lo) (Fin hi))
    with (InteractionStore.clamp (Fin (ph + vp * (dt / 1000))) (Fin lo) (Fin hi)).
  rewrite clamp_Fin.
  exists w, (Rmin (Rmax (ph + vp * (dt / 1000)) lo) hi).
  split; [reflexivity|]. split; [assumption|].
  apply clamp_within. assumption.
Qed.

Lemma X11_integrateSpherical_ranges_witness :
  exists th' ph' : R,
    Physics.integrateSpherical (Physics.mkSpherical 3 1)
      (Physics.mkAngularVel 2 2) 500 (Physics.mkConstraints (-1) 1) =
      Some (Physics.mkSpherical th' ph') /\
    - PI < th' <= PI /\ -1 <= ph' <= 1.
Proof.
  apply (X11_integrateSpherical_ranges 3 1 2 2 500 (-1) 1).
  - lra.
  - rewrite Rabs_pos_eq; lra.
  - rewrite Rabs_pos_eq; lra.
Defined.

Lemma easeExp_Fin (c t l dt : R) :
  Physics.easeExp c t l dt =
    Fin (c + (t - c) * (1 - exp (- l * (dt / 1000)))) /\
  InteractionStore.easeExp c t l dt = Physics.easeExp c t l dt.
Proof.
  split; [|reflexivity]. unfold Physics.easeExp.
  rewrite div_Fin by lra. reflexivity.
Qed.


(** ** The whole interface of the interaction store *)

Section StoreInterface.
Import InteractionStore.

(** whatever [wrapTheta] of the store returns is NaN or within [-PI, PI];
    on an infinite angle it does not return *)
Lemma store_wrapTheta_range (x w : num) :
  wrapTheta x = Some w ->
  w = NaN \/ exists r : R, w = Fin r /\ - PI <= r <= PI.
Proof.
  destruct x as [r| | |].
  - destruct (store_wrapTheta_finite r) as (w' & j & Hw & _ & Hrange).
    rewrite Hw. intros [= <-]. right. exists w'. split; [reflexivity|assumption].
  - discriminate.
  - discriminate.
  - intros [= <-]. left. reflexivity.
Qed.

Ltac store_fields :=
  cbn [state current target zoom targetZoom velocity lastTs isPointerCaptured
       isKeyboardFocused config theta phi
       withState withTarget withVelocity withLastTs withZoom withTargetZoom
       withKeyboardFocus withConfig].

(** an orbit call leaves the zoom and the configuration alone, and the
    azimuth it stores comes out of [wrapTheta] *)
Lemma dispatch_frame (a : Action) (s s' : Store) :
  dispatch a s = Some s' ->
  zoom s' = zoom s /\ targetZoom s' = targetZoom s /\ config s' = config s /\
  (theta (target s') = theta (target s) \/
   exists x : num, wrapTheta x = Some (theta (target s'))).
Proof.
  destruct a as [ts|dxPx dyPx dtMs|ts|dtMs|xDir yDir dtMs]; cbn [dispatch].
  - intros [= <-]. unfold beginDrag. store_fields. tauto.
  - unfold updateDrag.
    destruct (wrapTheta _) as [w|] eqn:Hw; [|discriminate].
    intros [= <-]. store_fields.
    split; [reflexivity|]. split; [reflexivity|]. split; [reflexivity|].
    right. eexists. exact Hw.
  - intros [= <-]. unfold endDrag.
    destruct (isNearZero _); store_fields; tauto.
  - unfold tickInertia. destruct (state s); try (intros [= <-]; tauto).
    destruct (wrapTheta _) as [w|] eqn:Hw; [|discriminate].
    destruct (isNearZero _); intros [= <-]; store_fields;
      (split; [reflexivity|]; split; [reflexivity|]; split; [reflexivity|];
       right; eexists; exact Hw).
  - unfold nudgeOrbitFromKeys.
    destruct (isZero xDir && isZero yDir); [intros [= <-]; tauto|].
    destruct (wrapTheta _) as [w|] eqn:Hw; [|discriminate].
    intros [= <-]. store_fields.
    split; [reflexivity|]. split; [reflexivity|]. split; [reflexivity|].
    right. eexists. exact Hw.
Qed.

Lemma perform_keeps_azimuth (c : Call) (s s' : Store) :
  azimuthWrapped s -> perform c s = Some s' -> azimuthWrapped s'.
Proof.
  intros Hs. destruct c; cbn [perform]; try (intros [= <-]; exact Hs).
  - intros Hstep. apply dispatch_frame in Hstep.
    destruct Hstep as (_ & _ & _ & [Heq|(x & Hx)]).
    + unfold azimuthWrapped. rewrite Heq. exact Hs.
    + unfold azimuthWrapped. apply store_wrapTheta_range in Hx. exact Hx.
  - intros [= <-]. right. exists 0. split; [reflexivity|].
    pose proof PI_RGT_0. lra.
Qed.

(** [updateDrag] on a finite azimuth and sensitivity: the azimuth it stores
    is the wrapped sum *)
Lemma updateDrag_azimuth (s : Store) (dx dy dt sens th : R) (w : num) :
  dragSensitivity (config s) = Fin sens ->
  theta (target s) = Fin th ->
  wrapTheta (Fin (th + - dx * (sens * 0.005))) = Some w ->
  exists s' : Store,
    updateDrag dx dy dt s = Some s' /\
    theta (target s') = w /\ config s' = config s.
Proof.
  intros Hsens Hth Hw. unfold updateDrag. rewrite Hsens, Hth.
  unfold DRAG_SENSITIVITY_TO_RAD_PER_PX. cbn [neg mul add]. rewrite Hw.
  eexists. split; [reflexivity|]. store_fields. split; reflexivity.
Qed.

(** an angle between PI and 3 PI is wrapped by one turn *)
Lemma store_wrapTheta_one_turn (r : R) :
  PI < r <= 3 * PI ->
  wrapTheta (Fin r) = Some (Fin (r - 2 * PI)).
Proof.
  intros Hr. pose proof PI_RGT_0 as Hpi.
  apply store_wrapTheta_adequate. exists 2%nat.
  unfold wrapThetaWithin.
  rewrite while_continue by (apply gt_Fin_true; lra).
  cbn [mul sub add neg].
  rewrite while_exit by (apply gt_Fin_false; lra).
  rewrite while_exit by (apply lt_Fin_false; lra).
  reflexivity.
Qed.

End StoreInterface.

(** X14.  Along every run of calls of the interaction store, whatever their
    arguments, the azimuth [target.theta] is NaN or lies in [-PI, PI]: an
    infinite or unwrapped azimuth is never stored. *)
Theorem X14_azimuth_stays_wrapped
    (calls : list InteractionStore.Call) (s s' : InteractionStore.Store) :
  InteractionStore.azimuthWrapped s ->
  InteractionStore.performAll calls s = Some s' ->
  InteractionStore.azimuthWrapped s'.
Proof.
  revert s. induction calls as [|c rest IH]; intros s Hs.
  - intros [= <-]. exact Hs.
  - cbn [InteractionStore.performAll].
    destruct (InteractionStore.perform c s) as [s1|] eqn:Hstep; [|discriminate].
    apply IH. exact (perform_keeps_azimuth c s s1 Hs Hstep).
Qed.

(** two drags of 1000 pixels to the left from rest: the azimuth passes PI
    and is stored one turn lower *)
Lemma X14_azimuth_stays_wrapped_witness :
  exists s' : InteractionStore.Store,
    InteractionStore.performAll
      [InteractionStore.Orbit (InteractionStore.UpdateDrag (-1000) 0 16);
       InteractionStore.Orbit (InteractionStore.UpdateDrag (-1000) 0 16)]
      InteractionStore.initialState = Some s' /\
    InteractionStore.theta (InteractionStore.target s')
      = Fin (2.5 + 2.5 - 2 * PI) /\
    InteractionStore.azimuthWrapped s'.
Proof.
  pose proof PI_RGT_0 as Hpi. pose proof PI_4 as Hpi4.
  pose proof PI2_3_2 as Hpi3.
  destruct (updateDrag_azimuth InteractionStore.initialState
              (-1000) 0 16 0.5 0 (Fin 2.5) eq_refl eq_refl)
    as (s1 & Hstep1 & Hth1 & Hcfg1).
  { replace (0 + - -1000 * (0.5 * 0.005)) with 2.5 by lra.
    apply store_wrapTheta_fixed. lra. }
  destruct (updateDrag_azimuth s1 (-1000) 0 16 0.5 2.5
              (Fin (2.5 + 2.5 - 2 * PI)))
    as (s2 & Hstep2 & Hth2 & _).
  { rewrite Hcfg1. reflexivity. }
  { exact Hth1. }
  { replace (2.5 + - -1000 * (0.5 * 0.005)) with (2.5 + 2.5) by lra.
    apply store_wrapTheta_one_turn. lra. }
  assert (Hrun : InteractionStore.performAll
            [InteractionStore.Orbit (InteractionStore.UpdateDrag (-1000) 0 16);
             InteractionStore.Orbit (InteractionStore.UpdateDrag (-1000) 0 16)]
            InteractionStore.initialState = Some s2).
  { cbn [InteractionStore.performAll InteractionStore.perform
         InteractionStore.dispatch].
    rewrite Hstep1, Hstep2. reflexivity. }
  exists s2. split; [exact Hrun|]. split; [exact Hth2|].
  apply (X14_azimuth_stays_wrapped
           [InteractionStore.Orbit (InteractionStore.UpdateDrag (-1000) 0 16);
            InteractionStore.Orbit (InteractionStore.UpdateDrag (-1000) 0 16)]
           InteractionStore.initialState s2).
  - right. exists 0. split; [reflexivity|]. lra.
  - exact Hrun.
Defined.

Section StoreClamps.
Import InteractionStore.

Ltac store_fields :=
  cbn [state current target zoom targetZoom velocity lastTs isPointerCaptured
       isKeyboardFocused config theta phi
       withState withTarget withVelocity withLastTs withZoom withTargetZoom
       withKeyboardFocus withConfig].

(** [setZoomTarget] on a finite value re-establishes the clamp of the target
    zoom and leaves everything else alone *)
Lemma setZoomTarget_keeps_clamp (x : R) (s : Store) :
  zoomClamped s -> zoomClamped (setZoomTarget x s).
Proof.
  intros (lo & hi & z & t & Hlo & Hhi & Hz & Ht & Rz & Rt).
  unfold setZoomTarget. rewrite Hlo, Hhi, clamp_Fin.
  exists lo, hi, z, (Rmin (Rmax x lo) hi). store_fields.
  split; [assumption|]. split; [assumption|]. split; [assumption|].
  split; [reflexivity|]. split; [assumption|].
  apply clamp_within. lra.
Qed.

Lemma commitZoom_keeps_clamp (dt : R) (s : Store) :
  0 <= dt -> zoomClamped s -> zoomClamped (commitZoom dt s).
Proof.
  intros Hdt (lo & hi & z & t & Hlo & Hhi & Hz & Ht & Rz & Rt).
  unfold commitZoom. rewrite Hz, Ht. unfold ZOOM_EASE_LAMBDA.
  change (easeExp (Fin z) (Fin t) (Fin 4.0) (Fin dt))
    with (Physics.easeExp (Fin z) (Fin t) (Fin 4.0) (Fin dt)).
  destruct (easeExp_Fin z t 4.0 dt) as [-> _].
  set (x := (- (4.0) * (dt / 1000))%R).
  assert (Hx : x <= 0) by (unfold x; lra).
  set (e := exp x).
  assert (He : 0 < e <= 1).
  { unfold e. split; [apply exp_pos|]. rewrite <- exp_0.
    destruct Hx as [Hx|Hx]; [left; apply exp_increasing; assumption|].
    rewrite Hx. lra. }
  exists lo, hi, (z + (t - z) * (1 - e)), t. store_fields.
  split; [assumption|]. split; [assumption|]. split; [reflexivity|].
  split; [assumption|]. split; [|assumption].
  split; nra.
Qed.

Lemma initialState_clamped :
  finiteConfig (config initialState) /\ finiteMotion initialState /\
  elevationClamped initialState /\ zoomClamped initialState.
Proof.
  pose proof PI_RGT_0 as Hpi.
  split; [|split; [|split]].
  - exists 0.5, 0.95, (-60), 60. repeat split; try reflexivity; lra.
  - exists 0, 0, 0, 0. split; reflexivity.
  - unfold elevationClamped, initialState. cbn [config target phi].
    rewrite (elevationLimits_Fin DEFAULT_CONFIG (-60) 60 eq_refl eq_refl).
    split; apply le_Fin_true; lra.
  - exists 2, 10, 4, 4. repeat split; try reflexivity; lra.
Qed.

(** every call with finite arguments other than [setConfig] returns and
    keeps both clamps *)
Lemma perform_keeps_clamps (c : Call) (s : Store) :
  finiteConfig (config s) -> finiteMotion s ->
  elevationClamped s -> zoomClamped s ->
  finiteCall c ->
  exists s' : Store,
    perform c s = Some s' /\
    finiteConfig (config s') /\ finiteMotion s' /\
    elevationClamped s' /\ zoomClamped s'.
Proof.
  intros Hcfg Hmotion Helev Hzoom Hcall.
  destruct c as [a|partial|z|deltaY|scale|dtMs|focused|]; cbn [perform].
  - destruct (dispatch_keeps_clamp a s Hcfg Hmotion Helev Hcall)
      as (s' & Hstep & Hc & Hm & He).
    exists s'. split; [assumption|].
    destruct (dispatch_frame a s s' Hstep) as (Hz & Ht & _ & _).
    split; [rewrite Hc; assumption|]. split; [assumption|].
    split; [assumption|].
    unfold zoomClamped. rewrite Hc, Hz, Ht. exact Hzoom.
  - destruct Hcall.
  - destruct Hcall as [r ->]. eexists. split; [reflexivity|].
    split; [exact Hcfg|]. split; [exact Hmotion|]. split; [exact Helev|].
    apply setZoomTarget_keeps_clamp. assumption.
  - destruct Hcall as [r ->]. eexists. split; [reflexivity|].
    split; [exact Hcfg|]. split; [exact Hmotion|]. split; [exact Helev|].
    unfold applyWheelZoom.
    destruct Hzoom as (lo & hi & z & t & Hlo & Hhi & Hz & Ht & Rz & Rt).
    rewrite Ht. unfold WHEEL_ZOOM_SENSITIVITY. cbn [mul add].
    apply setZoomTarget_keeps_clamp.
    exists lo, hi, z, t. tauto.
  - destruct Hcall as [r ->]. eexists. split; [reflexivity|].
    split; [exact Hcfg|]. split; [exact Hmotion|]. split; [exact Helev|].
    unfold applyPinchZoom.
    destruct Hzoom as (lo & hi & z & t & Hlo & Hhi & Hz & Ht & Rz & Rt).
    rewrite Ht. cbn [mul].
    apply setZoomTarget_keeps_clamp.
    exists lo, hi, z, t. tauto.
  - destruct Hcall as (r & -> & Hr). eexists. split; [reflexivity|].
    split; [exact Hcfg|]. split; [exact Hmotion|]. split; [exact Helev|].
    apply commitZoom_keeps_clamp; assumption.
  - eexists. split; [reflexivity|]. tauto.
  - eexists. split; [reflexivity|]. exact initialState_clamped.
Qed.

End StoreClamps.

(** over the reals, every call with finite arguments other than [setConfig]
    returns, and runs of such calls keep both clamps *)
Lemma clamps_hold_along_runs
    (calls : list InteractionStore.Call) (s : InteractionStore.Store) :
  InteractionStore.finiteConfig (InteractionStore.config s) ->
  InteractionStore.finiteMotion s ->
  InteractionStore.elevationClamped s ->
  InteractionStore.zoomClamped s ->
  Forall InteractionStore.finiteCall calls ->
  exists s' : InteractionStore.Store,
    InteractionStore.performAll calls s = Some s' /\
    InteractionStore.elevationClamped s' /\
    InteractionStore.zoomClamped s'.
Proof.
  revert s. induction calls as [|c rest IH]; intros s Hcfg Hm He Hz Hcalls.
  - exists s. split; [reflexivity|]. split; assumption.
  - inversion Hcalls as [|? ? Hc Hrest]; subst.
    destruct (perform_keeps_clamps c s Hcfg Hm He Hz Hc)
      as (s1 & Hstep & Hcfg1 & Hm1 & He1 & Hz1).
    destruct (IH s1 Hcfg1 Hm1 He1 Hz1 Hrest) as (s' & Hrun & He' & Hz').
    exists s'. cbn [InteractionStore.performAll]. rewrite Hstep.
    split; [assumption|]. split; assumption.
Qed.

Section ZoomTarget.
Import InteractionStore.

Ltac store_fields :=
  cbn [state current target zoom targetZoom velocity lastTs isPointerCaptured
       isKeyboardFocused config theta phi
       withState withTarget withVelocity withLastTs withZoom withTargetZoom
       withKeyboardFocus withConfig].

Lemma setZoomTarget_keeps_target (x : R) (s : Store) :
  zoomTargetClamped s -> zoomTargetClamped (setZoomTarget x s).
Proof.
  intros (lo & hi & t & Hlo & Hhi & Ht & Rt).
  unfold setZoomTarget. rewrite Hlo, Hhi, clamp_Fin.
  exists lo, hi, (Rmin (Rmax x lo) hi). store_fields.
  split; [assumption|]. split; [assumption|]. split; [reflexivity|].
  apply clamp_within. lra.
Qed.

Lemma perform_keeps_zoom_target (c : Call) (s s' : Store) :
  zoomTargetClamped s -> keepsZoomLimits c ->
  perform c s = Some s' -> zoomTargetClamped s'.
Proof.
  intros Hz Hc.
  destruct c as [a|partial|z|deltaY|scale|dtMs|focused|]; cbn [perform].
  - intros Hstep.
    destruct (dispatch_frame a s s' Hstep) as (_ & Ht & Hcfg & _).
    unfold zoomTargetClamped. rewrite Hcfg, Ht. exact Hz.
  - destruct Hc.
  - destruct Hc as [r ->]. intros [= <-].
    apply setZoomTarget_keeps_target. exact Hz.
  - destruct Hc as [r ->]. intros [= <-]. unfold applyWheelZoom.
    pose proof Hz as (lo & hi & t & _ & _ & Ht & _).
    rewrite Ht. unfold WHEEL_ZOOM_SENSITIVITY. cbn [mul add].
    apply setZoomTarget_keeps_target. exact Hz.
  - destruct Hc as [r ->]. intros [= <-]. unfold applyPinchZoom.
    pose proof Hz as (lo & hi & t & _ & _ & Ht & _).
    rewrite Ht. cbn [mul].
    apply setZoomTarget_keeps_target. exact Hz.
  - intros [= <-]. exact Hz.
  - intros [= <-]. exact Hz.
  - intros [= <-]. exists 2, 10, 4.
    split; [reflexivity|]. split; [reflexivity|]. split; [reflexivity|]. lra.
Qed.

Lemma zoom_calls_return (calls : list Call) :
  forallb (fun c => negb (isOrbitCall c)) calls = true ->
  forall s : Store, exists s' : Store, performAll calls s = Some s'.
Proof.
  induction calls as [|c rest IH]; intros Hall s.
  - exists s. reflexivity.
  - cbn [forallb] in Hall. apply andb_true_iff in Hall.
    destruct Hall as [Hc Hrest]. cbn [performAll].
    destruct c as [a|partial|z|deltaY|scale|dtMs|focused|];
      try discriminate Hc; cbn [perform]; apply IH; exact Hrest.
Qed.

End ZoomTarget.

(** X15.  Along every run of calls of the interaction store that leave the
    configuration alone and set the zoom target from finite arguments,
    whatever the orbit calls in between and whatever the frame times,
    [targetZoom] stays finite and within [minZoom, maxZoom] whenever the run
    returns; and a run without orbit calls always returns. *)
Theorem X15_zoom_target_stays_clamped
    (calls : list InteractionStore.Call) (s : InteractionStore.Store) :
  InteractionStore.zoomTargetClamped s ->
  Forall InteractionStore.keepsZoomLimits calls ->
  (forall s' : InteractionStore.Store,
     InteractionStore.performAll calls s = Some s' ->
     InteractionStore.zoomTargetClamped s') /\
  (forallb (fun c => negb (InteractionStore.isOrbitCall c)) calls = true ->
   exists s' : InteractionStore.Store,
     InteractionStore.performAll calls s = Some s').
Proof.
  intros Hz Hcalls. split; [|intros Hall; apply zoom_calls_return; exact Hall].
  revert s Hz. induction Hcalls as [|c rest Hc Hrest IH]; intros s Hz s'.
  - intros [= <-]. exact Hz.
  - cbn [InteractionStore.performAll].
    destruct (InteractionStore.perform c s) as [s1|] eqn:Hstep; [|discriminate].
    apply IH. exact (perform_keeps_zoom_target c s s1 Hz Hc Hstep).
Qed.

(** a wheel turn past the upper limit, a frame, a drag, and a pinch below
    the lower limit *)
Lemma X15_zoom_target_stays_clamped_witness :
  exists s' : InteractionStore.Store,
    InteractionStore.performAll
      [InteractionStore.ApplyWheelZoom 100;
       InteractionStore.CommitZoom 16;
       InteractionStore.Orbit (InteractionStore.UpdateDrag 10 2000 16);
       InteractionStore.ApplyPinchZoom 0.01]
      InteractionStore.initialState = Some s' /\
    InteractionStore.zoomTargetClamped s'.
Proof.
  destruct (clamps_hold_along_runs
              [InteractionStore.ApplyWheelZoom 100;
               InteractionStore.CommitZoom 16;
               InteractionStore.Orbit (InteractionStore.UpdateDrag 10 2000 16);
               InteractionStore.ApplyPinchZoom 0.01]
              InteractionStore.initialState)
    as (s' & Hrun & _); try apply initialState_clamped.
  { repeat constructor.
    - exists 100. reflexivity.
    - exists 16. split; [reflexivity|lra].
    - exists 10, 2000, 16. repeat split; reflexivity.
    - exists 0.01. reflexivity. }
  exists s'. split; [exact Hrun|].
  apply (X15_zoom_target_stays_clamped
           [InteractionStore.ApplyWheelZoom 100;
            InteractionStore.CommitZoom 16;
            InteractionStore.Orbit (InteractionStore.UpdateDrag 10 2000 16);
            InteractionStore.ApplyPinchZoom 0.01]
           InteractionStore.initialState).
  - exists 2, 10, 4. repeat split; try reflexivity; lra.
  - repeat constructor; eexists; reflexivity.
  - exact Hrun.
Defined.

(** X16.  Orbit calls and zoom calls of the interaction store are
    independent: a zoom call ([setZoomTarget], [applyWheelZoom],
    [applyPinchZoom], [commitZoom]) and an orbit call ([beginDrag],
    [updateDrag], [endDrag], [tickInertia], [nudgeOrbitFromKeys]) give the
    same store in either order, so the order of [tickInertia] and
    [commitZoom] within a frame does not matter. *)
Theorem X16_orbit_and_zoom_commute
    (a : InteractionStore.Action) (c : InteractionStore.Call)
    (s : InteractionStore.Store) :
  InteractionStore.isZoomCall c = true ->
  InteractionStore.performAll [InteractionStore.Orbit a; c] s =
  InteractionStore.performAll [c; InteractionStore.Orbit a] s.
Proof.
  intros Hc. destruct s as [st cur tgt z tz vel lts cap foc cfg].
  destruct c as [a'|partial|x|deltaY|scale|dtMs|focused|];
    try discriminate Hc; clear Hc;
    destruct a as [ts|dxPx dyPx dtMs'|ts|dtMs'|xDir yDir dtMs'];
    cbn [InteractionStore.performAll InteractionStore.perform
         InteractionStore.dispatch];
    unfold InteractionStore.beginDrag, InteractionStore.updateDrag,
      InteractionStore.endDrag, InteractionStore.tickInertia,
      InteractionStore.nudgeOrbitFromKeys, InteractionStore.applyWheelZoom,
      InteractionStore.applyPinchZoom, InteractionStore.setZoomTarget,
      InteractionStore.commitZoom;
    cbn [InteractionStore.state InteractionStore.current
         InteractionStore.target InteractionStore.zoom
         InteractionStore.targetZoom InteractionStore.velocity
         InteractionStore.lastTs InteractionStore.isPointerCaptured
         InteractionStore.isKeyboardFocused InteractionStore.config
         InteractionStore.withState InteractionStore.withTarget
         InteractionStore.withVelocity InteractionStore.withLastTs
         InteractionStore.withZoom InteractionStore.withTargetZoom];
    repeat match goal with
    | |- context [InteractionStore.wrapTheta ?x] =>
        destruct (InteractionStore.wrapTheta x)
    | |- context [InteractionStore.isNearZero ?v] =>
        destruct (InteractionStore.isNearZero v)
    | |- context [(InteractionStore.isZero ?x && InteractionStore.isZero ?y)%bool] =>
        destruct (InteractionStore.isZero x && InteractionStore.isZero y)%bool
    | |- context [match ?st with InteractionStore.IDLE => _ | _ => _ end] =>
        destruct st
    end;
    reflexivity.
Qed.

(** a drag and a wheel turn from rest, in either order: the azimuth moves
    to -0.25 and the zoom target to 5 *)
Lemma X16_orbit_and_zoom_commute_witness :
  exists s' : InteractionStore.Store,
    InteractionStore.performAll
      [InteractionStore.Orbit (InteractionStore.UpdateDrag 100 50 16);
       InteractionStore.ApplyWheelZoom 10] InteractionStore.initialState
    = Some s' /\
    InteractionStore.performAll
      [InteractionStore.ApplyWheelZoom 10;
       InteractionStore.Orbit (InteractionStore.UpdateDrag 100 50 16)]
      InteractionStore.initialState
    = Some s' /\
    InteractionStore.theta (InteractionStore.target s') = Fin (-0.25) /\
    InteractionStore.targetZoom s' = Fin 5.
Proof.
  pose proof PI_RGT_0 as Hpi. pose proof PI2_3_2 as Hpi3.
  destruct (updateDrag_azimuth InteractionStore.initialState
              100 50 16 0.5 0 (Fin (-0.25)) eq_refl eq_refl)
    as (s1 & Hstep & Hth & Hcfg).
  { replace (0 + - (100) * (0.5 * 0.005)) with (-0.25) by lra.
    apply store_wrapTheta_fixed. lra. }
  destruct (dispatch_frame (InteractionStore.UpdateDrag 100 50 16)
              InteractionStore.initialState s1 Hstep) as (_ & Htz & _ & _).
  assert (Hrun : InteractionStore.performAll
            [InteractionStore.Orbit (InteractionStore.UpdateDrag 100 50 16);
             InteractionStore.ApplyWheelZoom 10] InteractionStore.initialState
          = Some (InteractionStore.applyWheelZoom 10 s1)).
  { cbn [InteractionStore.performAll InteractionStore.perform
         InteractionStore.dispatch].
    rewrite Hstep. reflexivity. }
  exists (InteractionStore.applyWheelZoom 10 s1).
  split; [exact Hrun|]. split; [|split].
  - rewrite <- Hrun. symmetry.
    apply (X16_orbit_and_zoom_commute
             (InteractionStore.UpdateDrag 100 50 16)
             (InteractionStore.ApplyWheelZoom 10)
             InteractionStore.initialState).
    reflexivity.
  - exact Hth.
  - unfold InteractionStore.applyWheelZoom, InteractionStore.setZoomTarget.
    rewrite Htz, Hcfg.
    cbn [InteractionStore.targetZoom InteractionStore.withTargetZoom
         InteractionStore.initialState InteractionStore.config
         InteractionStore.minZoom InteractionStore.maxZoom
         InteractionStore.DEFAULT_CONFIG].
    unfold InteractionStore.WHEEL_ZOOM_SENSITIVITY. cbn [mul add].
    rewrite clamp_Fin. f_equal. unfold Rmin, Rmax.
    destruct (Rle_dec (4 + 10 * 0.1) 2); destruct (Rle_dec _ 10); lra.
Defined.

(** X17.  A press and release without movement stops the orbit: whatever the
    store was doing, [beginDrag] followed by [endDrag] leaves it [IDLE] with
    zero velocity and the target where it was. *)
Theorem X17_tap_stops_motion (ts1 ts2 : num) (s : InteractionStore.Store) :
  let s' := InteractionStore.endDrag ts2 (InteractionStore.beginDrag ts1 s) in
  InteractionStore.state s' = InteractionStore.IDLE /\
  InteractionStore.velocity s' = InteractionStore.mkSpherical 0 0 /\
  InteractionStore.target s' = InteractionStore.target s /\
  InteractionStore.zoom s' = InteractionStore.zoom s /\
  InteractionStore.targetZoom s' = InteractionStore.targetZoom s.
Proof.
  unfold InteractionStore.endDrag, InteractionStore.beginDrag.
  cbn [InteractionStore.velocity InteractionStore.withVelocity
       InteractionStore.withLastTs InteractionStore.withState].
  assert (Hz : InteractionStore.isNearZero (InteractionStore.mkSpherical 0 0) = true).
  { rewrite isNearZero_Fin. rewrite Rabs_R0. lra. }
  rewrite Hz. cbn. repeat split; reflexivity.
Qed.

(** X18.  The state of the interaction store changes only in these ways:
    [beginDrag] enters DRAGGING; [endDrag] leaves for IDLE or INERTIA;
    [tickInertia] goes from INERTIA to IDLE; [nudgeOrbitFromKeys] goes from
    IDLE to INERTIA; [reset] returns to IDLE.  No other call changes it: in
    particular [updateDrag], frames and key nudges never end or begin a
    drag. *)
Theorem X18_state_transitions
    (c : InteractionStore.Call) (s s' : InteractionStore.Store) :
  InteractionStore.perform c s = Some s' ->
  InteractionStore.state s' = InteractionStore.state s \/
  match c with
  | InteractionStore.Orbit (InteractionStore.BeginDrag _) =>
      InteractionStore.state s' = InteractionStore.DRAGGING
  | InteractionStore.Orbit (InteractionStore.EndDrag _) =>
      InteractionStore.state s' = InteractionStore.IDLE \/
      InteractionStore.state s' = InteractionStore.INERTIA
  | InteractionStore.Orbit (InteractionStore.TickInertia _) =>
      InteractionStore.state s = InteractionStore.INERTIA /\
      InteractionStore.state s' = InteractionStore.IDLE
  | InteractionStore.Orbit (InteractionStore.NudgeOrbitFromKeys _ _ _) =>
      InteractionStore.state s = InteractionStore.IDLE /\
      InteractionStore.state s' = InteractionStore.INERTIA
  | InteractionStore.Reset =>
      InteractionStore.state s' = InteractionStore.IDLE
  | _ => False
  end.
Proof.
  destruct c as [a|partial|z|deltaY|scale|dtMs|focused|];
    cbn [InteractionStore.perform];
    try (intros [= <-]; left; reflexivity).
  - destruct a as [ts|dxPx dyPx dtMs|ts|dtMs|xDir yDir dtMs];
      cbn [InteractionStore.dispatch].
    + intros [= <-]. right. reflexivity.
    + unfold InteractionStore.updateDrag.
      destruct (InteractionStore.wrapTheta _); [|discriminate].
      intros [= <-]. left. reflexivity.
    + intros [= <-]. right. unfold InteractionStore.endDrag.
      destruct (InteractionStore.isNearZero _); [left|right]; reflexivity.
    + unfold InteractionStore.tickInertia.
      destruct (InteractionStore.state s) eqn:Hst;
        try (intros [= <-]; left; exact Hst).
      destruct (InteractionStore.wrapTheta _); [|discriminate].
      destruct (InteractionStore.isNearZero _); intros [= <-].
      * right. split; reflexivity.
      * left. exact Hst.
    + unfold InteractionStore.nudgeOrbitFromKeys.
      destruct (_ && _)%bool; [intros [= <-]; left; reflexivity|].
      destruct (InteractionStore.wrapTheta _); [|discriminate].
      intros [= <-]. cbn [InteractionStore.state InteractionStore.withState].
      destruct (InteractionStore.state s) eqn:Hst.
      * right. split; reflexivity.
      * left. reflexivity.
      * left. reflexivity.
  - intros [= <-]. right. reflexivity.
Qed.

Lemma X18_state_transitions_witness :
  InteractionStore.state
    (InteractionStore.beginDrag 5 InteractionStore.initialState) =
    InteractionStore.state InteractionStore.initialState \/
  InteractionStore.state
    (InteractionStore.beginDrag 5 InteractionStore.initialState) =
    InteractionStore.DRAGGING.
Proof.
  apply (X18_state_transitions
           (InteractionStore.Orbit (InteractionStore.BeginDrag 5))
           InteractionStore.initialState).
  reflexivity.
Defined.

(** ** The hero store and the canvas *)

Section CanvasInitialization.
Import QualityTiers Host.

Variable evaluate : Env -> Completion DeviceCapsCommon.DeviceCaps.
Hypothesis evaluate_coherent :
  forall (env : Env) (caps : DeviceCapsCommon.DeviceCaps),
    evaluate env = Returns caps ->
    DeviceCapsCommon.config caps = getQualityConfig (DeviceCapsCommon.tier caps) /\
    (DeviceCapsCommon.isWebGLAvailable caps = false ->
     DeviceCapsCommon.tier caps = LOW) /\
    (DeviceCapsCommon.isWebGLAvailable caps = true ->
     DeviceCapsCommon.reason caps = None).

Lemma initialize_outcome (env : Env) (st : HeroStore.HeroState) :
  HeroStore.isLoaded st = false ->
  HeroStore.config st = getQualityConfig (HeroStore.tier st) ->
  let st' := HeroCanvas.initializeCapabilities evaluate env st in
  HeroStore.config st' = getQualityConfig (HeroStore.tier st') /\
  (HeroStore.isLoaded st' = true <-> HeroStore.error st' = EmptyString) /\
  (HeroStore.isLoaded st' = true <->
   exists caps : DeviceCapsCommon.DeviceCaps,
     evaluate env = Returns caps /\
     DeviceCapsCommon.isWebGLAvailable caps = true) /\
  (forall caps : DeviceCapsCommon.DeviceCaps,
     evaluate env = Returns caps ->
     DeviceCapsCommon.isWebGLAvailable caps = false ->
     HeroStore.error st' = "WebGL unavailable"%string /\
     HeroStore.tier st' = LOW) /\
  (forall e : Thrown,
     evaluate env = Rejects e ->
     HeroStore.error st' =
       ("Initialization failed: " ++
        match e with
        | ErrorObject message => message
        | OtherValue => "Unknown initialization error"
        end)%string /\
     HeroStore.tier st' = HeroStore.tier st).
Proof.
  intros Hloaded Hcfg. unfold HeroCanvas.initializeCapabilities.
  destruct (evaluate env) as [caps|e] eqn:Hev.
  - destruct (evaluate_coherent env caps Hev) as (Hc & Hlow & Hnone).
    destruct (DeviceCapsCommon.isWebGLAvailable caps) eqn:Hav; cbn [negb].
    + cbn. rewrite (Hnone eq_refl). cbn [HeroStore.orEmpty].
      split; [exact Hc|]. split.
      { split; reflexivity. }
      split.
      { split; [intros _; exists caps; split; [reflexivity|exact Hav]
               |reflexivity]. }
      split; [intros caps' [= <-]; congruence|discriminate].
    + cbn. split; [exact Hc|]. rewrite Hloaded. split.
      { split; discriminate. }
      split.
      { split; [discriminate|]. intros (caps' & [= <-] & Hav'). congruence. }
      split; [|discriminate].
      intros caps' [= <-] _. split; [reflexivity|]. apply Hlow. reflexivity.
  - cbn. split; [exact Hcfg|]. rewrite Hloaded. split.
    { split; discriminate. }
    split.
    { split; [discriminate|]. intros (caps' & Habs & _). discriminate. }
    split; [discriminate|].
    intros e' [= <-]. split; reflexivity.
Qed.

End CanvasInitialization.

Lemma revisions_coherent
    (evaluate : Host.Env -> Host.Completion DeviceCapsCommon.DeviceCaps) :
  evaluate = DeviceCaps.evaluateDeviceCaps \/
  evaluate = DeviceCapsRev.evaluateDeviceCaps ->
  forall (env : Host.Env) (caps : DeviceCapsCommon.DeviceCaps),
    evaluate env = Host.Returns caps ->
    DeviceCapsCommon.config caps
      = QualityTiers.getQualityConfig (DeviceCapsCommon.tier caps) /\
    (DeviceCapsCommon.isWebGLAvailable caps = false ->
     DeviceCapsCommon.tier caps = QualityTiers.LOW) /\
    (DeviceCapsCommon.isWebGLAvailable caps = true ->
     DeviceCapsCommon.reason caps = None).
Proof.
  intros Hrev env caps Hev.
  assert (Hcap : forall (dt : num -> bool -> QualityTiers.QualityTier)
                        (bf : Host.Env -> Host.Completion num),
            (forall fps : num, dt fps true <> QualityTiers.HIGH) ->
            DeviceCapsCommon.evaluateDeviceCaps dt bf env = Host.Returns caps ->
            DeviceCapsCommon.config caps
              = QualityTiers.getQualityConfig (DeviceCapsCommon.tier caps) /\
            (DeviceCapsCommon.isWebGLAvailable caps = false ->
             DeviceCapsCommon.tier caps = QualityTiers.LOW) /\
            (DeviceCapsCommon.isWebGLAvailable caps = true ->
             DeviceCapsCommon.reason caps = None)).
  { intros dt bf Hm H.
    destruct (evaluate_consistent dt bf Hm env caps H) as (Hc & _).
    destruct (evaluate_availability dt bf env caps H) as (_ & Hr & _ & Hl).
    split; [exact Hc|]. split; [intros Hf; apply Hl; exact Hf|].
    intros Ht. destruct (DeviceCapsCommon.reason caps) eqn:Hreason;
      [|reflexivity].
    assert (Hf : DeviceCapsCommon.isWebGLAvailable caps = false).
    { apply Hr. discriminate. }
    congruence. }
  destruct Hrev as [-> | ->]; (eapply Hcap; [|exact Hev]);
    intros fps; apply decideTier_mobile_never_high.
Qed.

(** X19.  Capability detection on mount of [HeroCanvas], with either
    revision of [evaluateDeviceCaps], from a store that is not yet loaded and
    whose [config] is that of its [tier]: afterwards [config] is still that of
    [tier]; the store is loaded exactly when its error is empty, and exactly
    when the evaluation returned with WebGL available.  When WebGL is
    unavailable the error is 'WebGL unavailable' (the evaluation's own reason
    is overwritten) and the tier is LOW; when the evaluation rejects, the
    error is 'Initialization failed: ' with the message and the tier is
    kept. *)
Theorem X19_canvas_initialization
    (evaluate : Host.Env -> Host.Completion DeviceCapsCommon.DeviceCaps)
    (env : Host.Env) (st : HeroStore.HeroState) :
  evaluate = DeviceCaps.evaluateDeviceCaps \/
  evaluate = DeviceCapsRev.evaluateDeviceCaps ->
  HeroStore.isLoaded st = false ->
  HeroStore.config st = QualityTiers.getQualityConfig (HeroStore.tier st) ->
  let st' := HeroCanvas.initializeCapabilities evaluate env st in
  HeroStore.config st' = QualityTiers.getQualityConfig (HeroStore.tier st') /\
  (HeroStore.isLoaded st' = true <-> HeroStore.error st' = EmptyString) /\
  (HeroStore.isLoaded st' = true <->
   exists caps : DeviceCapsCommon.DeviceCaps,
     evaluate env = Host.Returns caps /\
     DeviceCapsCommon.isWebGLAvailable caps = true) /\
  (forall caps : DeviceCapsCommon.DeviceCaps,
     evaluate env = Host.Returns caps ->
     DeviceCapsCommon.isWebGLAvailable caps = false ->
     HeroStore.error st' = "WebGL unavailable"%string /\
     HeroStore.tier st' = QualityTiers.LOW) /\
  (forall e : Host.Thrown,
     evaluate env = Host.Rejects e ->
     HeroStore.error st' =
       ("Initialization failed: " ++
        match e with
        | Host.ErrorObject message => message
        | Host.OtherValue => "Unknown initialization error"
        end)%string /\
     HeroStore.tier st' = HeroStore.tier st).
Proof.
  intros Hrev Hloaded Hcfg.
  apply initialize_outcome; [|assumption|assumption].
  apply revisions_coherent. exact Hrev.
Qed.

Lemma X19_canvas_initialization_witness :
  HeroStore.error
    (HeroCanvas.initializeCapabilities DeviceCaps.evaluateDeviceCaps
       Host.NoWindow HeroStore.initialState) = "WebGL unavailable"%string /\
  HeroStore.tier
    (HeroCanvas.initializeCapabilities DeviceCaps.evaluateDeviceCaps
       Host.NoWindow HeroStore.initialState) = QualityTiers.LOW.
Proof.
  pose proof (X19_canvas_initialization DeviceCaps.evaluateDeviceCaps
                Host.NoWindow HeroStore.initialState
                (or_introl eq_refl) eq_refl eq_refl) as (_ & _ & _ & H & _).
  eapply H; reflexivity.
Defined.

(** ** Frame loops *)

Lemma strictEq_Fin (a b : R) : strictEq (Fin a) (Fin b) = true <-> a = b.
Proof.
  unfold strictEq, Reqb. destruct (Req_dec_T a b); split; intros;
    congruence || reflexivity || discriminate.
Qed.

Lemma strictEq_Fin_false (a b : R) : a <> b -> strictEq (Fin a) (Fin b) = false.
Proof.
  intros Hne. unfold strictEq, Reqb. destruct (Req_dec_T a b);
    [contradiction|reflexivity].
Qed.

(** X21.  [start] and [stop] of the inertia loop are idempotent, and a loop
    that is started, from rest or after a stop, forgets the last timestamp:
    its first frame only records the time and leaves the interaction store as
    it is, however long the pause was. *)
Theorem X21_inertia_loop_restart
    (hasRaf : bool) (maxDtMs now : num) (l : UseInertia.Loop)
    (s : InteractionStore.Store) :
  UseInertia.start hasRaf (UseInertia.start hasRaf l) = UseInertia.start hasRaf l /\
  UseInertia.stop (UseInertia.stop l) = UseInertia.stop l /\
  UseInertia.rafId (UseInertia.stop (UseInertia.start hasRaf l)) = None /\
  UseInertia.isRunning (UseInertia.stop (UseInertia.start hasRaf l)) = false /\
  exists l' : UseInertia.Loop,
    UseInertia.tick maxDtMs now
      (UseInertia.start true (UseInertia.stop l)) s = Some (l', s) /\
    UseInertia.lastTs l' = now /\
    UseInertia.isRunning l' = true.
Proof.
  split; [|split; [|split; [|split]]].
  - unfold UseInertia.start. destruct hasRaf; cbn [negb]; [|reflexivity].
    destruct (UseInertia.rafId l) eqn:Hraf.
    + rewrite Hraf. reflexivity.
    + reflexivity.
  - reflexivity.
  - reflexivity.
  - reflexivity.
  - eexists. unfold UseInertia.start, UseInertia.stop, UseInertia.tick.
    cbn [negb UseInertia.rafId UseInertia.lastTs UseInertia.request
         UseInertia.isRunning UseInertia.nextHandle].
    rewrite (proj2 (strictEq_Fin 0 0) eq_refl).
    split; [reflexivity|]. split; reflexivity.
Qed.

(** X22.  A frame of the inertia loop after the first, with finite
    timestamps that do not run backwards and a frame cap that is not
    negative.  The time step it hands to [tickInertia] and [commitZoom] is
    the elapsed time when that is within the cap and the cap otherwise, so
    it lies in [0, maxDtMs].  When [tickInertia] returns, the frame returns
    the store [commitZoom] leaves after it, records the timestamp and
    requests the next frame; a store that is not in INERTIA is only eased in
    zoom. *)
Theorem X22_inertia_frame_step
    (maxDtMs now last : R) (l : UseInertia.Loop) (s : InteractionStore.Store) :
  0 <= maxDtMs -> last <= now -> last <> 0 ->
  UseInertia.lastTs l = Fin last ->
  exists dt : R,
    UseInertia.frameDt maxDtMs now last = Fin dt /\ 0 <= dt <= maxDtMs /\
    (now - last <= maxDtMs -> dt = now - last) /\
    (maxDtMs <= now - last -> dt = maxDtMs) /\
    (forall s1 : InteractionStore.Store,
       InteractionStore.tickInertia dt s = Some s1 ->
       exists l' : UseInertia.Loop,
         UseInertia.tick maxDtMs now l s
           = Some (l', InteractionStore.commitZoom dt s1) /\
         UseInertia.lastTs l' = Fin now /\
         UseInertia.rafId l' = Some (UseInertia.nextHandle l)) /\
    (InteractionStore.state s <> InteractionStore.INERTIA ->
     exists l' : UseInertia.Loop,
       UseInertia.tick maxDtMs now l s
         = Some (l', InteractionStore.commitZoom dt s)).
Proof.
  intros Hmax Hnow Hlast Hl.
  assert (Hdt : UseInertia.frameDt maxDtMs now last
                = Fin (Rmin (now - last) maxDtMs)).
  { unfold UseInertia.frameDt. cbn [sub add neg]. rewrite min_Fin.
    reflexivity. }
  exists (Rmin (now - last) maxDtMs).
  split; [exact Hdt|].
  split; [unfold Rmin; destruct (Rle_dec (now - last) maxDtMs); lra|].
  split; [intros H; unfold Rmin; destruct (Rle_dec (now - last) maxDtMs); lra|].
  split; [intros H; unfold Rmin; destruct (Rle_dec (now - last) maxDtMs); lra|].
  assert (Htick : forall s1 : InteractionStore.Store,
            InteractionStore.tickInertia (Rmin (now - last) maxDtMs) s = Some s1 ->
            exists l' : UseInertia.Loop,
              UseInertia.tick maxDtMs now l s
                = Some (l', InteractionStore.commitZoom
                              (Rmin (now - last) maxDtMs) s1) /\
              UseInertia.lastTs l' = Fin now /\
              UseInertia.rafId l' = Some (UseInertia.nextHandle l)).
  { intros s1 Hs1. unfold UseInertia.tick. rewrite Hl.
    rewrite strictEq_Fin_false by exact Hlast.
    rewrite Hdt, Hs1. eexists. split; [reflexivity|].
    split; reflexivity. }
  split; [exact Htick|].
  intros Hst.
  destruct (Htick s) as (l' & Hframe & _).
  { unfold InteractionStore.tickInertia.
    destruct (InteractionStore.state s); try reflexivity. contradiction. }
  exists l'. exact Hframe.
Qed.

(** a frame 100 ms after the last, capped at 50 ms, on a camera at rest
    whose zoom target has been set to 8: the zoom moves *)
Lemma X22_inertia_frame_step_witness :
  exists l' : UseInertia.Loop,
    UseInertia.tick 50 1100 (UseInertia.mkLoop (Some 0%nat) 1000 true 1)
      (InteractionStore.setZoomTarget 8 InteractionStore.initialState)
    = Some (l', InteractionStore.commitZoom 50
                  (InteractionStore.setZoomTarget 8
                     InteractionStore.initialState)) /\
    InteractionStore.zoom
      (InteractionStore.commitZoom 50
         (InteractionStore.setZoomTarget 8 InteractionStore.initialState))
    <> Fin 4.
Proof.
  destruct (X22_inertia_frame_step 50 1100 1000
              (UseInertia.mkLoop (Some 0%nat) 1000 true 1)
              (InteractionStore.setZoomTarget 8 InteractionStore.initialState))
    as (dt & _ & _ & _ & Hcap & _ & Hidle); try lra; [reflexivity|].
  rewrite (Hcap ltac:(lra)) in Hidle.
  destruct Hidle as (l' & Hframe); [discriminate|].
  exists l'. split; [exact Hframe|].
  unfold InteractionStore.commitZoom, InteractionStore.setZoomTarget.
  cbn [InteractionStore.zoom InteractionStore.targetZoom
       InteractionStore.withZoom InteractionStore.withTargetZoom
       InteractionStore.initialState InteractionStore.config
       InteractionStore.minZoom InteractionStore.maxZoom
       InteractionStore.DEFAULT_CONFIG].
  rewrite clamp_Fin. unfold InteractionStore.ZOOM_EASE_LAMBDA.
  change (InteractionStore.easeExp (Fin 4) (Fin (Rmin (Rmax 8 2) 10))
            (Fin 4.0) (Fin 50))
    with (Physics.easeExp (Fin 4) (Fin (Rmin (Rmax 8 2) 10)) (Fin 4.0) (Fin 50)).
  destruct (easeExp_Fin 4 (Rmin (Rmax 8 2) 10) 4.0 50) as [-> _].
  replace (Rmin (Rmax 8 2) 10) with 8
    by (unfold Rmin, Rmax; destruct (Rle_dec 8 2);
        destruct (Rle_dec _ 10); lra).
  intros H. injection H as H.
  assert (He : exp (- (4.0) * (50 / 1000)) < 1).
  { apply Rlt_le_trans with (r2 := exp 0);
      [apply exp_increasing; lra | rewrite exp_0; lra]. }
  lra.
Defined.

(** X23.  The orbit radius of the camera hook is [baseRadius] divided by the
    zoom clamped to [2, 10], whatever the zoom is short of NaN (zero,
    negative or infinite): the divisor is never zero, and for a base radius
    that is not negative the radius is at least a tenth and at most half of
    it.  [onFrame] with a bound camera leaves the camera looking at the
    target, and without a camera it leaves the refs as they are. *)
Theorem X23_camera_radius
    (baseRadius : R) (zoom targetTheta targetPhi ease dtMs : num)
    (lookAt : UseCamera.Vec3) (refs : UseCamera.Refs) :
  let opts := UseCamera.mkOptions lookAt baseRadius ease in
  let storeData := UseCamera.mkStoreData targetTheta targetPhi zoom in
  zoom <> NaN ->
  (exists c : R,
     Physics.clamp zoom 2 10 = Fin c /\ 2 <= c <= 10 /\
     UseCamera.getRadius opts storeData = Fin (baseRadius / c) /\
     (0 <= baseRadius ->
      baseRadius / 10 <= baseRadius / c <= baseRadius / 2)) /\
  match UseCamera.cameraRef refs with
  | Some _ =>
      exists position : UseCamera.Vec3,
        UseCamera.cameraRef (UseCamera.onFrame opts storeData dtMs refs)
        = Some (UseCamera.mkCamera position lookAt)
  | None => UseCamera.onFrame opts storeData dtMs refs = refs
  end.
Proof.
  intros opts storeData Hzoom. split.
  - assert (Hc : exists c : R,
              Physics.clamp zoom 2 10 = Fin c /\ 2 <= c <= 10).
    { destruct zoom as [z| | |].
      - change (Physics.clamp (Fin z) (Fin 2) (Fin 10))
          with (InteractionStore.clamp (Fin z) (Fin 2) (Fin 10)).
        rewrite clamp_Fin. eexists. split; [reflexivity|].
        apply clamp_within. lra.
      - exists 10. split; [|lra]. reflexivity.
      - exists 2. split; [|lra]. unfold Physics.clamp.
        change (max NInf (Fin 2)) with (Fin 2). rewrite min_Fin. f_equal.
        unfold Rmin. destruct (Rle_dec 2 10); lra.
      - contradiction. }
    destruct Hc as (c & Hc & Hrange). exists c.
    split; [exact Hc|]. split; [exact Hrange|].
    split.
    + unfold UseCamera.getRadius, opts, storeData.
      cbn [UseCamera.baseRadius UseCamera.zoom]. rewrite Hc.
      apply div_Fin. lra.
    + intros Hb. unfold Rdiv.
      assert (H10 : / 10 <= / c) by (apply Rinv_le_contravar; lra).
      assert (H2 : / c <= / 2) by (apply Rinv_le_contravar; lra).
      split; apply Rmult_le_compat_l; assumption.
  - unfold UseCamera.onFrame. destruct (UseCamera.cameraRef refs).
    + eexists. reflexivity.
    + reflexivity.
Qed.

(** a zoom of zero does not make the radius infinite *)
Lemma X23_camera_radius_witness :
  exists c : R,
    Physics.clamp 0 2 10 = Fin c /\ 2 <= c <= 10 /\
    UseCamera.getRadius UseCamera.defaultOptions
      (UseCamera.mkStoreData 0 0 0) = Fin (10 / c) /\
    (0 <= 10 -> 10 / 10 <= 10 / c <= 10 / 2).
Proof.
  refine (proj1 (X23_camera_radius 10 0 0 0 12 16 (UseCamera.mkVec3 0 0 0)
                   UseCamera.initialRefs _)).
  discriminate.
Defined.

(** ** Input normalisation *)

(** X24.  In [getClientXY] an empty [touches] list shadows
    [changedTouches]: for an event without numeric [clientX]/[clientY] whose
    [changedTouches] holds a touch, the answer is that touch when [touches]
    is absent, but null when [touches] is present and empty (as on the
    touchend of the last finger), and then [normalizePointer] is null too. *)
Theorem X24_empty_touches_shadow_changed
    (event : Interactions.EventObject) (first : Interactions.Touch)
    (rest : list Interactions.Touch) (prev : option Interactions.Point) :
  Interactions.e_clientX event = None \/ Interactions.e_clientY event = None ->
  Interactions.e_changedTouches event = Some (first :: rest) ->
  (Interactions.e_touches event = None ->
   Interactions.getClientXY event =
     Some (Interactions.mkPoint (Interactions.clientX first)
                                (Interactions.clientY first))) /\
  (Interactions.e_touches event = Some [] ->
   Interactions.getClientXY event = None /\
   Interactions.normalizePointer event prev = None).
Proof.
  intros Hxy Hchanged.
  assert (Hget : Interactions.getClientXY event =
            match match Interactions.e_touches event with
                  | Some list => Some list
                  | None => Interactions.e_changedTouches event
                  end with
            | Some (t :: _) =>
                Some (Interactions.mkPoint (Interactions.clientX t)
                                           (Interactions.clientY t))
            | _ => None
            end).
  { unfold Interactions.getClientXY.
    destruct Hxy as [-> | Hy].
    - reflexivity.
    - rewrite Hy. destruct (Interactions.e_clientX event); reflexivity. }
  split.
  - intros Ht. rewrite Hget, Ht, Hchanged. reflexivity.
  - intros Ht.
    assert (Hnone : Interactions.getClientXY event = None).
    { rewrite Hget, Ht. reflexivity. }
    split; [exact Hnone|].
    unfold Interactions.normalizePointer. rewrite Hnone. reflexivity.
Qed.

Lemma X24_empty_touches_shadow_changed_witness :
  Interactions.getClientXY
    (Interactions.mkEvent None (Some "touchend"%string) None None (Some [])
       (Some [Interactions.mkTouch 10 20]) None None None) = None.
Proof.
  apply (X24_empty_touches_shadow_changed
           (Interactions.mkEvent None (Some "touchend"%string) None None
              (Some []) (Some [Interactions.mkTouch 10 20]) None None None)
           (Interactions.mkTouch 10 20) [] None);
    [left; reflexivity|reflexivity|reflexivity].
Defined.

(** X25.  [normalizeWheel] on a finite [deltaY], whatever the [deltaMode]:
    the pixel delta is [deltaY] times 1, 16 or 800; the zoom intent lies in
    [-1, 1], never has the sign of the wheel delta, equals minus the pixel
    delta over 120 while that is within a notch, and saturates at one notch
    beyond. *)
Theorem X25_wheel_zoom_intent (deltaY : R) (deltaMode : option num) :
  let wheel :=
    Interactions.normalizeWheel
      (Interactions.mkWheelObject (Some (Fin deltaY)) deltaMode) in
  exists px z : R,
    Interactions.deltaPxY wheel = Fin px /\
    (px = deltaY \/ px = deltaY * 16 \/ px = deltaY * 800) /\
    Interactions.zoomDelta wheel = Fin z /\
    -1 <= z <= 1 /\ z * deltaY <= 0 /\
    (Rabs px <= 120 -> z = - px / 120) /\
    (120 <= Rabs px -> Rabs z = 1).
Proof.
  intros wheel.
  assert (Hzoom : forall px : R,
    exists z : R,
      Interactions.clamp (- Fin px / Interactions.ZOOM_SENSITIVITY)%js
                         (Fin (-1)) (Fin 1) = Fin z /\
      -1 <= z <= 1 /\ z * px <= 0 /\
      (Rabs px <= 120 -> z = - px / 120) /\
      (120 <= Rabs px -> Rabs z = 1)).
  { intros px. unfold Interactions.ZOOM_SENSITIVITY. cbn [neg].
    rewrite div_Fin by lra.
    change (Interactions.clamp (Fin (- px / 120)) (Fin (-1)) (Fin 1))
      with (InteractionStore.clamp (Fin (- px / 120)) (Fin (-1)) (Fin 1)).
    rewrite clamp_Fin.
    exists (Rmin (Rmax (- px / 120) (-1)) 1).
    split; [reflexivity|].
    unfold Rmin, Rmax, Rabs.
    destruct (Rle_dec (- px / 120) (-1)); destruct (Rle_dec _ 1);
      destruct (Rcase_abs px); destruct (Rcase_abs _);
      (split; [lra|]; split; [nra|]; split; intros; lra). }
  unfold wheel, Interactions.normalizeWheel.
  cbn [Interactions.w_deltaY Interactions.w_deltaMode].
  destruct (strictEq _ 1).
  - unfold Interactions.LINE_HEIGHT_PX. cbn [mul].
    destruct (Hzoom (deltaY * 16)) as (z & Ez & Hr & Hs & Hin & Hout).
    exists (deltaY * 16), z.
    cbn [Interactions.deltaPxY Interactions.zoomDelta].
    split; [reflexivity|]. split; [right; left; reflexivity|].
    split; [exact Ez|]. split; [exact Hr|]. split; [nra|].
    split; assumption.
  - destruct (strictEq _ 2).
    + unfold Interactions.PAGE_HEIGHT_PX. cbn [mul].
      destruct (Hzoom (deltaY * 800)) as (z & Ez & Hr & Hs & Hin & Hout).
      exists (deltaY * 800), z.
      cbn [Interactions.deltaPxY Interactions.zoomDelta].
      split; [reflexivity|]. split; [right; right; reflexivity|].
      split; [exact Ez|]. split; [exact Hr|]. split; [nra|].
      split; assumption.
    + destruct (Hzoom deltaY) as (z & Ez & Hr & Hs & Hin & Hout).
      exists deltaY, z.
      cbn [Interactions.deltaPxY Interactions.zoomDelta].
      split; [reflexivity|]. split; [left; reflexivity|].
      split; [exact Ez|]. split; [exact Hr|]. split; [exact Hs|].
      split; assumption.
Qed.

Lemma X25_wheel_zoom_intent_witness :
  exists px z : R,
    Interactions.deltaPxY
      (Interactions.normalizeWheel
         (Interactions.mkWheelObject (Some (Fin 3)) (Some (Fin 1)))) = Fin px /\
    Interactions.zoomDelta
      (Interactions.normalizeWheel
         (Interactions.mkWheelObject (Some (Fin 3)) (Some (Fin 1)))) = Fin z /\
    -1 <= z <= 1 /\ z * 3 <= 0.
Proof.
  destruct (X25_wheel_zoom_intent 3 (Some (Fin 1)))
    as (px & z & Hpx & _ & Hz & Hrange & Hsign & _).
  exists px, z. split; [exact Hpx|]. split; [exact Hz|].
  split; [exact Hrange|exact Hsign].
Defined.

Lemma sqrt_Fin_sum (dx dy : R) :
  sqrt (Fin (dx * dx + dy * dy)) = Fin (R_sqrt.sqrt (dx * dx + dy * dy)) /\
  0 <= R_sqrt.sqrt (dx * dx + dy * dy) /\
  (R_sqrt.sqrt (dx * dx + dy * dy) = 0 <-> dx = 0 /\ dy = 0).
Proof.
  assert (Hnn : 0 <= dx * dx + dy * dy) by nra.
  split; [|split].
  - unfold sqrt. destruct (Rlt_dec (dx * dx + dy * dy) 0); [lra|reflexivity].
  - apply sqrt_pos.
  - split.
    + intros H0. apply sqrt_eq_0 in H0; [|assumption]. split; nra.
    + intros [-> ->]. replace (0 * 0 + 0 * 0) with 0 by ring. apply sqrt_0.
Qed.

Lemma squares_at_least_one (a b : Z) :
  (a <> 0 \/ b <> 0 -> 1 <= a * a + b * b)%Z.
Proof.
  intros H.
  pose proof (Z.square_nonneg a) as Ha. pose proof (Z.square_nonneg b) as Hb.
  destruct H as [H|H].
  - assert (1 <= a * a)%Z; [|lia].
    assert (Hc : (a <= -1 \/ 1 <= a)%Z) by lia. destruct Hc; nia.
  - assert (1 <= b * b)%Z; [|lia].
    assert (Hc : (b <= -1 \/ 1 <= b)%Z) by lia. destruct Hc; nia.
Qed.

(** X26.  [computePinch] on two touches at whole-pixel coordinates of
    magnitude at most 1e6.  On the first call (no previous state) with
    distinct touches the distance is positive, [scale] is 1 and [deltaScale]
    is 1, not 0.  The guard against division by zero covers only distinct
    touches: on a first call with coincident touches [scale] is NaN and the
    state keeps distance 0, with which the next call on distinct touches
    gives [scale = Infinity].  The centre is the midpoint. *)
Theorem X26_pinch_scale
    (x1 y1 x2 y2 : Z) (rest : list Interactions.Touch) :
  (Z.abs x1 <= 1000000)%Z -> (Z.abs y1 <= 1000000)%Z ->
  (Z.abs x2 <= 1000000)%Z -> (Z.abs y2 <= 1000000)%Z ->
  let touches :=
    Interactions.mkTouch (IZR x1) (IZR y1)
      :: Interactions.mkTouch (IZR x2) (IZR y2) :: rest in
  let center :=
    Interactions.mkPoint (Fin ((IZR x1 + IZR x2) / 2))
                         (Fin ((IZR y1 + IZR y2) / 2)) in
  (x1 <> x2 \/ y1 <> y2 ->
   exists d : R,
     1 <= d /\
     Interactions.computePinch touches None =
       Some (Interactions.mkPinch (Fin 1) (Fin 1) center, Fin d) /\
     Interactions.computePinch touches (Some (Fin 0)) =
       Some (Interactions.mkPinch PInf PInf center, Fin d)) /\
  (x1 = x2 /\ y1 = y2 ->
   Interactions.computePinch touches None =
     Some (Interactions.mkPinch NaN NaN center, Fin 0)).
Proof.
  intros _ _ _ _ touches center.
  set (d := R_sqrt.sqrt ((IZR x2 - IZR x1) * (IZR x2 - IZR x1) +
                         (IZR y2 - IZR y1) * (IZR y2 - IZR y1))).
  destruct (sqrt_Fin_sum (IZR x2 - IZR x1) (IZR y2 - IZR y1)) as (Hs & Hpos & Hz).
  fold d in Hs, Hpos, Hz.
  assert (Hc : forall a b : R, (Fin (a + b) / Fin 2)%js = Fin ((a + b) / 2)).
  { intros a b. apply div_Fin. lra. }
  unfold touches, Interactions.computePinch.
  cbn [Interactions.clientX Interactions.clientY sub add neg mul].
  replace (IZR x2 + - IZR x1) with (IZR x2 - IZR x1) by ring.
  replace (IZR y2 + - IZR y1) with (IZR y2 - IZR y1) by ring.
  rewrite Hs, !Hc. fold center.
  split.
  - intros Hne.
    assert (Hd : 1 <= d).
    { assert (Hsq : (1 <= (x2 - x1) * (x2 - x1) + (y2 - y1) * (y2 - y1))%Z).
      { apply squares_at_least_one. lia. }
      apply IZR_le in Hsq.
      rewrite plus_IZR, !mult_IZR, !minus_IZR in Hsq.
      unfold d. apply Rle_trans with (r2 := R_sqrt.sqrt 1);
        [rewrite sqrt_1; lra | apply sqrt_le_1_alt; exact Hsq]. }
    exists d. split; [exact Hd|]. split.
    + rewrite div_Fin by lra. cbn [sub add neg].
      replace (d / d) with 1 by (field; lra).
      replace (1 + - 0) with 1 by ring. reflexivity.
    + unfold div. destruct (Req_dec_T 0 0) as [_|Hn]; [|contradiction].
      unfold inf_times. destruct (Rlt_dec 0 d); [reflexivity|lra].
  - intros [Hx Hy].
    assert (Hd : d = 0) by (apply Hz; subst; split; lra).
    rewrite Hd. unfold div. destruct (Req_dec_T 0 0) as [_|Hn]; [|contradiction].
    unfold inf_times. destruct (Rlt_dec 0 0); [lra|]. reflexivity.
Qed.

Lemma X26_pinch_scale_witness :
  (exists d : R,
     1 <= d /\
     Interactions.computePinch
       [Interactions.mkTouch (IZR 0) (IZR 0);
        Interactions.mkTouch (IZR 3) (IZR 4)] None =
       Some (Interactions.mkPinch (Fin 1) (Fin 1)
               (Interactions.mkPoint (Fin ((IZR 0 + IZR 3) / 2))
                                     (Fin ((IZR 0 + IZR 4) / 2))), Fin d) /\
     Interactions.computePinch
       [Interactions.mkTouch (IZR 0) (IZR 0);
        Interactions.mkTouch (IZR 3) (IZR 4)] (Some (Fin 0)) =
       Some (Interactions.mkPinch PInf PInf
               (Interactions.mkPoint (Fin ((IZR 0 + IZR 3) / 2))
                                     (Fin ((IZR 0 + IZR 4) / 2))), Fin d)) /\
  Interactions.computePinch
    [Interactions.mkTouch (IZR 7) (IZR 7);
     Interactions.mkTouch (IZR 7) (IZR 7)] None =
    Some (Interactions.mkPinch NaN NaN
            (Interactions.mkPoint (Fin ((IZR 7 + IZR 7) / 2))
                                  (Fin ((IZR 7 + IZR 7) / 2))), Fin 0).
Proof.
  split.
  - apply (X26_pinch_scale 0 0 3 4 []); cbn; lia.
  - apply (X26_pinch_scale 7 7 7 7 []); cbn; lia.
Defined.

(** ** The seeded generator *)

Section LehmerRange.
Import Starfield.

Lemma Int_part_quotient (b m : Z) :
  (0 <= b)%Z -> (0 < m)%Z -> Int_part (IZR b / IZR m) = (b / m)%Z.
Proof.
  intros Hb Hm. rewrite <- (trunc_quotient b m Hb Hm). unfold trunc.
  destruct (Rle_dec 0 (IZR b / IZR m)) as [_|Hneg]; [reflexivity|].
  exfalso. apply Hneg.
  apply Rmult_le_pos; [apply IZR_le; assumption|].
  left. apply Rinv_0_lt_compat. apply IZR_lt. assumption.
Qed.

(** the remainder of a negative integer takes its sign *)
Lemma rem_IZR_negative (a m : Z) :
  (a < 0)%Z -> (0 < m)%Z ->
  (Fin (IZR a) %% Fin (IZR m))%js = Fin (IZR (- ((- a) mod m))).
Proof.
  intros Ha Hm. unfold rem.
  assert (HmR : 0 < IZR m) by (apply IZR_lt; assumption).
  assert (HaR : IZR a < 0) by (apply IZR_lt; assumption).
  destruct (Req_dec_T (IZR m) 0); [lra|].
  assert (Hq : IZR a / IZR m < 0).
  { unfold Rdiv. pose proof (Rinv_0_lt_compat _ HmR). nra. }
  unfold trunc. destruct (Rle_dec 0 (IZR a / IZR m)) as [Hge|_]; [lra|].
  replace (- (IZR a / IZR m)) with (IZR (- a) / IZR m)
    by (rewrite opp_IZR; field; lra).
  rewrite Int_part_quotient by lia. f_equal.
  pose proof (Z.div_mod (- a) m ltac:(lia)) as Hdiv.
  rewrite !opp_IZR.
  assert (Hr : IZR (- a) = IZR m * IZR (- a / m) + IZR ((- a) mod m)).
  { rewrite <- mult_IZR, <- plus_IZR. f_equal. exact Hdiv. }
  rewrite opp_IZR in Hr. lra.
Qed.

Lemma createSeededRandom_IZR (z : Z) :
  exists s : Z,
    createSeededRandom (Fin (IZR z)) = Fin (IZR s) /\
    (0 <= s <= 2147483646)%Z /\
    (s = 0%Z <-> (z < 0)%Z /\ ((- z) mod 2147483647 = 2147483646)%Z).
Proof.
  unfold createSeededRandom.
  destruct (Z_lt_le_dec z 0) as [Hneg|Hpos].
  - rewrite rem_IZR_negative by lia.
    pose proof (Z.mod_pos_bound (- z) 2147483647 ltac:(lia)) as Hb.
    rewrite (proj2 (le_Fin_true _ 0)) by (apply IZR_le; lia).
    exists (- ((- z) mod 2147483647) + 2147483646)%Z.
    split; [cbn [add]; rewrite plus_IZR; reflexivity|].
    split; [lia|]. split; [intros H; split; lia|intros [_ H]; lia].
  - rewrite rem_IZR by lia.
    pose proof (Z.mod_pos_bound z 2147483647 ltac:(lia)) as Hb.
    destruct (Z.eq_dec (z mod 2147483647) 0) as [Hz|Hnz].
    + rewrite Hz. rewrite (proj2 (le_Fin_true 0 0)) by lra.
      exists 2147483646%Z. split; [cbn [add]; f_equal; lra|].
      split; [lia|]. split; [discriminate|intros [H _]; lia].
    + rewrite (proj2 (le_Fin_false _ 0)) by (apply IZR_lt; lia).
      exists (z mod 2147483647)%Z. split; [reflexivity|].
      split; [lia|]. split; [intros H; lia|intros [H _]; lia].
Qed.

(** a state in [1, 2147483646] is followed by such a state: the modulus
    divides no product of 16807 and a smaller positive number *)
Lemma lehmer_state_range (s : Z) :
  (1 <= s <= 2147483646)%Z ->
  (1 <= (s * 16807) mod 2147483647 <= 2147483646)%Z.
Proof.
  intros Hs.
  pose proof (Z.mod_pos_bound (s * 16807) 2147483647 ltac:(lia)) as Hb.
  assert (Hnz : ((s * 16807) mod 2147483647 <> 0)%Z).
  { intros H0. apply Z.mod_divide in H0; [|lia].
    rewrite Z.mul_comm in H0. apply Z.gauss in H0; [|reflexivity].
    apply Z.divide_pos_le in H0; lia. }
  lia.
Qed.

Lemma call_in_range (s : Z) :
  (1 <= s <= 2147483646)%Z ->
  exists (u : R) (s' : Z),
    call (Fin (IZR s)) = (Fin u, Fin (IZR s')) /\
    0 <= u < 1 /\ (1 <= s' <= 2147483646)%Z /\
    s' = ((s * 16807) mod 2147483647)%Z /\
    u = (IZR s' - 1) / 2147483646.
Proof.
  intros Hs. pose proof (lehmer_state_range s Hs) as Hr.
  rewrite call_IZR by lia.
  set (s' := ((s * 16807) mod 2147483647)%Z) in *.
  exists ((IZR s' - 1) / 2147483646), s'.
  split; [reflexivity|].
  assert (H1 : 1 <= IZR s') by (apply IZR_le; lia).
  assert (H2 : IZR s' <= 2147483646) by (apply IZR_le; lia).
  split; [|split; [exact Hr|split; reflexivity]].
  split.
  - apply Rmult_le_pos; [lra|]. left. apply Rinv_0_lt_compat. lra.
  - apply Rmult_lt_reg_r with (r := 2147483646); [lra|].
    replace ((IZR s' - 1) / 2147483646 * 2147483646) with (IZR s' - 1)
      by (field; lra).
    lra.
Qed.

End LehmerRange.

(** X27.  [createSeededRandom] on an integer seed leaves a state in
    [0, 2147483646]; the state is 0 exactly for the negative seeds whose
    magnitude is 2147483646 modulo 2147483647.  From a state in
    [1, 2147483646] every call of the generator returns a value in [0, 1)
    and leaves a state in [1, 2147483646] again. *)
Theorem X27_generator_range (seed state : Z) :
  (exists s : Z,
     Starfield.createSeededRandom (Fin (IZR seed)) = Fin (IZR s) /\
     (0 <= s <= 2147483646)%Z /\
     (s = 0%Z <->
      (seed < 0)%Z /\ ((- seed) mod 2147483647 = 2147483646)%Z)) /\
  ((1 <= state <= 2147483646)%Z ->
   exists (u : R) (s' : Z),
     Starfield.call (Fin (IZR state)) = (Fin u, Fin (IZR s')) /\
     0 <= u < 1 /\ (1 <= s' <= 2147483646)%Z).
Proof.
  split; [apply createSeededRandom_IZR|].
  intros Hs. destruct (call_in_range state Hs) as (u & s' & Hc & Hu & Hr & _).
  exists u, s'. split; [exact Hc|]. split; assumption.
Qed.

Lemma X27_generator_range_witness :
  exists (u : R) (s' : Z),
    Starfield.call (Fin (IZR 1337)) = (Fin u, Fin (IZR s')) /\
    0 <= u < 1 /\ (1 <= s' <= 2147483646)%Z.
Proof.
  apply (X27_generator_range 1337 1337). lia.
Defined.

Section StuckGenerator.
Import Starfield.

Lemma call_zero : call (Fin 0) = (Fin (-1 / 2147483646), Fin 0).
Proof.
  rewrite (call_IZR 0) by lia.
  change ((0 * 16807) mod 2147483647)%Z with 0%Z.
  do 2 f_equal. lra.
Qed.

Lemma marsaglia_stuck (fuel : nat) : marsaglia fuel (Fin 0) = None.
Proof.
  induction fuel as [|fuel IH]; [reflexivity|].
  rewrite marsaglia_unfold, call_zero. cbv beta iota zeta.
  rewrite call_zero. cbv beta iota zeta.
  cbn [mul sub add neg].
  rewrite (proj2 (ge_Fin_true _ _)); [exact IH|].
  nra.
Qed.

End StuckGenerator.

(** X28.  For a negative integer seed whose magnitude is 2147483646 modulo
    2147483647 (such as -2147483646) the generator is stuck at state 0: every
    call returns -1/2147483646, outside [0, 1), the rejection loop of
    [generateStarPositions] never accepts, and for a count above 0 the
    positions are never returned, whatever the number of iterations
    allowed. *)
Theorem X28_stuck_seed_never_returns
    (seed : Z) (count radius : R) (fuel : nat) :
  (seed < 0)%Z -> ((- seed) mod 2147483647 = 2147483646)%Z ->
  0 < count ->
  Starfield.createSeededRandom (Fin (IZR seed)) = Fin 0 /\
  Starfield.call (Fin 0) = (Fin (-1 / 2147483646), Fin 0) /\
  Starfield.marsaglia fuel (Fin 0) = None /\
  Starfield.starPositions fuel count radius (Fin (IZR seed)) = None.
Proof.
  intros Hneg Hmod Hcount.
  assert (Hseed : Starfield.createSeededRandom (Fin (IZR seed)) = Fin 0).
  { destruct (createSeededRandom_IZR seed) as (s & Hs & _ & Hz).
    rewrite Hs. do 2 f_equal. apply Hz. split; assumption. }
  split; [exact Hseed|]. split; [exact call_zero|].
  split; [apply marsaglia_stuck|].
  unfold Starfield.starPositions, Starfield.generateStarPositions.
  rewrite Hseed. destruct fuel as [|fuel]; [reflexivity|].
  cbn [Starfield.starLoop].
  rewrite (proj2 (lt_Fin_true 0 count)) by assumption.
  rewrite marsaglia_stuck. reflexivity.
Qed.

Lemma X28_stuck_seed_never_returns_witness :
  Starfield.starPositions 1000 8000 60 (Fin (IZR (-2147483646))) = None.
Proof.
  apply (X28_stuck_seed_never_returns (-2147483646) 8000 60 1000);
    [lia|reflexivity|lra].
Defined.

(** ** The star loop *)

Section StarLoop.
Import Starfield.

(** one turn of the loop of [generateStarPositions] *)
Lemma starLoop_unfold (fuel : nat) (i count radius : num) (random : Random)
    (positions : list Vector3) :
  starLoop (S fuel) i count radius random positions =
    if (i <? count)%js then
      match marsaglia fuel random with
      | None => None
      | Some (x1, x2, w, random2) =>
          let sqrtW := sqrt (-2.0 * log w / w)%js in
          let y := (x1 * sqrtW)%js in
          let z := (x2 * sqrtW)%js in
          let (u3, random3) := call random2 in
          let x := (2.0 * u3 - 1.0)%js in
          let length := sqrt (x * x + y * y + z * z)%js in
          let (u4, random4) := call random3 in
          let r := (radius * cbrt u4)%js in
          starLoop fuel (i + 1)%js count radius random4
            (positions ++
             [mkVector3 (x / length * r) (y / length * r) (z / length * r)])%js
      end
    else Some (positions, random).
Proof. reflexivity. Qed.

Lemma marsaglia_agree (n m : nat) (random : Random)
    (r1 r2 : num * num * num * Random) :
  marsaglia n random = Some r1 -> marsaglia m random = Some r2 -> r1 = r2.
Proof.
  intros H1 H2.
  apply (marsaglia_more_fuel n m) in H1.
  apply (marsaglia_more_fuel m n) in H2.
  rewrite Nat.add_comm in H2. congruence.
Qed.

(** the loop from index [k] to a whole count [n] appends [n - k] positions *)
Lemma starLoop_length :
  forall (fuel k n : nat) (radius : num) (random random' : Random)
         (acc res : list Vector3),
    starLoop fuel (Fin (INR k)) (Fin (INR n)) radius random acc
      = Some (res, random') ->
    exists new : list Vector3,
      res = acc ++ new /\ List.length new = (n - k)%nat.
Proof.
  induction fuel as [|fuel IH]; intros k n radius random random' acc res H.
  - discriminate.
  - rewrite starLoop_unfold in H.
    destruct (Fin (INR k) <? Fin (INR n))%js eqn:Hlt.
    + apply lt_Fin_true in Hlt. apply INR_lt in Hlt.
      destruct (marsaglia fuel random) as [[[[x1 x2] w] random2]|];
        [|discriminate].
      cbv zeta in H.
      destruct (call random2) as [u3 random3].
      destruct (call random3) as [u4 random4].
      cbn [add] in H. rewrite <- S_INR in H.
      apply IH in H. destruct H as (new & -> & Hlen).
      rewrite <- app_assoc.
      eexists. split; [reflexivity|].
      cbn [List.length app]. lia.
    + apply lt_Fin_false in Hlt. apply INR_le in Hlt.
      injection H as <- _. exists []. rewrite app_nil_r.
      split; [reflexivity|]. cbn. lia.
Qed.

(** two runs from the same index and generator, to counts [n <= m]: the
    longer one appends what the shorter one appends, and then more *)
Lemma starLoop_prefix :
  forall (fuel1 fuel2 k n m : nat) (radius : num) (random g1 g2 : Random)
         (acc1 acc2 res1 res2 : list Vector3),
    (n <= m)%nat ->
    starLoop fuel1 (Fin (INR k)) (Fin (INR n)) radius random acc1
      = Some (res1, g1) ->
    starLoop fuel2 (Fin (INR k)) (Fin (INR m)) radius random acc2
      = Some (res2, g2) ->
    exists new more : list Vector3,
      res1 = acc1 ++ new /\ res2 = acc2 ++ new ++ more.
Proof.
  induction fuel1 as [|fuel1 IH];
    intros fuel2 k n m radius random g1 g2 acc1 acc2 res1 res2 Hnm H1 H2.
  - discriminate.
  - rewrite starLoop_unfold in H1.
    destruct (Fin (INR k) <? Fin (INR n))%js eqn:Hlt.
    + pose proof Hlt as Hkn. apply lt_Fin_true in Hkn. apply INR_lt in Hkn.
      destruct fuel2 as [|fuel2]; [discriminate|].
      rewrite starLoop_unfold in H2.
      rewrite (proj2 (lt_Fin_true (INR k) (INR m))) in H2
        by (apply lt_INR; lia).
      destruct (marsaglia fuel1 random) as [[[[x1 x2] w] random2]|] eqn:M1;
        [|discriminate].
      destruct (marsaglia fuel2 random) as [[[[x1' x2'] w'] random2']|] eqn:M2;
        [|discriminate].
      pose proof (marsaglia_agree _ _ _ _ _ M1 M2) as Heq.
      injection Heq as <- <- <- <-.
      cbv zeta in H1, H2.
      destruct (call random2) as [u3 random3].
      destruct (call random3) as [u4 random4].
      cbn [add] in H1, H2. rewrite <- S_INR in H1, H2.
      destruct (IH _ _ _ _ _ _ _ _ _ _ _ _ Hnm H1 H2)
        as (new & more & -> & ->).
      rewrite <- !app_assoc.
      eexists. exists more. split; reflexivity.
    + injection H1 as <- _.
      destruct (starLoop_length _ _ _ _ _ _ _ _ H2) as (more & -> & _).
      exists [], more. rewrite app_nil_r. split; reflexivity.
Qed.

(** a run to a count [m] that returns also returns, within the same number
    of iterations, for every count [n <= m] *)
Lemma starLoop_shorter :
  forall (fuel k n m : nat) (radius : num) (random : Random)
         (acc : list Vector3) (r : list Vector3 * Random),
    (n <= m)%nat ->
    starLoop fuel (Fin (INR k)) (Fin (INR m)) radius random acc = Some r ->
    exists r' : list Vector3 * Random,
      starLoop fuel (Fin (INR k)) (Fin (INR n)) radius random acc = Some r'.
Proof.
  induction fuel as [|fuel IH]; intros k n m radius random acc r Hnm H.
  - discriminate.
  - rewrite starLoop_unfold in H. rewrite starLoop_unfold.
    destruct (Fin (INR k) <? Fin (INR n))%js eqn:Hlt;
      [|eexists; reflexivity].
    apply lt_Fin_true in Hlt. apply INR_lt in Hlt.
    rewrite (proj2 (lt_Fin_true (INR k) (INR m))) in H by (apply lt_INR; lia).
    destruct (marsaglia fuel random) as [[[[x1 x2] w] random2]|];
      [|discriminate].
    cbv zeta in H. cbv zeta.
    destruct (call random2) as [u3 random3].
    destruct (call random3) as [u4 random4].
    cbn [add] in H. cbn [add]. rewrite <- S_INR in H. rewrite <- S_INR.
    exact (IH _ _ _ _ _ _ _ Hnm H).
Qed.

End StarLoop.

(** X29.  Raising the particle count keeps the stars already placed: for
    whole counts [n <= m], the same radius and the same generator, when the
    run of [generateStarPositions] for [m] stars returns, the run for [n]
    stars returns as well, within the same number of loop iterations; it
    returns exactly [n] positions, they are the first [n] positions of the
    run for [m] stars, and every run for [n] stars that returns, whatever
    the iterations allowed, returns them. *)
Theorem X29_positions_stable_across_counts
    (fuel n m : nat) (radius : num) (random g2 : Starfield.Random)
    (many : list Starfield.Vector3) :
  (n <= m)%nat ->
  Starfield.generateStarPositions fuel (Fin (INR m)) radius random
    = Some (many, g2) ->
  exists (few : list Starfield.Vector3) (g1 : Starfield.Random),
    Starfield.generateStarPositions fuel (Fin (INR n)) radius random
      = Some (few, g1) /\
    List.length few = n /\ List.length many = m /\ few = firstn n many /\
    forall (fuel' : nat) (r : list Starfield.Vector3 * Starfield.Random),
      Starfield.generateStarPositions fuel' (Fin (INR n)) radius random
        = Some r ->
      r = (few, g1).
Proof.
  unfold Starfield.generateStarPositions. intros Hnm H2.
  change (Fin 0) with (Fin (INR 0)) in *.
  destruct (starLoop_shorter _ _ _ _ _ _ _ _ Hnm H2) as ([few g1] & H1).
  exists few, g1. split; [exact H1|].
  destruct (starLoop_length _ _ _ _ _ _ _ _ H1) as (new1 & E1 & L1).
  destruct (starLoop_length _ _ _ _ _ _ _ _ H2) as (new2 & E2 & L2).
  destruct (starLoop_prefix _ _ _ _ _ _ _ _ _ _ _ _ _ Hnm H1 H2)
    as (new & more & E1' & E2').
  cbn [app] in E1, E2, E1', E2'.
  rewrite Nat.sub_0_r in L1, L2.
  assert (Hn : List.length new = n) by (rewrite <- E1', E1; exact L1).
  split; [|split; [|split]].
  - rewrite E1. exact L1.
  - rewrite E2. exact L2.
  - rewrite E1', E2'. rewrite <- Hn.
    rewrite firstn_app, Nat.sub_diag, firstn_all.
    cbn [firstn]. rewrite app_nil_r. reflexivity.
  - intros fuel' r Hr.
    exact (generateStarPositions_deterministic fuel' fuel (Fin (INR n))
             radius random r (few, g1) Hr H1).
Qed.

Section TwoStars.
Import Starfield.

Ltac lehmer_call :=
  match goal with
  | |- context [call (Fin (IZR ?s))] =>
      rewrite (call_IZR s) by lia;
      let v := eval vm_compute in ((s * 16807) mod 2147483647)%Z in
      change ((s * 16807) mod 2147483647)%Z with v;
      cbv beta iota zeta
  end.

(** two stars from the default seed *)
Lemma generateStarPositions_1337_two :
  exists (first second : Vector3) (g : Random),
    generateStarPositions 3 (Fin (INR 1)) 60 (Fin 1337)
      = Some ([first], Fin 1607245740) /\
    generateStarPositions 4 (Fin (INR 2)) 60 (Fin 1337)
      = Some ([first; second], g).
Proof.
  destruct marsaglia_1337 as (x1 & x2 & w & Hm).
  pose proof (marsaglia_more_fuel 2 1 _ _ Hm) as Hm3. cbn [Nat.add] in Hm3.
  assert (Hm2 : exists y1 y2 v : num,
            marsaglia 2 (Fin 1607245740) = Some (y1, y2, v, Fin 1378956057)).
  { rewrite marsaglia_unfold. do 2 lehmer_call. cbn [mul sub add neg].
    rewrite (proj2 (ge_Fin_false _ _)) by lra.
    do 3 eexists. reflexivity. }
  destruct Hm2 as (y1 & y2 & v & Hm2).
  do 3 eexists. split.
  - unfold generateStarPositions. rewrite starLoop_unfold.
    rewrite (proj2 (lt_Fin_true 0 (INR 1))) by (cbn; lra).
    rewrite Hm. cbv zeta. do 2 lehmer_call.
    cbn [starLoop add].
    rewrite (proj2 (lt_Fin_false (0 + 1) (INR 1))) by (cbn; lra).
    reflexivity.
  - unfold generateStarPositions. rewrite starLoop_unfold.
    rewrite (proj2 (lt_Fin_true 0 (INR 2))) by (cbn; lra).
    rewrite Hm3. cbv zeta. do 2 lehmer_call.
    rewrite starLoop_unfold. cbn [add].
    rewrite (proj2 (lt_Fin_true (0 + 1) (INR 2))) by (cbn; lra).
    rewrite Hm2. cbv zeta. do 2 lehmer_call.
    cbn [starLoop add].
    rewrite (proj2 (lt_Fin_false (0 + 1 + 1) (INR 2))) by (cbn; lra).
    cbn [app]. reflexivity.
Qed.

End TwoStars.

Lemma X29_positions_stable_across_counts_witness :
  exists (few : list Starfield.Vector3) (g1 : Starfield.Random),
    Starfield.generateStarPositions 4 (Fin (INR 1)) 60 (Fin 1337)
      = Some (few, g1) /\
    List.length few = 1%nat /\
    exists (many : list Starfield.Vector3) (g2 : Starfield.Random),
      Starfield.generateStarPositions 4 (Fin (INR 2)) 60 (Fin 1337)
        = Some (many, g2) /\
      List.length many = 2%nat /\ few = firstn 1 many.
Proof.
  destruct generateStarPositions_1337_two as (first & second & g & _ & H2).
  destruct (X29_positions_stable_across_counts 4 1 2 60 (Fin 1337) g
              [first; second] (le_S 1 1 (le_n 1)) H2)
    as (few & g1 & H1 & L1 & L2 & Hprefix & _).
  exists few, g1. split; [exact H1|]. split; [exact L1|].
  exists [first; second], g. split; [exact H2|]. split; [exact L2|exact Hprefix].
Defined.

(** ** Stars within the sphere *)

Section WithinSphere.
Import Starfield.

(** the rejection loop, from a state in range: the accepted point is finite,
    lies strictly inside the unit disc and is not its centre, and the state
    stays in range *)
Lemma marsaglia_accepts :
  forall (fuel : nat) (s : Z) (a b w : num) (g : Random),
    (1 <= s <= 2147483646)%Z ->
    marsaglia fuel (Fin (IZR s)) = Some (a, b, w, g) ->
    exists (x1 x2 : R) (s2 : Z),
      a = Fin x1 /\ b = Fin x2 /\ w = Fin (x1 * x1 + x2 * x2) /\
      0 < x1 * x1 + x2 * x2 < 1 /\
      g = Fin (IZR s2) /\ (1 <= s2 <= 2147483646)%Z.
Proof.
  induction fuel as [|fuel IH]; intros s a b w g Hs H; [discriminate|].
  rewrite marsaglia_unfold in H.
  destruct (call_in_range s Hs) as (u1 & s1 & Hc1 & Hu1 & Hs1 & Es1 & Eu1).
  destruct (call_in_range s1 Hs1) as (u2 & s2 & Hc2 & Hu2 & Hs2 & Es2 & Eu2).
  rewrite Hc1 in H. cbv beta iota zeta in H. rewrite Hc2 in H.
  cbv beta iota zeta in H. cbn [mul sub add neg] in H.
  destruct (ge _ _) eqn:Hge in H.
  - exact (IH s2 a b w g Hs2 H).
  - apply ge_Fin_false in Hge. injection H as <- <- <- <-.
    exists (2.0 * u1 + - (1.0)), (2.0 * u2 + - (1.0)), s2.
    split; [reflexivity|]. split; [reflexivity|]. split; [reflexivity|].
    split; [|split; [reflexivity|exact Hs2]].
    split; [|lra].
    assert (Hnz : 2.0 * u1 + - (1.0) <> 0 \/ 2.0 * u2 + - (1.0) <> 0).
    { destruct (Req_dec_T (2.0 * u1 + - (1.0)) 0) as [H1|H1]; [|left; exact H1].
      right. intros H2.
      assert (E1 : IZR s1 = IZR 1073741824) by lra.
      assert (E2 : IZR s2 = IZR 1073741824) by lra.
      apply eq_IZR in E1, E2. subst s1. rewrite E1 in Es2.
      rewrite Es2 in E2. vm_compute in E2. discriminate. }
    set (p1 := 2.0 * u1 + - (1.0)) in *.
    set (p2 := 2.0 * u2 + - (1.0)) in *.
    clearbody p1 p2.
    pose proof (Rle_0_sqr p1) as Q1. pose proof (Rle_0_sqr p2) as Q2.
    unfold Rsqr in Q1, Q2.
    destruct Hnz as [Hn|Hn]; apply Rsqr_pos_lt in Hn; unfold Rsqr in Hn; lra.
Qed.

Lemma Rcbrt_unit (u : R) : 0 <= u < 1 -> 0 <= Rcbrt u < 1.
Proof.
  intros [H0 H1]. unfold Rcbrt.
  destruct (Rlt_dec 0 u) as [Hpos|Hnpos].
  - unfold Rpower. split; [left; apply exp_pos|].
    assert (Hln : ln u < 0) by (rewrite <- ln_1; apply ln_increasing; lra).
    apply Rlt_le_trans with (r2 := exp 0); [|rewrite exp_0; lra].
    apply exp_increasing. lra.
  - destruct (Rlt_dec u 0); lra.
Qed.

(** the position pushed for an accepted point: its distance from the
    origin is [radius * cbrt(u4)] *)
Lemma star_within (x1 x2 u3 u4 radius : R) :
  0 < x1 * x1 + x2 * x2 < 1 -> 0 <= u4 < 1 ->
  let w := Fin (x1 * x1 + x2 * x2) in
  let sqrtW := sqrt (-2.0 * log w / w)%js in
  let y := (Fin x1 * sqrtW)%js in
  let z := (Fin x2 * sqrtW)%js in
  let x := (2.0 * Fin u3 - 1.0)%js in
  let length := sqrt (x * x + y * y + z * z)%js in
  let r := (Fin radius * cbrt (Fin u4))%js in
  exists a b c : R,
    mkVector3 (x / length * r)%js (y / length * r)%js (z / length * r)%js
      = mkVector3 (Fin a) (Fin b) (Fin c) /\
    a * a + b * b + c * c <= radius * radius.
Proof.
  intros [Hw0 Hw1] Hu4. cbv zeta.
  set (w := x1 * x1 + x2 * x2) in *.
  assert (Hln : ln w < 0) by (rewrite <- ln_1; apply ln_increasing; lra).
  assert (Hlog : log (Fin w) = Fin (ln w)).
  { unfold log. destruct (Rlt_dec w 0); [lra|].
    destruct (Req_dec_T w 0); [lra|reflexivity]. }
  rewrite Hlog. cbn [mul neg]. rewrite div_Fin by lra.
  set (t := _ / w).
  assert (Ht : 0 < t).
  { unfold t. apply Rmult_lt_0_compat; [lra|].
    apply Rinv_0_lt_compat. lra. }
  assert (Hsq : sqrt (Fin t) = Fin (R_sqrt.sqrt t)).
  { unfold sqrt. destruct (Rlt_dec t 0); [lra|reflexivity]. }
  rewrite Hsq. set (q := R_sqrt.sqrt t).
  assert (Hq : 0 < q) by (apply sqrt_lt_R0; exact Ht).
  cbn [mul sub add neg].
  set (x := 2.0 * u3 + - (1.0)).
  set (S := x * x + x1 * q * (x1 * q) + x2 * q * (x2 * q)).
  assert (HS : 0 < S).
  { unfold S. assert (0 < q * q * w) by (apply Rmult_lt_0_compat; nra).
    unfold w in *. nra. }
  assert (Hlen : sqrt (Fin S) = Fin (R_sqrt.sqrt S)).
  { unfold sqrt. destruct (Rlt_dec S 0); [lra|reflexivity]. }
  rewrite Hlen. set (len := R_sqrt.sqrt S).
  assert (Hlenpos : 0 < len) by (apply sqrt_lt_R0; exact HS).
  assert (Hlen2 : len * len = S) by (apply sqrt_sqrt; lra).
  rewrite !div_Fin by lra. cbn [cbrt mul].
  pose proof (Rcbrt_unit u4 Hu4) as Hcb. set (cb := Rcbrt u4) in *.
  eexists. eexists. eexists. split; [reflexivity|].
  replace (x / len * (radius * cb) * (x / len * (radius * cb)) +
           x1 * q / len * (radius * cb) * (x1 * q / len * (radius * cb)) +
           x2 * q / len * (radius * cb) * (x2 * q / len * (radius * cb)))
    with (radius * radius * (cb * cb) * (S / (len * len)))
    by (unfold S; field; lra).
  rewrite Hlen2. replace (S / S) with 1 by (field; lra).
  assert (Hcb2 : cb * cb <= 1) by nra.
  assert (Hr2 : 0 <= radius * radius) by nra.
  nra.
Qed.

(** the loop of [generateStarPositions] keeps every position within the
    sphere *)
Lemma starLoop_within (radius : R) :
  forall (fuel : nat) (i count : num) (s : Z) (acc res : list Vector3)
         (g : Random),
    (1 <= s <= 2147483646)%Z ->
    Forall (fun P : Vector3 =>
              exists a b c : R,
                P = mkVector3 (Fin a) (Fin b) (Fin c) /\
                a * a + b * b + c * c <= radius * radius) acc ->
    starLoop fuel i count (Fin radius) (Fin (IZR s)) acc = Some (res, g) ->
    Forall (fun P : Vector3 =>
              exists a b c : R,
                P = mkVector3 (Fin a) (Fin b) (Fin c) /\
                a * a + b * b + c * c <= radius * radius) res.
Proof.
  induction fuel as [|fuel IH]; intros i count s acc res g Hs Hacc H;
    [discriminate|].
  rewrite starLoop_unfold in H.
  destruct (i <? count)%js; [|injection H as <- _; exact Hacc].
  destruct (marsaglia fuel (Fin (IZR s))) as [[[[a b] w] g2]|] eqn:Hm;
    [|discriminate].
  destruct (marsaglia_accepts _ _ _ _ _ _ Hs Hm)
    as (x1 & x2 & s2 & -> & -> & -> & Hw & -> & Hs2).
  cbv zeta in H.
  destruct (call_in_range s2 Hs2) as (u3 & s3 & Hc3 & Hu3 & Hs3 & _).
  destruct (call_in_range s3 Hs3) as (u4 & s4 & Hc4 & Hu4 & Hs4 & _).
  rewrite Hc3, Hc4 in H.
  destruct (star_within x1 x2 u3 u4 radius Hw Hu4) as (pa & pb & pc & E & Hn).
  cbv zeta in E. rewrite E in H.
  apply (IH _ _ _ _ _ _ Hs4) in H; [exact H|].
  apply Forall_app. split; [exact Hacc|].
  constructor; [|constructor].
  exists pa, pb, pc. split; [reflexivity|exact Hn].
Qed.

(** with the generator stuck at state 0 the loop returns only when it is
    not entered *)
Lemma starLoop_stuck (fuel : nat) (i count radius : num)
    (acc res : list Vector3) (g : Random) :
  starLoop fuel i count radius (Fin 0) acc = Some (res, g) -> res = acc.
Proof.
  destruct fuel as [|fuel]; [discriminate|].
  rewrite starLoop_unfold. destruct (i <? count)%js.
  - rewrite marsaglia_stuck. discriminate.
  - intros [= <- _]. reflexivity.
Qed.

End WithinSphere.

(** X30.  Every star has finite coordinates: for every integer seed, every
    count and every finite radius, each position that the component's
    [createSeededRandom] and [generateStarPositions] return has three finite
    coordinates, none of them NaN or infinite.  The rejection loop accepts
    only [0 < w < 1], so neither [log(w) / w] nor the division by [length]
    is undefined. *)
Theorem X30_stars_are_finite
    (fuel : nat) (count : num) (radius : R) (seed : Z)
    (positions : list Starfield.Vector3) :
  Starfield.starPositions fuel count radius (Fin (IZR seed)) = Some positions ->
  Forall (fun P : Starfield.Vector3 =>
            exists a b c : R,
              P = Starfield.mkVector3 (Fin a) (Fin b) (Fin c)) positions.
Proof.
  unfold Starfield.starPositions, Starfield.generateStarPositions.
  destruct (createSeededRandom_IZR seed) as (s & -> & Hrange & Hzero).
  destruct (Starfield.starLoop _ _ _ _ _ _) as [[res g]|] eqn:Hloop;
    [|discriminate].
  cbn [option_map fst]. intros [= <-].
  destruct (Z.eq_dec s 0) as [->|Hnz].
  - apply starLoop_stuck in Hloop. subst res. constructor.
  - assert (Hin : Forall (fun P : Starfield.Vector3 =>
              exists a b c : R,
                P = Starfield.mkVector3 (Fin a) (Fin b) (Fin c) /\
                a * a + b * b + c * c <= radius * radius) res).
    { apply (starLoop_within radius fuel (Fin 0) count s [] res g);
        [lia|constructor|exact Hloop]. }
    revert Hin. apply Forall_impl.
    intros P (a & b & c & HP & _). exists a, b, c. exact HP.
Qed.

Lemma X30_stars_are_finite_witness :
  exists first second : Starfield.Vector3,
    Starfield.starPositions 4 (Fin (INR 2)) 60 1337 = Some [first; second] /\
    Forall (fun P : Starfield.Vector3 =>
              exists a b c : R,
                P = Starfield.mkVector3 (Fin a) (Fin b) (Fin c))
           [first; second].
Proof.
  destruct generateStarPositions_1337_two as (first & second & g & _ & H2).
  assert (Hrun : Starfield.starPositions 4 (Fin (INR 2)) 60 1337
                 = Some [first; second]).
  { unfold Starfield.starPositions. rewrite createSeededRandom_1337, H2.
    reflexivity. }
  exists first, second. split; [exact Hrun|].
  exact (X30_stars_are_finite 4 (Fin (INR 2)) 60 1337 [first; second] Hrun).
Defined.
(** ** Generators as objects *)

Section HeapGenerators.
Import Starfield.







End HeapGenerators.


